(** * jsii-rosetta: the [transliterate] command

    A shallow embedding of
    [packages/jsii-rosetta/lib/commands/transliterate.ts] and the
    properties of its documentation walker, its disclaimer and its
    orchestration loop. *)

From Stdlib Require Import String Ascii List Bool Arith Lia.
From stdpp Require Import base option list strings gmap fin_maps.

Open Scope string_scope.

(** ** Strings as the code builds them *)

(** The line feed of the ['\n'] literals. *)
Definition LF : string := String "010"%char EmptyString.

(** [Array.prototype.join]: the elements separated by [sep]. *)
Fixpoint join (sep : string) (parts : list string) : string :=
  match parts with
  | [] => ""
  | [p] => p
  | p :: rest => p ++ sep ++ join sep rest
  end.

(** Truthiness of a JavaScript string: every string but the empty one. *)
Definition truthy (s : string) : bool :=
  match s with
  | EmptyString => false
  | String _ _ => true
  end.

(** ** [Translation] (tablets) and [prefixDisclaimer] *)

Record Translation := mkTranslation {
  language : string;
  source : string;
  didCompile : bool
}.

(** The inner function [commentToken] of [prefixDisclaimer]: a [switch] on
    the language of the translation, whose [default] shares the branch of
    csharp, java and go. *)
Definition commentToken (translation : Translation) : string :=
  if String.eqb (language translation) "python" then "#"
  else if String.eqb (language translation) "ruby" then "#"
  else if String.eqb (language translation) "csharp" then "//"
  else if String.eqb (language translation) "java" then "//"
  else if String.eqb (language translation) "go" then "//"
  else "//".

Definition disclaimerText (translation : Translation) : string :=
  if didCompile translation
  then "This example was automatically transliterated."
  else "This example was automatically transliterated with incomplete type information. It may not work as-is.".

Definition prefixDisclaimer (translation : Translation) : string :=
  let comment := commentToken translation in
  let disclaimer := disclaimerText translation in
  join LF
    [ comment ++ " " ++ disclaimer;
      comment ++ " See https://github.com/aws/jsii/issues/826 for more information.";
      "";
      source translation ].

(** ** The assembly document (the part of [@jsii/spec] the command reads)

    Optional properties of the JSON document are [option]s; a collection that
    is absent is [None], which is not the same as an empty one. *)

Record Docs := mkDocs {
  summary : option string;
  example : option string
}.

Record Parameter_ := mkParameter {
  parameter_name : string;
  parameter_docs : option Docs
}.

Record Method := mkMethod {
  method_name : string;
  method_docs : option Docs;
  method_parameters : option (list Parameter_)
}.

Record Property := mkProperty {
  property_name : string;
  property_docs : option Docs
}.

Record EnumMember := mkEnumMember {
  member_name : string;
  member_docs : option Docs
}.

Record Initializer := mkInitializer {
  initializer_docs : option Docs;
  initializer_parameters : option (list Parameter_)
}.

(** [TypeKind]: the three kinds of [@jsii/spec], and whatever other tag a
    document read from disk carries in its [kind] property. *)
Inductive TypeKind :=
| ClassKind
| InterfaceKind
| EnumKind
| OtherKind (tag : string).

(** A type is one JavaScript object; which of its properties are read depends
    on its kind only through the [switch] of [transliterateType]. *)
Record Type_ := mkType {
  kind : TypeKind;
  docs : option Docs;
  initializer : option Initializer;
  methods : option (list Method);
  properties : option (list Property);
  members : option (list EnumMember)
}.

Record Readme := mkReadme {
  markdown : string
}.

(** [types] keeps the order in which [Object.values] lists the properties. *)
Record Assembly := mkAssembly {
  name : string;
  version : string;
  readme : option Readme;
  types : option (list (string * Type_))
}.

Record CodeBlock := mkCodeBlock {
  block_language : string;
  block_source : string
}.

Record TransliterateAssemblyOptions := mkOptions {
  loose : option bool;
  strict : option bool;
  tablet : option string
}.

(** ** Errors and results *)

Inductive Error :=
| JsError (message : string)            (* [throw new Error(message)] *)
| TypeError (message : string)          (* raised by the JavaScript runtime *)
| IOError (path : string)               (* [readJson]: no such file *)
| ParseError (path : string)            (* [readJson]: the file is not JSON *)
| CollaboratorError (message : string). (* thrown by an imported function *)

Inductive Result (A : Type) :=
| Ok (a : A)
| Throw (e : Error).
Arguments Ok {A} a.
Arguments Throw {A} e.

(** What a call of an imported function comes to: a value, or an exception
    of its own. *)
Inductive Outcome (A : Type) :=
| Returned (a : A)
| Failed (message : string).
Arguments Returned {A} a.
Arguments Failed {A} message.

(** ** The imported collaborators

    [Rosetta], [fixturize], [typeScriptSnippetFromSource] and the working
    directory of the process are what the command takes from outside; the
    development is parametric in them. A [Rosetta] value is the state of
    the one instance created by a run. The calls that load, register or
    translate can throw, as [fixturize] can: a call that throws leaves the
    instance as it was, and the exception ends the run, since the command
    catches nothing. [printDiagnostics] and [hasErrors] report what the
    instance has collected. *)
Class RosettaEngine := {
  Rosetta : Type;
  Snippet : Type;
  (* [new Rosetta({ includeCompilerDiagnostics, liveConversion, loose, targetLanguages })] *)
  newRosetta : bool -> bool -> option bool -> list string -> Rosetta;
  loadTabletFromFile : string -> Rosetta -> Outcome Rosetta;
  addAssembly : Assembly -> string -> Rosetta -> Outcome Rosetta;
  translateSnippetsInMarkdown :
    string -> string -> bool -> (Translation -> CodeBlock) -> string ->
    Rosetta -> Outcome (string * Rosetta);
  translateSnippet :
    Snippet -> string -> Rosetta -> Outcome (option Translation * Rosetta);
  printDiagnostics : Rosetta -> string;
  hasErrors : Rosetta -> bool;
  (* [SnippetParameters.$PROJECT_DIRECTORY] *)
  PROJECT_DIRECTORY : string;
  typeScriptSnippetFromSource :
    string -> string -> bool -> list (string * string) -> Snippet;
  fixturize : Snippet -> bool -> Outcome Snippet;
  (* [process.cwd()], an absolute path: where [path.resolve] starts from
     when it is given a relative one *)
  cwd : string
}.

(** ** Files, in-memory copies and the observable trace *)

Inductive File :=
| JsonFile (document : Assembly)
| OtherFile (content : string).

(** A reference to the root object of one parsed document. A document
    is a tree: its parts are reached from its root only, so two references
    that differ name objects that share nothing. *)
Definition loc := nat.

(** The calls a run makes, as the properties observe them. A call of a
    collaborator or of the file system is recorded when it returns, with
    what it returned; a call that throws leaves no record but the
    exception. *)

Inductive Event :=
| EvLoadTablet (path : string)
| EvReadJson (path : string) (copy : loc) (document : Assembly)
| EvAddAssembly (directory : string) (copy : loc)
| EvTranslateMarkdown (language : string) (directory : string)
| EvDocs (node : option Docs)          (* a call of [transliterateDocs] *)
| EvTranslateSnippet (language : string) (translation : option Translation)
| EvWriteJson (path : string) (document : Assembly)
| EvDebug (message : string)
| EvPrintDiagnostics (text : string).

(** The world a run acts on: the files, the objects produced by parsing
    (one entry per call of [readJson], at the reference that is its index),
    the [Rosetta] instance and, as the observation the properties are stated
    on, the trace of the calls made so far (oldest first). The trace is not
    part of the program: nothing reads it. *)
Record World `{RosettaEngine} := mkWorld {
  disk : gmap string File;
  heap : list Assembly;
  rosetta : Rosetta;
  trace : list Event
}.

(** ** The monad of the command: state and exceptions

    An exception keeps the state reached when it was thrown. *)
Definition M `{RosettaEngine} (A : Type) : Type := World -> World * Result A.

Definition ret `{RosettaEngine} {A} (a : A) : M A := fun w => (w, Ok a).

Definition bind `{RosettaEngine} {A B} (c : M A) (k : A -> M B) : M B :=
  fun w =>
    match c w with
    | (w', Ok a) => k a w'
    | (w', Throw e) => (w', Throw e)
    end.

Definition throw `{RosettaEngine} {A} (e : Error) : M A := fun w => (w, Throw e).

Notation "x <- c ;; k" := (bind c (fun x => k))
  (at level 100, c at next level, right associativity).
Notation "c ;; k" := (bind c (fun _ => k))
  (at level 100, right associativity).

Section Command.
Context `{RosettaEngine}.

Definition emit (e : Event) : M unit :=
  fun w => (mkWorld _ (disk w) (heap w) (rosetta w) (trace w ++ [e]), Ok tt).

(** [for (const x of xs) body(x)] *)
Fixpoint forM_ {A} (body : A -> M unit) (xs : list A) : M unit :=
  match xs with
  | [] => ret tt
  | x :: rest => body x ;; forM_ body rest
  end.

(** A loop that updates each element of an array in place. *)
Fixpoint mapM {A} (body : A -> M A) (xs : list A) : M (list A) :=
  match xs with
  | [] => ret []
  | x :: rest =>
      x' <- body x ;;
      rest' <- mapM body rest ;;
      ret (x' :: rest')
  end.

(** [for (const x of xs ?? []) body(x)]: an absent array stays absent. *)
Definition mapM_opt {A} (body : A -> M A) (xs : option (list A)) : M (option (list A)) :=
  match xs with
  | None => ret None
  | Some l => l' <- mapM body l ;; ret (Some l')
  end.

(** *** Calls into the collaborators *)

Definition callFixturize (snippet : Snippet) (loose_ : bool) : M Snippet :=
  fun w =>
    match fixturize snippet loose_ with
    | Returned s => (w, Ok s)
    | Failed message => (w, Throw (CollaboratorError message))
    end.

Definition callTranslateSnippet (snippet : Snippet) (language_ : string) : M (option Translation) :=
  fun w =>
    match translateSnippet snippet language_ (rosetta w) with
    | Returned (translation, r) =>
        (mkWorld _ (disk w) (heap w) r
           (trace w ++ [EvTranslateSnippet language_ translation]),
         Ok translation)
    | Failed message => (w, Throw (CollaboratorError message))
    end.

Definition callTranslateSnippetsInMarkdown (md language_ : string) (strict_ : bool)
    (format : Translation -> CodeBlock) (directory : string) : M string :=
  fun w =>
    match translateSnippetsInMarkdown md language_ strict_ format directory (rosetta w) with
    | Returned (md', r) =>
        (mkWorld _ (disk w) (heap w) r
           (trace w ++ [EvTranslateMarkdown language_ directory]),
         Ok md')
    | Failed message => (w, Throw (CollaboratorError message))
    end.

Definition callLoadTabletFromFile (path : string) : M unit :=
  fun w =>
    match loadTabletFromFile path (rosetta w) with
    | Returned r =>
        (mkWorld _ (disk w) (heap w) r (trace w ++ [EvLoadTablet path]), Ok tt)
    | Failed message => (w, Throw (CollaboratorError message))
    end.

Definition callAddAssembly (copy : loc) (directory : string) : M unit :=
  fun w =>
    match heap w !! copy with
    | Some a =>
        match addAssembly a directory (rosetta w) with
        | Returned r =>
            (mkWorld _ (disk w) (heap w) r (trace w ++ [EvAddAssembly directory copy]),
             Ok tt)
        | Failed message => (w, Throw (CollaboratorError message))
        end
    | None => (w, Throw (TypeError "undefined is not an object"))
    end.

Definition callPrintDiagnostics : M unit :=
  fun w => emit (EvPrintDiagnostics (printDiagnostics (rosetta w))) w.

Definition getHasErrors : M bool := fun w => (w, Ok (hasErrors (rosetta w))).

(** *** The file system and the parsed objects *)

(** [path.resolve(directory, file)] of Node's [path] module, on POSIX
    paths. The arguments are taken from the right up to the first absolute
    one, with [process.cwd()] in front when none is; the result is absolute
    and in normal form: no empty segment, no [.] segment, and every [..]
    has removed the segment before it (at the root it is dropped). Two
    spellings of one directory resolve to one path. *)

(** What stands between the slashes of a path. *)
Fixpoint segments (path : string) : list string :=
  match path with
  | EmptyString => [EmptyString]
  | String c rest =>
      if Ascii.eqb c "/"%char then EmptyString :: segments rest
      else match segments rest with
           | seg :: segs => String c seg :: segs
           | [] => [String c EmptyString]
           end
  end.

Definition isAbsolute (path : string) : bool :=
  match path with
  | String c _ => Ascii.eqb c "/"%char
  | EmptyString => false
  end.

(** One segment more, after the segments [kept] so far. *)
Definition normalizeStep (kept : list string) (segment : string) : list string :=
  if String.eqb segment "" || String.eqb segment "." then kept
  else if String.eqb segment ".." then removelast kept
  else (kept ++ [segment])%list.

Definition normalize (segs : list string) : list string :=
  fold_left normalizeStep segs [].

Definition resolve (directory file : string) : string :=
  let parts :=
    if isAbsolute file then [file]
    else if isAbsolute directory then [directory; file]
    else [cwd; directory; file] in
  "/" ++ join "/" (normalize (flat_map segments parts)).

(** The file name of an assembly in its directory ([@jsii/spec]). *)
Definition SPEC_FILE_NAME : string := ".jsii".

(** [readJson(path)]: reads and parses the file; the object it returns is
    new at every call. *)
Definition readJson (path : string) : M loc :=
  fun w =>
    match disk w !! path with
    | None => (w, Throw (IOError path))
    | Some (OtherFile _) => (w, Throw (ParseError path))
    | Some (JsonFile a) =>
        let copy := length (heap w) in
        (mkWorld _ (disk w) (heap w ++ [a]) (rosetta w)
           (trace w ++ [EvReadJson path copy a]),
         Ok copy)
    end.

(** [writeJson(path, object, { spaces: 2 })] *)
Definition writeJson (path : string) (copy : loc) : M unit :=
  fun w =>
    match heap w !! copy with
    | Some a =>
        (mkWorld _ (<[path := JsonFile a]> (disk w)) (heap w) (rosetta w)
           (trace w ++ [EvWriteJson path a]),
         Ok tt)
    | None => (w, Throw (TypeError "undefined is not an object"))
    end.

(** Reading through a reference. The references of a run come from
    [readJson] and name an object; for any other the model raises the
    [TypeError] that JavaScript raises on [undefined]. *)
Definition deref (copy : loc) : M Assembly :=
  fun w =>
    match heap w !! copy with
    | Some a => (w, Ok a)
    | None => (w, Throw (TypeError "undefined is not an object"))
    end.

(** Assigning into the object behind a reference. *)
Definition modify (copy : loc) (f : Assembly -> Assembly) : M unit :=
  fun w =>
    match heap w !! copy with
    | Some a => (mkWorld _ (disk w) (<[copy := f a]> (heap w)) (rosetta w) (trace w), Ok tt)
    | None => (w, Throw (TypeError "undefined is not an object"))
    end.

Definition setMarkdown (md : string) (a : Assembly) : Assembly :=
  mkAssembly (name a) (version a) (Some (mkReadme md)) (types a).

Definition setType (i : nat) (t : Type_) (a : Assembly) : Assembly :=
  mkAssembly (name a) (version a) (readme a)
    (match types a with
     | Some ts =>
         Some (match ts !! i with
               | Some (fqn, _) => <[i := (fqn, t)]> ts
               | None => ts
               end)
     | None => None
     end).

Definition setExample (d : Docs) (text : string) : Docs :=
  mkDocs (summary d) (Some text).

(** *** [transliterateType] and its inner function [transliterateDocs] *)

Section Walker.
Variables (language_ workingDirectory : string) (loose_ : bool).

(** The inner function [transliterateDocs]. An assignment to
    [docs.example] changes the node in place; here the function hands the
    node back as it has left it, and its callers put it back where it was.
    The first step records the call. *)
Definition transliterateDocs (node : option Docs) : M (option Docs) :=
  emit (EvDocs node) ;;
  match node with
  | Some d =>
      match example d with
      | Some text =>
          if truthy text then
            snippet <- callFixturize
                         (typeScriptSnippetFromSource text "example" true
                            [(PROJECT_DIRECTORY, workingDirectory)])
                         loose_ ;;
            translation <- callTranslateSnippet snippet language_ ;;
            match translation with
            | Some tr => ret (Some (setExample d (prefixDisclaimer tr)))
            | None => ret node
            end
          else ret node
      | None => ret node
      end
  | None => ret node
  end.

Definition transliterateParameter (parameter : Parameter_) : M Parameter_ :=
  d <- transliterateDocs (parameter_docs parameter) ;;
  ret (mkParameter (parameter_name parameter) d).

Definition transliterateMethod (method : Method) : M Method :=
  d <- transliterateDocs (method_docs method) ;;
  ps <- mapM_opt transliterateParameter (method_parameters method) ;;
  ret (mkMethod (method_name method) d ps).

Definition transliterateProperty (property : Property) : M Property :=
  d <- transliterateDocs (property_docs property) ;;
  ret (mkProperty (property_name property) d).

Definition transliterateMember (member : EnumMember) : M EnumMember :=
  d <- transliterateDocs (member_docs member) ;;
  ret (mkEnumMember (member_name member) d).

(** [case TypeKind.Interface:] up to its [break]. *)
Definition caseInterface (type : Type_) : M Type_ :=
  ms <- mapM_opt transliterateMethod (methods type) ;;
  ps <- mapM_opt transliterateProperty (properties type) ;;
  ret (mkType (kind type) (docs type) (initializer type) ms ps (members type)).

(** [case TypeKind.Class:], which falls through into the interface case. *)
Definition caseClass (type : Type_) : M Type_ :=
  i <- match initializer type with
       | Some init =>
           d <- transliterateDocs (initializer_docs init) ;;
           ret (Some (mkInitializer d (initializer_parameters init)))
       | None => transliterateDocs None ;; ret None
       end ;;
  caseInterface
    (mkType (kind type) (docs type) i (methods type) (properties type) (members type)).

(** [case TypeKind.Enum:]; [type.members] is iterated as it is. *)
Definition caseEnum (type : Type_) : M Type_ :=
  match members type with
  | Some ms =>
      ms' <- mapM transliterateMember ms ;;
      ret (mkType (kind type) (docs type) (initializer type) (methods type)
             (properties type) (Some ms'))
  | None => throw (TypeError "type.members is not iterable")
  end.

Definition unsupportedKind (tag : string) : Error :=
  JsError ("Unsupported type kind: " ++ tag).

Definition transliterateType (type : Type_) : M Type_ :=
  d <- transliterateDocs (docs type) ;;
  let type := mkType (kind type) d (initializer type) (methods type)
                (properties type) (members type) in
  match kind type with
  | ClassKind => caseClass type
  | InterfaceKind => caseInterface type
  | EnumKind => caseEnum type
  | OtherKind tag => throw (unsupportedKind tag)
  end.

End Walker.
End Command.

(** ** [loadAssemblies] and [transliterateAssembly] *)

Section Orchestrator.
Context `{RosettaEngine}.

(** [type AssemblyLoader = () => Promise<Mutable<Assembly>>] *)
Definition AssemblyLoader : Type := M loc.

(** [Map.prototype.set]: a key that is present keeps its place. *)
Fixpoint mapSet {V} (m : list (string * V)) (key : string) (value : V) : list (string * V) :=
  match m with
  | [] => [(key, value)]
  | (k, v) :: rest =>
      if String.eqb k key then (k, value) :: rest
      else (k, v) :: mapSet rest key value
  end.

(** The loop of [loadAssemblies], with the map built so far. *)
Fixpoint loadAssembliesInto (directories : list string)
    (result : list (string * AssemblyLoader)) : M (list (string * AssemblyLoader)) :=
  match directories with
  | [] => ret result
  | directory :: rest =>
      let loader : AssemblyLoader := readJson (resolve directory SPEC_FILE_NAME) in
      copy <- loader ;;
      callAddAssembly copy directory ;;
      loadAssembliesInto rest (mapSet result directory loader)
  end.

Definition loadAssemblies (directories : list string) : M (list (string * AssemblyLoader)) :=
  loadAssembliesInto directories [].

(** The formatter handed to [translateSnippetsInMarkdown]. *)
Definition markdownFormatter (translation : Translation) : CodeBlock :=
  mkCodeBlock (language translation) (prefixDisclaimer translation).

(** [Object.values(result.types ?? {})], each value with its position. *)
Definition typeValues (a : Assembly) : list (nat * Type_) :=
  imap (fun i entry => (i, snd entry)) (default [] (types a)).

(** The file written for one language. *)
Definition outputPath (location language_ : string) : string :=
  resolve location (SPEC_FILE_NAME ++ "." ++ language_).

(** The first part of the body of the inner loop, up to the end of the loop
    over the types: the copy is loaded and transliterated in place. A type
    is put back into the copy when its walk returns; when the walk throws
    the run is over and nothing reads the copy again. *)
Definition transliterateCopy (options : TransliterateAssemblyOptions)
    (location : string) (loadAssembly : AssemblyLoader) (language_ : string) : M loc :=
  result <- loadAssembly ;;
  a <- deref result ;;
  match readme a with
  | Some r =>
      if truthy (markdown r) then
        md <- callTranslateSnippetsInMarkdown (markdown r) language_ true
                markdownFormatter location ;;
        modify result (setMarkdown md)
      else ret tt
  | None => ret tt
  end ;;
  a <- deref result ;;
  forM_ (fun '(i, type) =>
           t <- transliterateType language_ location (default false (loose options)) type ;;
           modify result (setType i t))
        (typeValues a) ;;
  ret result.

(** The body of the inner loop: one (directory, language) pair. The elapsed
    time reported by the [debug] message is left out of the message. *)
Definition transliteratePair (options : TransliterateAssemblyOptions)
    (location : string) (loadAssembly : AssemblyLoader) (language_ : string) : M unit :=
  result <- transliterateCopy options location loadAssembly language_ ;;
  writeJson (outputPath location language_) result ;;
  a <- deref result ;;
  emit (EvDebug ("Done transliterating " ++ name a ++ "@" ++ version a
                   ++ " to " ++ language_)).

(** The two nested loops over [assemblies.entries()] and [targetLanguages]. *)
Definition transliterateAll (options : TransliterateAssemblyOptions)
    (targetLanguages : list string)
    (assemblies : list (string * AssemblyLoader)) : M unit :=
  forM_ (fun '(location, loadAssembly) =>
           forM_ (transliteratePair options location loadAssembly) targetLanguages)
        assemblies.

Definition strictModeError : Error :=
  JsError "Strict mode is enabled and some examples failed compilation!".

(** What follows the loops. *)
Definition reportDiagnostics (options : TransliterateAssemblyOptions) : M unit :=
  callPrintDiagnostics ;;
  errors <- getHasErrors ;;
  if errors && default false (strict options) then throw strictModeError
  else ret tt.

(** Everything up to and including [loadAssemblies]. *)
Definition prepare (assemblyLocations : list string)
    (options : TransliterateAssemblyOptions) : M (list (string * AssemblyLoader)) :=
  match tablet options with
  | Some path => if truthy path then callLoadTabletFromFile path else ret tt
  | None => ret tt
  end ;;
  loadAssemblies assemblyLocations.

(** Everything up to the end of the loops. *)
Definition processing (assemblyLocations targetLanguages : list string)
    (options : TransliterateAssemblyOptions) : M unit :=
  assemblies <- prepare assemblyLocations options ;;
  transliterateAll options targetLanguages assemblies.

(** The world in which the body of [transliterateAssembly] starts: the files
    as they are, no object parsed yet, a new [Rosetta]. *)
Definition initialWorld (targetLanguages : list string)
    (options : TransliterateAssemblyOptions) (files : gmap string File) : World :=
  mkWorld _ files []
    (newRosetta true true (loose options) targetLanguages) [].

Definition transliterateAssembly (assemblyLocations targetLanguages : list string)
    (options : TransliterateAssemblyOptions) (files : gmap string File)
    : World * Result unit :=
  (processing assemblyLocations targetLanguages options ;;
   reportDiagnostics options)
    (initialWorld targetLanguages options files).

End Orchestrator.

(** ** A small engine to run the command on

    Snippets are their source text. A snippet that reads [skip] gets no
    translation, one that reads [broken] is translated and leaves a
    diagnostic, [missing] has no fixture unless the run is loose. An
    assembly named [unregistrable] is one [addAssembly] throws on. *)
Definition sampleEngine : RosettaEngine := {|
  Rosetta := list string;
  Snippet := string;
  newRosetta := fun _ _ _ _ => [];
  loadTabletFromFile := fun path r =>
    if String.eqb path "absent.tabl.json" then Failed "no such file" else Returned r;
  addAssembly := fun a _ r =>
    if String.eqb (name a) "unregistrable" then Failed "no tablet" else Returned r;
  translateSnippetsInMarkdown := fun md lang _ format _ r =>
    Returned (block_source (format (mkTranslation lang md false)), r);
  translateSnippet := fun s lang r =>
    if String.eqb s "skip" then Returned (None, r)
    else if String.eqb s "broken"
         then Returned (Some (mkTranslation lang s false), (r ++ ["broken"])%list)
         else Returned (Some (mkTranslation lang ("translated " ++ s) true), r);
  printDiagnostics := fun r => join LF r;
  hasErrors := fun r => match r with [] => false | _ => true end;
  PROJECT_DIRECTORY := "$directory";
  typeScriptSnippetFromSource := fun text _ _ _ => text;
  fixturize := fun s loose_ =>
    if String.eqb s "missing" && negb loose_
    then Failed "fixture not found" else Returned s;
  cwd := "/work"
|}.

Definition sampleDocs (text : string) : option Docs :=
  Some (mkDocs (Some "about") (Some text)).

Definition sampleEnum : Type_ :=
  mkType EnumKind (sampleDocs "enum") None None None
    (Some [mkEnumMember "A" (sampleDocs "a"); mkEnumMember "B" None]).

Definition sampleClass : Type_ :=
  mkType ClassKind None
    (Some (mkInitializer (sampleDocs "new C()") None))
    (Some []) (Some []) None.

Definition sampleInterface : Type_ :=
  mkType InterfaceKind None None
    (Some [mkMethod "m" (sampleDocs "m()") (Some [mkParameter "p" (sampleDocs "p")])])
    (Some [mkProperty "q" (sampleDocs "skip")]) None.

Definition sampleOther : Type_ :=
  mkType (OtherKind "struct") (sampleDocs "other") None None None None.

Definition sampleAssembly (ts : list (string * Type_)) : Assembly :=
  mkAssembly "lib" "1.0.0" (Some (mkReadme "readme")) (Some ts).

Definition sampleFiles : gmap string File :=
  <["/a/.jsii" := JsonFile (sampleAssembly [("lib.E", sampleEnum); ("lib.I", sampleInterface)])]>
  (<["/b/.jsii" := JsonFile (sampleAssembly [("lib.C", sampleClass)])]> ∅).

Definition sampleWorld : @World sampleEngine :=
  @mkWorld sampleEngine sampleFiles [] [] [].

Definition noOptions : TransliterateAssemblyOptions := mkOptions None None None.

Definition strictOptions : TransliterateAssemblyOptions :=
  mkOptions None (Some true) None.

(** An assembly with an example that does not compile. *)
Definition brokenFiles : gmap string File :=
  {["/c/.jsii" :=
      JsonFile (mkAssembly "lib" "1.0.0" None
                  (Some [("lib.I",
                          mkType InterfaceKind (sampleDocs "broken") None None None None)]))]}.

(** ** What the properties observe *)

(** The nodes [transliterateDocs] was called on, in order. *)
Definition docsCalls (events : list Event) : list (option Docs) :=
  omap (fun e => match e with EvDocs node => Some node | _ => None end) events.

(** The directories [addAssembly] was called for, in order. *)
Definition registrations (events : list Event) : list string :=
  omap (fun e => match e with EvAddAssembly d _ => Some d | _ => None end) events.

(** The paths [writeJson] was called on, in order. *)
Definition written (events : list Event) : list string :=
  omap (fun e => match e with EvWriteJson p _ => Some p | _ => None end) events.

(** The calls a walk of one type can make. *)
Definition isWalkerEvent (e : Event) : Prop :=
  match e with
  | EvDocs _ | EvTranslateSnippet _ _ => True
  | _ => False
  end.

(** The nodes of a method: its own, then those of its parameters. *)
Definition methodNodes (m : Method) : list (option Docs) :=
  method_docs m :: map parameter_docs (default [] (method_parameters m)).

(** The nodes of the interface shape: methods with their parameters, then
    properties. *)
Definition interfaceNodes (t : Type_) : list (option Docs) :=
  flat_map methodNodes (default [] (methods t))
  ++ map property_docs (default [] (properties t)).

(** [type?.initializer?.docs] *)
Definition initializerNode (t : Type_) : option Docs :=
  match initializer t with
  | Some init => initializer_docs init
  | None => None
  end.

(** A walk: the files and the parsed objects of the world stay as they are,
    only walker calls are made, and either the walk ends as [Q] says after
    calling [transliterateDocs] on exactly [nodes], or a collaborator threw
    and the calls made up to there are an initial part of [nodes]. *)
Definition walkSpec `{RosettaEngine} {A} (c : M A) (nodes : list (option Docs))
    (Q : Result A -> Prop) : Prop :=
  forall w,
    disk (c w).1 = disk w /\ heap (c w).1 = heap w /\
    exists events,
      trace (c w).1 = (trace w ++ events)%list /\ Forall isWalkerEvent events /\
      ((docsCalls events = nodes /\ Q (c w).2) \/
       (exists message, (c w).2 = Throw (CollaboratorError message)
                        /\ docsCalls events `prefix_of` nodes)).

(** The result is a value for which [P] holds. *)
Definition returns {A} (P : A -> Prop) (r : Result A) : Prop :=
  exists a, r = Ok a /\ P a.

(** The type with an empty array in the place of each absent one. *)
Definition orEmpty (t : Type_) : Type_ :=
  mkType (kind t) (docs t) (initializer t)
    (Some (default [] (methods t))) (Some (default [] (properties t))) (members t).

(** The method with an empty array of parameters when it has none. *)
Definition orEmptyParameters (m : Method) : Method :=
  mkMethod (method_name m) (method_docs m) (Some (default [] (method_parameters m))).

Definition mapResult {A B} (f : A -> B) (r : Result A) : Result B :=
  match r with
  | Ok a => Ok (f a)
  | Throw e => Throw e
  end.

(** The result is an exception. *)
Definition throws {A} (r : Result A) : Prop :=
  exists e, r = Throw e.

(** The files after the writes among [events], starting from [files]. *)
Fixpoint replay (events : list Event) (files : gmap string File) : gmap string File :=
  match events with
  | [] => files
  | EvWriteJson path a :: rest => replay rest (<[path := JsonFile a]> files)
  | _ :: rest => replay rest files
  end.

(** Every [readJson] among [events] returned the document the file held when
    it was read. *)
Fixpoint readsFrom (files : gmap string File) (events : list Event) : Prop :=
  match events with
  | [] => True
  | EvReadJson path _ a :: rest =>
      files !! path = Some (JsonFile a) /\ readsFrom files rest
  | EvWriteJson path a :: rest => readsFrom (<[path := JsonFile a]> files) rest
  | _ :: rest => readsFrom files rest
  end.

(** How a computation moves the world: it appends events, all of them in
    [P]; the files change by the writes among these events and by nothing
    else; what was read is what the files held. *)
Definition evolves `{RosettaEngine} (P : Event -> Prop) (w w' : World) : Prop :=
  exists events,
    trace w' = (trace w ++ events)%list /\ Forall P events /\
    disk w' = replay events (disk w) /\ readsFrom (disk w) events.

Definition preserves `{RosettaEngine} {A} (R : World -> World -> Prop) (c : M A) : Prop :=
  forall w, R w (c w).1.

(** A name that stays inside its directory. *)
Fixpoint hasSlash (s : string) : bool :=
  match s with
  | EmptyString => false
  | String c rest => Ascii.eqb c "/"%char || hasSlash rest
  end.

Definition singleSegment (s : string) : bool := negb (hasSlash s).

(** The part of a path after its last slash. *)
Fixpoint basename (path : string) : string :=
  match path with
  | EmptyString => EmptyString
  | String c rest =>
      if hasSlash rest then basename rest
      else if Ascii.eqb c "/"%char then rest else path
  end.

(** The calls of the loading phase. *)
Definition isLoadEvent `{RosettaEngine} (e : Event) : Prop :=
  match e with
  | EvLoadTablet _ | EvAddAssembly _ _ => True
  | EvReadJson path _ _ => exists d, path = resolve d SPEC_FILE_NAME
  | _ => False
  end.

(** The calls of the part of an iteration that precedes [writeJson]. *)
Definition isCopyEvent `{RosettaEngine} (e : Event) : Prop :=
  match e with
  | EvReadJson path _ _ => exists d, path = resolve d SPEC_FILE_NAME
  | EvTranslateMarkdown _ _ | EvDocs _ | EvTranslateSnippet _ _ => True
  | _ => False
  end.

(** The calls of the iterations for the languages [languages]. *)
Definition isPairEvent `{RosettaEngine} (languages : list string) (e : Event) : Prop :=
  match e with
  | EvReadJson path _ _ => exists d, path = resolve d SPEC_FILE_NAME
  | EvWriteJson path _ => exists d l, l ∈ languages /\ path = outputPath d l
  | EvTranslateMarkdown _ _ | EvDocs _ | EvTranslateSnippet _ _ | EvDebug _ => True
  | _ => False
  end.

(** The calls a run makes before it prints the diagnostics. *)
Definition isProcessingEvent `{RosettaEngine} (languages : list string) (e : Event) : Prop :=
  isLoadEvent e \/ isPairEvent languages e.

(** The disclaimer as the specification words it for a translation that did
    not compile, in a language whose comments start with two slashes. *)
Definition claimedDisclaimer (reference text : string) : string :=
  "// This example was automatically transliterated with incomplete type information. It may not work as-is."
  ++ LF ++ "// See " ++ reference ++ "." ++ LF ++ LF ++ text.

Fixpoint hasSpace (s : string) : bool :=
  match s with
  | EmptyString => false
  | String c rest => Ascii.eqb c " "%char || hasSpace rest
  end.

(** The node handed back is the node passed in, but for its example. *)
Definition sameBut (node node' : option Docs) : Prop :=
  match node, node' with
  | Some d, Some d' => summary d' = summary d
  | None, None => True
  | _, _ => False
  end.

(** The loaders in the map of [loadAssemblies] re-read assembly files. *)
Definition rereads `{RosettaEngine} (entry : string * AssemblyLoader) : Prop :=
  exists path, entry.2 = readJson (resolve path SPEC_FILE_NAME).

(** Every exception a computation can end in is in [E]. *)
Definition raises `{RosettaEngine} {A} (E : Error -> Prop) (c : M A) : Prop :=
  forall w e, (c w).2 = Throw e -> E e.

(** Not the exception of the strict mode. *)
Definition notStrict (e : Error) : Prop := e <> strictModeError.

(** When the computation returns, the paths it wrote are [paths], in order. *)
Definition writesOnReturn `{RosettaEngine} {A} (c : M A) (paths : list string) : Prop :=
  forall w a w', c w = (w', Ok a) ->
    exists events, trace w' = (trace w ++ events)%list /\ written events = paths.

(** The calls of a run. *)
Definition isRunEvent `{RosettaEngine} (languages : list string) (e : Event) : Prop :=
  isProcessingEvent languages e \/ exists text, e = EvPrintDiagnostics text.

(** The files a complete pass over the map writes: for each directory of the
    map, one file per language. *)
Definition outputs `{RosettaEngine} (ls : list string) (assemblies : list (string * AssemblyLoader))
    : list string :=
  flat_map (fun entry => map (outputPath entry.1) ls) assemblies.

(** Any call but [addAssembly]. *)
Definition notRegistration (e : Event) : Prop :=
  match e with
  | EvAddAssembly _ _ => False
  | _ => True
  end.

(** The directory holds an assembly that can be read. *)
Definition readable `{RosettaEngine} (files : gmap string File) (d : string) : Prop :=
  exists a, files !! resolve d SPEC_FILE_NAME = Some (JsonFile a).

(** The copies below [n] are left as they are. *)
Definition keepsBelow `{RosettaEngine} (n : nat) (w w' : World) : Prop :=
  forall copy, copy < n -> heap w' !! copy = heap w !! copy.


(** ** What the further properties observe *)

(** The node without its example. *)
Definition eraseNode (node : option Docs) : option Docs :=
  option_map (fun d => mkDocs (summary d) None) node.

Definition eraseParameter (p : Parameter_) : Parameter_ :=
  mkParameter (parameter_name p) (eraseNode (parameter_docs p)).

Definition eraseMethod (m : Method) : Method :=
  mkMethod (method_name m) (eraseNode (method_docs m))
    (option_map (map eraseParameter) (method_parameters m)).

Definition eraseProperty (p : Property) : Property :=
  mkProperty (property_name p) (eraseNode (property_docs p)).

Definition eraseMember (m : EnumMember) : EnumMember :=
  mkEnumMember (member_name m) (eraseNode (member_docs m)).

(** The type without the examples a walk can reach: those of the type, of
    its initializer, of its methods and their parameters, of its properties
    and of its members. The parameters of the initializer stay whole. *)
Definition withoutExamples (t : Type_) : Type_ :=
  mkType (kind t) (eraseNode (docs t))
    (option_map (fun init => mkInitializer (eraseNode (initializer_docs init))
                                (initializer_parameters init))
       (initializer t))
    (option_map (map eraseMethod) (methods t))
    (option_map (map eraseProperty) (properties t))
    (option_map (map eraseMember) (members t)).

(** The assembly without these examples and without the text of its
    readme. *)
Definition withoutTranslations (a : Assembly) : Assembly :=
  mkAssembly (name a) (version a)
    (option_map (fun _ => mkReadme "") (readme a))
    (option_map (map (fun entry => (entry.1, withoutExamples entry.2))) (types a)).

(** [docs?.example] is truthy. *)
Definition hasExample (node : option Docs) : bool :=
  match node with
  | Some d =>
      match example d with
      | Some text => truthy text
      | None => false
      end
  | None => false
  end.

(** The nodes a walk of the type calls [transliterateDocs] on when it runs
    to its end. *)
Definition typeNodes (t : Type_) : list (option Docs) :=
  match kind t with
  | ClassKind => docs t :: initializerNode t :: interfaceNodes t
  | InterfaceKind => docs t :: interfaceNodes t
  | EnumKind => docs t :: map member_docs (default [] (members t))
  | OtherKind _ => [docs t]
  end.

(** The walk of the type has a case for its kind, and members to iterate
    when the type is an enum. *)
Definition walkable (t : Type_) : bool :=
  match kind t with
  | ClassKind | InterfaceKind => true
  | EnumKind => match members t with Some _ => true | None => false end
  | OtherKind _ => false
  end.

(** When the computation returns, what it returns is in [P]. *)
Definition returnsOnly `{RosettaEngine} {A} (c : M A) (P : A -> Prop) : Prop :=
  forall w w' a, c w = (w', Ok a) -> P a.

(** The world after the calls [events], none of which changes anything
    else. *)
Definition recorded `{RosettaEngine} (w : World) (events : list Event) : World :=
  mkWorld _ (disk w) (heap w) (rosetta w) (trace w ++ events).

(** The computation does nothing but call [transliterateDocs] on [nodes],
    none of which has an example to translate, and returns [a]. *)
Definition skips `{RosettaEngine} {A} (c : M A) (nodes : list (option Docs)) (a : A) : Prop :=
  forall w, c w = (recorded w (map EvDocs nodes), Ok a).

(** The copy behind [copy] is [a] but for what a transliteration changes;
    the files are [files], and the copies are [n] in number. *)
Definition copyIs `{RosettaEngine} (copy : loc) (a : Assembly) (files : gmap string File) (n : nat)
    (w : World) : Prop :=
  disk w = files /\ length (heap w) = n /\
  exists cur,
    heap w !! copy = Some cur /\
    name cur = name a /\ version cur = version a /\ readme cur = readme a /\
    option_map (map (fun entry => (entry.1, withoutExamples entry.2))) (types cur)
    = option_map (map (fun entry => (entry.1, withoutExamples entry.2))) (types a).

(** The keys of a [Map] after [set(key, ...)]: a key that is present keeps
    its place, a new one goes last. *)
Fixpoint addKey (keys : list string) (key : string) : list string :=
  match keys with
  | [] => [key]
  | k :: rest => if String.eqb k key then k :: rest else k :: addKey rest key
  end.

(** The keys of the map [loadAssemblies] fills from [directories], in the
    order in which [assemblies.entries()] gives them. *)
Definition mapKeys (directories : list string) : list string :=
  fold_left addKey directories [].

(** The loader [loadAssemblies] stores for a directory. *)
Definition loaderOf `{RosettaEngine} (directory : string) : string * AssemblyLoader :=
  (directory, readJson (resolve directory SPEC_FILE_NAME)).

(** The files a run writes when nothing stops it, in the order of the two
    loops: directory by directory, and for each one language by language. *)
Definition planned `{RosettaEngine} (directories targetLanguages : list string) : list string :=
  flat_map (fun d => map (outputPath d) targetLanguages) (mapKeys directories).

(** The paths the computation writes are an initial part of [paths], and
    all of [paths] when it returns. *)
Definition writesWithin `{RosettaEngine} {A} (c : M A) (paths : list string) : Prop :=
  forall w,
    exists events,
      trace (c w).1 = (trace w ++ events)%list /\
      written events `prefix_of` paths /\
      ((exists a, (c w).2 = Ok a) -> written events = paths).

(** Any call but [loadTabletFromFile]. *)
Definition notTablet (e : Event) : Prop :=
  match e with
  | EvLoadTablet _ => False
  | _ => True
  end.

(** The tablet a run loads: [options.tablet] when it is given and not
    empty. *)
Definition tabletPaths (options : TransliterateAssemblyOptions) : list string :=
  match tablet options with
  | Some path => if truthy path then [path] else []
  | None => []
  end.

(** The tablets of [tabletPaths] load into the new [Rosetta] instance. *)
Definition tabletLoads `{RosettaEngine} (targetLanguages : list string)
    (options : TransliterateAssemblyOptions) : bool :=
  forallb (fun path =>
             match loadTabletFromFile path
                     (newRosetta true true (loose options) targetLanguages) with
             | Returned _ => true
             | Failed _ => false
             end)
    (tabletPaths options).

(** The exception of [readJson] on a path that holds no assembly. *)
Definition readError (files : gmap string File) (path : string) : Error :=
  match files !! path with
  | None => IOError path
  | Some _ => ParseError path
  end.

(** The computation writes no file. *)
Definition quiet `{RosettaEngine} {A} (c : M A) : Prop :=
  forall w,
    disk (c w).1 = disk w /\ written (trace (c w).1) = written (trace w).

(** What holds of the files while a run goes on: the assembly of every
    directory is as it was when the run started; a path that was written
    holds the output for a listed directory and a requested language, which
    is the assembly of that directory but for the translations; a path that
    was not written holds what it held. *)
Definition transliterations `{RosettaEngine} (files : gmap string File)
    (directories targetLanguages : list string) (w : World) : Prop :=
  (forall d, disk w !! resolve d SPEC_FILE_NAME = files !! resolve d SPEC_FILE_NAME) /\
  (forall path, path ∈ written (trace w) ->
     exists d l a0 a,
       d ∈ directories /\ l ∈ targetLanguages /\ path = outputPath d l /\
       files !! resolve d SPEC_FILE_NAME = Some (JsonFile a0) /\
       disk w !! path = Some (JsonFile a) /\
       withoutTranslations a = withoutTranslations a0) /\
  (forall path, path ∉ written (trace w) -> disk w !! path = files !! path).

(** One step keeps what holds of the files. *)
Definition keepsTransliterations `{RosettaEngine} (files : gmap string File)
    (directories targetLanguages : list string) (w w' : World) : Prop :=
  transliterations files directories targetLanguages w ->
  transliterations files directories targetLanguages w'.

(** The languages [translateSnippet] was called for, in order. *)
Definition snippetCalls (events : list Event) : list string :=
  omap (fun e => match e with EvTranslateSnippet l _ => Some l | _ => None end) events.

(** The calls of a walk over [nodes] that runs to its end: the callback on
    each node in turn, followed by one call of [translateSnippet] for the
    language when the node has an example to translate, and by nothing
    otherwise. *)
Fixpoint followsNodes (language_ : string) (nodes : list (option Docs))
    (events : list Event) : Prop :=
  match nodes with
  | [] => events = []
  | node :: rest =>
      if hasExample node then
        exists translation events',
          events = EvDocs node :: EvTranslateSnippet language_ translation :: events' /\
          followsNodes language_ rest events'
      else
        exists events', events = EvDocs node :: events' /\ followsNodes language_ rest events'
  end.

(** When the computation returns, its calls are those of a walk over
    [nodes]. *)
Definition walksOnReturn `{RosettaEngine} {A} (language_ : string) (c : M A)
    (nodes : list (option Docs)) : Prop :=
  forall w w' a, c w = (w', Ok a) ->
    exists events, trace w' = (trace w ++ events)%list /\ followsNodes language_ nodes events.

(** The first statement of [transliterateAssembly] after the [Rosetta]
    instance is made: [if (options.tablet) await rosetta.loadTabletFromFile(...)]. *)
Definition loadTablet `{RosettaEngine} (options : TransliterateAssemblyOptions) : M unit :=
  match tablet options with
  | Some path => if truthy path then callLoadTabletFromFile path else ret tt
  | None => ret tt
  end.

(** What follows it: the loading of the assemblies, the loops and the
    diagnostics. *)
Definition afterTablet `{RosettaEngine} (directories targetLanguages : list string)
    (options : TransliterateAssemblyOptions) : M unit :=
  (assemblies <- loadAssemblies directories ;;
   transliterateAll options targetLanguages assemblies) ;;
  reportDiagnostics options.

(** [result] is the readme of the output for a language: the readme whose
    text is what the engine handed back for the text of the readme of [a],
    asked in strict mode and with the formatter of the command, [r0] being
    the state of the engine when it was asked; a readme that is absent or
    has no text is as it was. *)
Definition readmeTranslated `{RosettaEngine} (language_ location : string) (r0 : Rosetta)
    (a : Assembly) (result : option Readme) : Prop :=
  match readme a with
  | Some r =>
      if truthy (markdown r) then
        exists md r',
          translateSnippetsInMarkdown (markdown r) language_ true
            markdownFormatter location r0 = Returned (md, r') /\
          result = Some (mkReadme md)
      else result = Some r
  | None => result = None
  end.

(** The paths [readJson] has read, in order. *)
Definition readPaths (events : list Event) : list string :=
  omap (fun e => match e with EvReadJson p _ _ => Some p | _ => None end) events.

(** Any call but a read of [readJson]. *)
Definition notRead (e : Event) : Prop :=
  match e with
  | EvReadJson _ _ _ => False
  | _ => True
  end.

(** The paths the computation reads are an initial part of [paths], and all
    of [paths] when it returns. *)
Definition readsWithin `{RosettaEngine} {A} (c : M A) (paths : list string) : Prop :=
  forall w,
    exists events,
      trace (c w).1 = (trace w ++ events)%list /\
      readPaths events `prefix_of` paths /\
      ((exists a, (c w).2 = Ok a) -> readPaths events = paths).

(** The reads of a run that nothing stops: the assembly of every listed
    directory while the assemblies are loaded, one read per entry of the
    list; then, directory by directory, the assembly of the directory once
    for each language. *)
Definition plannedReads `{RosettaEngine} (directories targetLanguages : list string) : list string :=
  map (fun d => resolve d SPEC_FILE_NAME) directories
  ++ flat_map (fun d => map (fun _ => resolve d SPEC_FILE_NAME) targetLanguages)
       (mapKeys directories).

(** Every directory of the list holds an assembly that can be read and that
    the engine registers, one after the other, starting from the state
    [r]. *)
Fixpoint registers `{RosettaEngine} (files : gmap string File) (directories : list string)
    (r : Rosetta) : bool :=
  match directories with
  | [] => true
  | d :: rest =>
      match files !! resolve d SPEC_FILE_NAME with
      | Some (JsonFile a) =>
          match addAssembly a d r with
          | Returned r' => registers files rest r'
          | Failed _ => false
          end
      | _ => false
      end
  end.

(** The new [Rosetta] instance after the tablet of [tabletPaths], if there
    is one, was loaded into it. *)
Definition rosettaAfterTablet `{RosettaEngine} (targetLanguages : list string)
    (options : TransliterateAssemblyOptions) : Outcome Rosetta :=
  match tabletPaths options with
  | [] => Returned (newRosetta true true (loose options) targetLanguages)
  | path :: _ =>
      loadTabletFromFile path (newRosetta true true (loose options) targetLanguages)
  end.

(** The loading goes through: the tablet, if one is asked for, loads, and
    every directory of the list holds an assembly that can be read and that
    the engine registers. *)
Definition loadingSucceeds `{RosettaEngine} (files : gmap string File)
    (directories targetLanguages : list string) (options : TransliterateAssemblyOptions)
    : bool :=
  match rosettaAfterTablet targetLanguages options with
  | Returned r => registers files directories r
  | Failed _ => false
  end.

(** A file name: one segment, which names neither the directory it is in
    nor the one above. *)
Definition simpleName (file : string) : bool :=
  negb (hasSlash file) && negb (String.eqb file "") && negb (String.eqb file ".")
  && negb (String.eqb file "..").

(** What [path.resolve] puts before the slash and the file name, for a file
    of the directory: the resolved directory, nothing for the root. *)
Definition directoryPrefix `{RosettaEngine} (directory : string) : string :=
  match normalize (flat_map segments
                     (if isAbsolute directory then [directory] else [cwd; directory])) with
  | [] => ""
  | segs => "/" ++ join "/" segs
  end.

(** * Properties *)

(** ** Walks *)

Ltac walked evs :=
  repeat split; auto; exists evs;
  (split; [rewrite <- ?app_assoc; reflexivity|]);
  (split; [repeat constructor|]).

Section WalkerFacts.
Context `{RosettaEngine}.

Lemma docsCalls_app e1 e2 : docsCalls (e1 ++ e2) = (docsCalls e1 ++ docsCalls e2)%list.
Proof. apply omap_app. Qed.

Lemma walkSpec_ret {A} (a : A) (Q : Result A -> Prop) :
  Q (Ok a) -> walkSpec (ret a) [] Q.
Proof.
  intros HQ w. cbn. repeat split; try reflexivity.
  exists []. rewrite app_nil_r. repeat split; auto.
Qed.

Lemma walkSpec_throw {A} (e : Error) (Q : Result A -> Prop) :
  Q (Throw e) -> walkSpec (throw e) [] Q.
Proof.
  intros HQ w. cbn. repeat split; try reflexivity.
  exists []. rewrite app_nil_r. repeat split; auto.
Qed.

Lemma walkSpec_bind {A B} (c : M A) (k : A -> M B) n1 n2 (P : A -> Prop) Q :
  walkSpec c n1 (returns P) ->
  (forall a, P a -> walkSpec (k a) n2 Q) ->
  walkSpec (bind c k) (n1 ++ n2)%list Q.
Proof.
  intros Hc Hk w. destruct (Hc w) as (Hd & Hh & ev1 & Ht & Hev & Hout).
  unfold bind. destruct (c w) as [w1 r1] eqn:E. cbn in *.
  destruct Hout as [[Hn (a & -> & HP)] | (m & -> & Hpre)].
  - destruct (Hk a HP w1) as (Hd2 & Hh2 & ev2 & Ht2 & Hev2 & Hout2).
    split; [congruence|]. split; [congruence|].
    exists (ev1 ++ ev2)%list. split; [rewrite Ht2, Ht, app_assoc; reflexivity|].
    split; [apply Forall_app; auto|].
    rewrite docsCalls_app, Hn.
    destruct Hout2 as [[Hn2 HQ] | (m & Hr & Hpre)].
    + left. rewrite Hn2. auto.
    + right. exists m. split; [exact Hr|]. apply prefix_app, Hpre.
  - split; [exact Hd|]. split; [exact Hh|].
    exists ev1. repeat split; auto.
    right. exists m. split; [reflexivity|]. apply prefix_app_r, Hpre.
Qed.

Lemma walkSpec_weaken {A} (c : M A) n (Q Q' : Result A -> Prop) :
  (forall r, Q r -> Q' r) -> walkSpec c n Q -> walkSpec c n Q'.
Proof.
  intros HQ Hc w. destruct (Hc w) as (Hd & Hh & ev & Ht & Hev & Hout).
  repeat split; auto. exists ev. repeat split; auto.
  destruct Hout as [[Hn Hq] | Hthrow]; [left; auto | right; auto].
Qed.

Lemma walkSpec_mapM {A} (body : A -> M A) (nodes : A -> list (option Docs))
    (P : A -> A -> Prop) :
  (forall x, walkSpec (body x) (nodes x) (returns (P x))) ->
  forall xs, walkSpec (mapM body xs) (flat_map nodes xs) (returns (Forall2 P xs)).
Proof.
  intros Hbody. induction xs as [|x xs IH]; cbn [mapM flat_map].
  - apply walkSpec_ret. exists []. split; [reflexivity | constructor].
  - eapply walkSpec_bind; [apply Hbody|]. intros x' Hx'.
    rewrite <- (app_nil_r (flat_map nodes xs)).
    eapply walkSpec_bind; [apply IH|]. intros xs' Hxs'.
    apply walkSpec_ret. eexists. split; [reflexivity | constructor; auto].
Qed.

Variables (language_ workingDirectory : string) (loose_ : bool).

Local Abbreviation tDocs := (transliterateDocs language_ workingDirectory loose_).

Lemma walkSpec_transliterateDocs node :
  walkSpec (tDocs node) [node] (returns (sameBut node)).
Proof.
  intros w. unfold transliterateDocs, bind, emit.
  assert (Hself : returns (sameBut node) (Ok node)).
  { exists node. split; [reflexivity|]. destruct node; cbn; auto. }
  destruct node as [d|]; cbn.
  2:{ walked [EvDocs None]. left. auto. }
  destruct (example d) as [text|] eqn:Hex; cbn.
  2:{ walked [EvDocs (Some d)]. left. auto. }
  destruct (truthy text); cbn.
  2:{ walked [EvDocs (Some d)]. left. auto. }
  unfold callFixturize.
  destruct (fixturize _ _) as [s|m]; cbn.
  2:{ walked [EvDocs (Some d)]. right. exists m. split; reflexivity. }
  unfold callTranslateSnippet. cbn.
  destruct (translateSnippet s language_ (rosetta w)) as [[[tr|] r]|m]; cbn.
  - walked [EvDocs (Some d); EvTranslateSnippet language_ (Some tr)].
    left. split; [reflexivity|]. eexists. split; reflexivity.
  - walked [EvDocs (Some d); EvTranslateSnippet language_ None].
    left. auto.
  - walked [EvDocs (Some d)]. right. exists m. split; reflexivity.
Qed.

Lemma flat_map_singleton {A B} (f : A -> B) xs :
  flat_map (fun x => [f x]) xs = map f xs.
Proof. induction xs; cbn; congruence. Qed.

Lemma walkSpec_mapM_opt {A} (body : A -> M A) (nodes : A -> list (option Docs)) xs :
  (forall x, walkSpec (body x) (nodes x) (returns (fun _ => True))) ->
  walkSpec (mapM_opt body xs) (flat_map nodes (default [] xs)) (returns (fun _ => True)).
Proof.
  intros Hbody. destruct xs as [l|]; cbn [mapM_opt default from_option id flat_map].
  - rewrite <- (app_nil_r (flat_map nodes l)).
    eapply walkSpec_bind.
    + apply (walkSpec_mapM body nodes (fun _ _ => True)).
      intros x. eapply walkSpec_weaken; [|apply Hbody].
      intros r (a & -> & _). exists a. auto.
    + intros l' _. apply walkSpec_ret. eexists. split; [reflexivity | exact I].
  - apply walkSpec_ret. eexists. split; [reflexivity | exact I].
Qed.

Lemma walkSpec_step {A} (node : option Docs) (build : option Docs -> A) (P : A -> Prop) :
  (forall d, P (build d)) ->
  walkSpec (bind (tDocs node) (fun d => ret (build d))) [node] (returns P).
Proof.
  intros HP. change [node] with ([node] ++ [])%list.
  eapply walkSpec_bind; [apply walkSpec_transliterateDocs|].
  intros d _. apply walkSpec_ret. eexists. split; [reflexivity | apply HP].
Qed.

Lemma walkSpec_parameter p :
  walkSpec (transliterateParameter language_ workingDirectory loose_ p)
    [parameter_docs p] (returns (fun _ => True)).
Proof. apply walkSpec_step. auto. Qed.

Lemma walkSpec_property p :
  walkSpec (transliterateProperty language_ workingDirectory loose_ p)
    [property_docs p] (returns (fun _ => True)).
Proof. apply walkSpec_step. auto. Qed.

Lemma walkSpec_member m :
  walkSpec (transliterateMember language_ workingDirectory loose_ m)
    [member_docs m] (returns (fun _ => True)).
Proof. apply walkSpec_step. auto. Qed.

Lemma walkSpec_method m :
  walkSpec (transliterateMethod language_ workingDirectory loose_ m)
    (methodNodes m) (returns (fun _ => True)).
Proof.
  unfold transliterateMethod, methodNodes.
  change (method_docs m :: ?l) with ([method_docs m] ++ l)%list.
  eapply walkSpec_bind; [apply walkSpec_transliterateDocs|]. intros d _.
  rewrite <- (app_nil_r (map _ _)), <- flat_map_singleton.
  eapply walkSpec_bind; [apply walkSpec_mapM_opt, walkSpec_parameter|]. intros ps _.
  apply walkSpec_ret. eexists. split; [reflexivity | exact I].
Qed.

(** The interface case leaves the other properties of the type alone. *)
Lemma walkSpec_caseInterface t :
  walkSpec (caseInterface language_ workingDirectory loose_ t) (interfaceNodes t)
    (returns (fun t' => kind t' = kind t /\ docs t' = docs t /\
                        initializer t' = initializer t /\ members t' = members t)).
Proof.
  unfold caseInterface, interfaceNodes.
  eapply walkSpec_bind; [apply walkSpec_mapM_opt, walkSpec_method|].
  intros ms _. rewrite <- (app_nil_r (map _ _)), <- flat_map_singleton.
  eapply walkSpec_bind; [apply walkSpec_mapM_opt, walkSpec_property|]. intros ps _.
  apply walkSpec_ret. eexists. split; [reflexivity | cbn; auto].
Qed.

Lemma walkSpec_caseClass t :
  walkSpec (caseClass language_ workingDirectory loose_ t)
    (initializerNode t :: interfaceNodes t)
    (returns (fun t' => kind t' = kind t /\ docs t' = docs t /\ members t' = members t)).
Proof.
  unfold caseClass.
  change (initializerNode t :: ?l) with ([initializerNode t] ++ l)%list.
  eapply walkSpec_bind with (P := fun _ => True).
  { unfold initializerNode. destruct (initializer t) as [init|].
    - apply walkSpec_step. auto.
    - apply (walkSpec_step None (fun _ => None)). auto. }
  intros i _. eapply walkSpec_weaken;
    [|apply (walkSpec_caseInterface
               (mkType (kind t) (docs t) i (methods t) (properties t) (members t)))].
  cbn. intros r (t' & -> & Hk & Hd & _ & Hm). exists t'. auto.
Qed.

Lemma walkSpec_caseEnum t ms :
  members t = Some ms ->
  walkSpec (caseEnum language_ workingDirectory loose_ t) (map member_docs ms)
    (returns (fun t' => kind t' = kind t /\ docs t' = docs t /\
                        initializer t' = initializer t /\
                        methods t' = methods t /\ properties t' = properties t)).
Proof.
  intros Hms. unfold caseEnum. rewrite Hms.
  rewrite <- (app_nil_r (map _ _)), <- flat_map_singleton.
  eapply walkSpec_bind.
  - apply (walkSpec_mapM _ (fun m => [member_docs m]) (fun _ _ => True)).
    intros m. eapply walkSpec_weaken; [|apply walkSpec_member].
    intros r (a & -> & _). exists a. auto.
  - intros ms' _. apply walkSpec_ret. eexists. split; [reflexivity | cbn; auto].
Qed.

Local Abbreviation tType := (transliterateType language_ workingDirectory loose_).

Lemma walkSpec_class t :
  kind t = ClassKind ->
  walkSpec (tType t) (docs t :: initializerNode t :: interfaceNodes t)
    (returns (fun t' => kind t' = kind t /\ members t' = members t)).
Proof.
  intros Hk. unfold transliterateType.
  change (docs t :: ?l) with ([docs t] ++ l)%list.
  eapply walkSpec_bind; [apply walkSpec_transliterateDocs|]. intros d _.
  cbn. rewrite Hk. eapply walkSpec_weaken;
    [|apply (walkSpec_caseClass
               (mkType ClassKind d (initializer t) (methods t) (properties t) (members t)))].
  cbn. intros r (t' & -> & Hk' & _ & Hm). exists t'. auto.
Qed.

Lemma walkSpec_interface t :
  kind t = InterfaceKind ->
  walkSpec (tType t) (docs t :: interfaceNodes t)
    (returns (fun t' => kind t' = kind t /\ initializer t' = initializer t /\
                        members t' = members t)).
Proof.
  intros Hk. unfold transliterateType.
  change (docs t :: ?l) with ([docs t] ++ l)%list.
  eapply walkSpec_bind; [apply walkSpec_transliterateDocs|]. intros d _.
  cbn. rewrite Hk. eapply walkSpec_weaken;
    [|apply (walkSpec_caseInterface
               (mkType InterfaceKind d (initializer t) (methods t) (properties t) (members t)))].
  cbn. intros r (t' & -> & Hk' & _ & Hi & Hm). exists t'. auto.
Qed.

Lemma walkSpec_enum t ms :
  kind t = EnumKind -> members t = Some ms ->
  walkSpec (tType t) (docs t :: map member_docs ms)
    (returns (fun t' => kind t' = kind t /\ initializer t' = initializer t /\
                        methods t' = methods t /\ properties t' = properties t)).
Proof.
  intros Hk Hms. unfold transliterateType.
  change (docs t :: ?l) with ([docs t] ++ l)%list.
  eapply walkSpec_bind; [apply walkSpec_transliterateDocs|]. intros d _.
  cbn. rewrite Hk. eapply walkSpec_weaken;
    [|apply (walkSpec_caseEnum
               (mkType EnumKind d (initializer t) (methods t) (properties t) (members t)) ms);
      exact Hms].
  cbn. intros r (t' & -> & Hk' & _ & Hi & Hme & Hp). exists t'. auto.
Qed.

Lemma walkSpec_enum_absent t :
  kind t = EnumKind -> members t = None ->
  walkSpec (tType t) [docs t] (eq (Throw (TypeError "type.members is not iterable"))).
Proof.
  intros Hk Hms. unfold transliterateType.
  change [docs t] with ([docs t] ++ [])%list.
  eapply walkSpec_bind; [apply walkSpec_transliterateDocs|]. intros d _.
  cbn. rewrite Hk. unfold caseEnum. cbn. rewrite Hms.
  apply walkSpec_throw. reflexivity.
Qed.

Lemma walkSpec_other t tag :
  kind t = OtherKind tag ->
  walkSpec (tType t) [docs t] (eq (Throw (unsupportedKind tag))).
Proof.
  intros Hk. unfold transliterateType.
  change [docs t] with ([docs t] ++ [])%list.
  eapply walkSpec_bind; [apply walkSpec_transliterateDocs|]. intros d _.
  cbn. rewrite Hk. apply walkSpec_throw. reflexivity.
Qed.

(** Whatever the kind, a walk is a walk of some nodes. *)
Lemma walkSpec_any t :
  exists nodes Q, walkSpec (tType t) nodes Q.
Proof.
  destruct (kind t) as [| | |tag] eqn:Hk.
  - eexists _, _. apply walkSpec_class, Hk.
  - eexists _, _. apply walkSpec_interface, Hk.
  - destruct (members t) as [ms|] eqn:Hms.
    + eexists _, _. apply (walkSpec_enum t ms Hk Hms).
    + eexists _, _. apply (walkSpec_enum_absent t Hk Hms).
  - eexists _, _. apply (walkSpec_other t tag Hk).
Qed.

(** A call of [transliterateDocs] is recorded before anything it does, and
    before whatever walk follows it. *)
Lemma transliterateDocs_first node w :
  exists w1,
    trace w1 = (trace w ++ [EvDocs node])%list /\
    forall B (k : option Docs -> M B),
      (forall d, exists nodes Q, walkSpec (k d) nodes Q) ->
      exists rest, trace (bind (tDocs node) k w).1 = (trace w1 ++ rest)%list.
Proof.
  eexists (mkWorld _ (disk w) (heap w) (rosetta w) (trace w ++ [EvDocs node])).
  split; [reflexivity|]. intros B k Hk.
  assert (Hend : forall (r : Result (option Docs)) w2 ev,
             trace w2 = (trace w ++ [EvDocs node] ++ ev)%list ->
             exists rest, trace (match r with
                                 | Ok a => k a w2
                                 | Throw e => (w2, Throw e)
                                 end).1 = ((trace w ++ [EvDocs node]) ++ rest)%list).
  { intros [d|e] w2 ev Hw2.
    - destruct (Hk d) as (n & Q & Hs). destruct (Hs w2) as (_ & _ & ev2 & Ht & _).
      exists (ev ++ ev2)%list. rewrite Ht, Hw2, <- !app_assoc. reflexivity.
    - exists ev. cbn. rewrite Hw2, <- !app_assoc. reflexivity. }
  unfold bind at 1. unfold transliterateDocs, bind, emit. cbn.
  destruct node as [d|]; cbn.
  2:{ apply (Hend (Ok None) _ []). cbn. rewrite ?app_nil_r. reflexivity. }
  destruct (example d) as [text|]; cbn.
  2:{ apply (Hend (Ok (Some d)) _ []). cbn. rewrite ?app_nil_r. reflexivity. }
  destruct (truthy text); cbn.
  2:{ apply (Hend (Ok (Some d)) _ []). cbn. rewrite ?app_nil_r. reflexivity. }
  unfold callFixturize. destruct (fixturize _ _) as [sn|m]; cbn.
  2:{ exists []. rewrite app_nil_r. reflexivity. }
  unfold callTranslateSnippet. cbn.
  destruct (translateSnippet sn language_ (rosetta w)) as [[[tr|] r]|m]; cbn.
  - apply (Hend (Ok _) _ [EvTranslateSnippet language_ (Some tr)]). cbn.
    rewrite <- ?app_assoc. reflexivity.
  - apply (Hend (Ok _) _ [EvTranslateSnippet language_ None]). cbn.
    rewrite <- ?app_assoc. reflexivity.
  - exists []. rewrite app_nil_r. reflexivity.
Qed.

End WalkerFacts.

(** ** The walker, kind by kind *)

Section WalkerClaims.
Context `{RosettaEngine}.
Variables (language_ workingDirectory : string) (loose_ : bool).

Local Abbreviation tDocs := (transliterateDocs language_ workingDirectory loose_).
Local Abbreviation tType := (transliterateType language_ workingDirectory loose_).

(** An interface: the type's own node, then the interface shape. *)
Lemma interface_walk (t : Type_) (w : World) :
  kind t = InterfaceKind ->
  exists events,
    trace (tType t w).1 = (trace w ++ events)%list /\
    ((docsCalls events = docs t :: interfaceNodes t /\
      exists t', (tType t w).2 = Ok t') \/
     (exists message, (tType t w).2 = Throw (CollaboratorError message) /\
                      docsCalls events `prefix_of` (docs t :: interfaceNodes t))).
Proof.
  intros Hk.
  destruct (walkSpec_interface language_ workingDirectory loose_ t Hk w)
    as (_ & _ & events & Ht & _ & [[Hn (t' & Hr & _)] | Hthrow]);
    exists events; split; auto. left; eauto.
Qed.

(** C3 (as amended). For an enum whose members are present, the calls of the
    translation callback are exactly: the type's own Docs node, then the Docs
    node of each member, in order; the initializer, the methods and the
    properties of the type come back as they were. When a collaborator throws
    from inside the callback, the calls made are an initial part of that
    list. *)
Theorem enum_walk_visits_type_and_members (t : Type_) (ms : list EnumMember) (w : World) :
  kind t = EnumKind -> members t = Some ms ->
  exists events,
    trace (tType t w).1 = (trace w ++ events)%list /\
    ((docsCalls events = docs t :: map member_docs ms /\
      exists t', (tType t w).2 = Ok t' /\ initializer t' = initializer t /\
                 methods t' = methods t /\ properties t' = properties t) \/
     (exists message, (tType t w).2 = Throw (CollaboratorError message) /\
                      docsCalls events `prefix_of` (docs t :: map member_docs ms))).
Proof.
  intros Hk Hms.
  destruct (walkSpec_enum language_ workingDirectory loose_ t ms Hk Hms w)
    as (_ & _ & events & Ht & _ & [[Hn (t' & Hr & _ & Hi & Hme & Hp)] | Hthrow]);
    exists events; split; auto. left; eauto 10.
Qed.

(** C5. For a class, the calls of the translation callback are exactly: the
    type's own Docs node, the initializer's Docs node
    ([type?.initializer?.docs]), then the nodes of the interface shape, which
    are those [interface_walk] lists for an interface: every method with its
    parameters, then every property; absent and empty collections add
    nothing. The walk returns unless a collaborator throws. *)
Theorem class_walk_composes_interface (t : Type_) (w : World) :
  kind t = ClassKind ->
  exists events,
    trace (tType t w).1 = (trace w ++ events)%list /\
    ((docsCalls events = docs t :: initializerNode t :: interfaceNodes t /\
      exists t', (tType t w).2 = Ok t') \/
     (exists message, (tType t w).2 = Throw (CollaboratorError message) /\
                      docsCalls events
                        `prefix_of` (docs t :: initializerNode t :: interfaceNodes t))).
Proof.
  intros Hk.
  destruct (walkSpec_class language_ workingDirectory loose_ t Hk w)
    as (_ & _ & events & Ht & _ & [[Hn (t' & Hr & _)] | Hthrow]);
    exists events; split; auto. left; eauto.
Qed.

(** C9. Whatever the kind of the type, the first call of a walk is the
    translation callback on the type's own Docs node; for a kind that is not
    supported the walk is that call followed by the throw. *)
Theorem type_docs_translated_first (t : Type_) (w : World) :
  (exists rest, trace (tType t w).1 = (trace w ++ EvDocs (docs t) :: rest)%list) /\
  (forall tag, kind t = OtherKind tag ->
     tType t w = (tDocs (docs t) ;; throw (unsupportedKind tag)) w).
Proof.
  split.
  - destruct (transliterateDocs_first language_ workingDirectory loose_ (docs t) w)
      as (w1 & Hw1 & Hk).
    unfold transliterateType.
    edestruct Hk as (rest & Hrest).
    2:{ exists rest. rewrite Hrest, Hw1, <- app_assoc. reflexivity. }
    intros d. cbn.
    destruct (kind t) as [| | |tag] eqn:Hkind.
    + eexists _, _. apply walkSpec_caseClass.
    + eexists _, _. apply walkSpec_caseInterface.
    + destruct (members t) as [ms|] eqn:Hms.
      * eexists _, _. apply (walkSpec_caseEnum _ _ _ _ ms). reflexivity.
      * exists [], (fun _ => True). unfold caseEnum. cbn.
        apply walkSpec_throw. exact I.
    + exists [], (fun _ => True). apply walkSpec_throw. exact I.
  - intros tag Hk. unfold transliterateType. cbn. rewrite Hk. reflexivity.
Qed.

Lemma mapM_opt_absent {A} (body : A -> M A) (xs : option (list A)) w :
  mapM_opt body (Some (default [] xs)) w
  = ((mapM_opt body xs w).1,
     mapResult (fun r => Some (default [] r)) (mapM_opt body xs w).2).
Proof.
  destruct xs as [l|]; cbn; [|reflexivity].
  unfold bind. destruct (mapM body l w) as [w1 [l'|e]]; reflexivity.
Qed.

Lemma caseInterface_absent t w :
  caseInterface language_ workingDirectory loose_ (orEmpty t) w
  = ((caseInterface language_ workingDirectory loose_ t w).1,
     mapResult orEmpty (caseInterface language_ workingDirectory loose_ t w).2).
Proof.
  unfold caseInterface, bind. cbn [methods properties orEmpty].
  rewrite mapM_opt_absent.
  destruct (mapM_opt (transliterateMethod language_ workingDirectory loose_) (methods t) w)
    as [w1 [ms|e]]; cbn [fst snd mapResult]; [|reflexivity].
  rewrite mapM_opt_absent.
  destruct (mapM_opt (transliterateProperty language_ workingDirectory loose_)
              (properties t) w1) as [w2 [ps|e]]; reflexivity.
Qed.

(** An absent array is walked as an empty one: the walk of the type is the
    walk of the type with empty arrays in the place of the absent ones, and
    the type handed back differs in that only. *)
Lemma walk_absent_as_empty t w :
  kind t = InterfaceKind \/ kind t = ClassKind ->
  tType (orEmpty t) w = ((tType t w).1, mapResult orEmpty (tType t w).2).
Proof.
  intros Hk. unfold transliterateType, bind. cbn [docs kind orEmpty].
  destruct (tDocs (docs t) w) as [w1 [d|e]]; [|reflexivity]. cbn.
  destruct Hk as [-> | ->].
  - apply (caseInterface_absent
             (mkType InterfaceKind d (initializer t) (methods t) (properties t) (members t))).
  - unfold caseClass, bind. cbn [initializer orEmpty].
    destruct (initializer t) as [init|].
    + destruct (tDocs (initializer_docs init) w1) as [w2 [di|e]]; [|reflexivity].
      apply (caseInterface_absent
               (mkType ClassKind d (Some (mkInitializer di (initializer_parameters init)))
                  (methods t) (properties t) (members t))).
    + destruct (tDocs None w1) as [w2 [di|e]]; [|reflexivity].
      apply (caseInterface_absent
               (mkType ClassKind d None (methods t) (properties t) (members t))).
Qed.

Lemma method_absent_as_empty m w :
  transliterateMethod language_ workingDirectory loose_ (orEmptyParameters m) w
  = ((transliterateMethod language_ workingDirectory loose_ m w).1,
     mapResult orEmptyParameters
       (transliterateMethod language_ workingDirectory loose_ m w).2).
Proof.
  unfold transliterateMethod, bind. cbn [method_docs method_parameters orEmptyParameters].
  destruct (tDocs (method_docs m) w) as [w1 [d|e]]; [|reflexivity].
  cbn [fst snd mapResult].
  rewrite mapM_opt_absent.
  destruct (mapM_opt (transliterateParameter language_ workingDirectory loose_)
              (method_parameters m) w1) as [w2 [ps|e]]; reflexivity.
Qed.

(** C10. An enum whose [members] is absent makes the walk throw a
    [TypeError] once the callback has returned from the type's own node: the
    walk never returns. For a class or an interface an absent [methods] or
    [properties], and for a method an absent [parameters], is walked as an
    empty array is: the walk is the walk of the type (of the method) with
    empty arrays in the place of the absent ones, and what it hands back
    differs in that only; and the walk of a class or an interface ends in no
    exception of its own, it returns unless a collaborator throws. *)
Theorem absent_members_throw_absent_others_empty (t : Type_) (m : Method) (w : World) :
  (kind t = EnumKind -> members t = None ->
   exists events,
     trace (tType t w).1 = (trace w ++ events)%list /\
     ((docsCalls events = [docs t] /\
       (tType t w).2 = Throw (TypeError "type.members is not iterable")) \/
      (exists message, (tType t w).2 = Throw (CollaboratorError message) /\
                       docsCalls events `prefix_of` [docs t]))) /\
  (kind t = InterfaceKind \/ kind t = ClassKind ->
   tType (orEmpty t) w = ((tType t w).1, mapResult orEmpty (tType t w).2) /\
   ((exists t', (tType t w).2 = Ok t') \/
    (exists message, (tType t w).2 = Throw (CollaboratorError message)))) /\
  transliterateMethod language_ workingDirectory loose_ (orEmptyParameters m) w
  = ((transliterateMethod language_ workingDirectory loose_ m w).1,
     mapResult orEmptyParameters
       (transliterateMethod language_ workingDirectory loose_ m w).2).
Proof.
  split; [|split].
  - intros Hk Hms.
    destruct (walkSpec_enum_absent language_ workingDirectory loose_ t Hk Hms w)
      as (_ & _ & events & Ht & _ & [[Hn Hr] | Hthrow]);
      exists events; split; auto.
  - intros Hk. split; [apply walk_absent_as_empty, Hk|].
    destruct Hk as [Hk|Hk].
    + destruct (walkSpec_interface language_ workingDirectory loose_ t Hk w)
        as (_ & _ & events & _ & _ & [[_ (t' & Hr & _)] | (message & Hr & _)]); eauto.
    + destruct (walkSpec_class language_ workingDirectory loose_ t Hk w)
        as (_ & _ & events & _ & _ & [[_ (t' & Hr & _)] | (message & Hr & _)]); eauto.
  - apply method_absent_as_empty.
Qed.

(** C6. For a Docs node with a present, non-empty example whose snippet was
    prepared: when the engine returns no translation the callback returns
    the node as it was, and it throws nothing; the example is replaced, by
    [prefixDisclaimer] of the translation, exactly when the engine returns
    one. An exception of the engine is the exception of the callback. *)
Theorem untranslated_example_unchanged (d : Docs) (text : string) (snippet : Snippet)
    (w : World) :
  example d = Some text -> truthy text = true ->
  fixturize (typeScriptSnippetFromSource text "example" true
               [(PROJECT_DIRECTORY, workingDirectory)]) loose_ = Returned snippet ->
  match translateSnippet snippet language_ (rosetta w) with
  | Returned (None, _) => (tDocs (Some d) w).2 = Ok (Some d)
  | Returned (Some translation, _) =>
      (tDocs (Some d) w).2
        = Ok (Some (mkDocs (summary d) (Some (prefixDisclaimer translation))))
  | Failed message => (tDocs (Some d) w).2 = Throw (CollaboratorError message)
  end.
Proof.
  intros Hex Htext Hfix.
  unfold transliterateDocs, bind, emit. cbn. rewrite Hex, Htext.
  unfold callFixturize. rewrite Hfix. unfold callTranslateSnippet. cbn.
  destruct (translateSnippet snippet language_ (rosetta w)) as [[[tr|] r]|m]; reflexivity.
Qed.

End WalkerClaims.

(** ** How the world evolves *)

Lemma replay_app e1 e2 files :
  replay (e1 ++ e2) files = replay e2 (replay e1 files).
Proof.
  revert files. induction e1 as [|e e1 IH]; intros files; [reflexivity|].
  destruct e; cbn; apply IH.
Qed.

Lemma readsFrom_app e1 e2 files :
  readsFrom files (e1 ++ e2) <-> readsFrom files e1 /\ readsFrom (replay e1 files) e2.
Proof.
  revert files. induction e1 as [|e e1 IH]; intros files; [cbn; tauto|].
  destruct e; cbn; rewrite ?IH; tauto.
Qed.

Lemma walker_events_replay events files :
  Forall isWalkerEvent events -> replay events files = files /\ readsFrom files events.
Proof.
  induction 1 as [|e events He _ IH]; [split; constructor|].
  destruct e; cbn in *; try contradiction; exact IH.
Qed.

Section Evolution.
Context `{RosettaEngine}.

Lemma evolves_refl P w : evolves P w w.
Proof. exists []. rewrite app_nil_r. repeat split; constructor. Qed.

Lemma evolves_trans P w1 w2 w3 :
  evolves P w1 w2 -> evolves P w2 w3 -> evolves P w1 w3.
Proof.
  intros (e1 & Ht1 & HP1 & Hd1 & Hr1) (e2 & Ht2 & HP2 & Hd2 & Hr2).
  exists (e1 ++ e2)%list. split; [rewrite Ht2, Ht1, app_assoc; reflexivity|].
  split; [apply Forall_app; auto|].
  split; [rewrite replay_app, <- Hd1; exact Hd2|].
  apply readsFrom_app. rewrite <- Hd1. auto.
Qed.

Lemma evolves_mono (P P' : Event -> Prop) w w' :
  (forall e, P e -> P' e) -> evolves P w w' -> evolves P' w w'.
Proof.
  intros HPP (ev & Ht & HP & Hd & Hr). exists ev. repeat split; auto.
  eapply Forall_impl; eauto.
Qed.

(** One call that touches no file. *)
Lemma evolves_call P w h r e :
  P e -> replay [e] (disk w) = disk w -> readsFrom (disk w) [e] ->
  evolves P w (mkWorld _ (disk w) h r (trace w ++ [e])).
Proof. intros HP Hd Hr. exists [e]. cbn [trace disk]. auto. Qed.

#[export] Instance evolves_preorder P : PreOrder (evolves P).
Proof. split; [intros w; apply evolves_refl | intros w1 w2 w3; apply evolves_trans]. Qed.

Lemma preserves_ret {A} R (HR : PreOrder R) (a : A) : preserves R (ret a).
Proof. intros w. reflexivity. Qed.

Lemma preserves_throw {A} R (HR : PreOrder R) e : preserves R (@throw _ A e).
Proof. intros w. reflexivity. Qed.

Lemma preserves_bind {A B} R (HR : PreOrder R) (c : M A) (k : A -> M B) :
  preserves R c -> (forall a, preserves R (k a)) -> preserves R (bind c k).
Proof.
  intros Hc Hk w. unfold bind. specialize (Hc w).
  destruct (c w) as [w1 [a|e]]; cbn in *; [|exact Hc].
  etransitivity; [exact Hc | apply Hk].
Qed.

Lemma preserves_forM_ {A} R (HR : PreOrder R) (body : A -> M unit) xs :
  (forall x, x ∈ xs -> preserves R (body x)) -> preserves R (forM_ body xs).
Proof.
  induction xs as [|x xs IH]; intros Hbody; cbn [forM_].
  - apply preserves_ret; assumption.
  - apply preserves_bind; [assumption | apply Hbody; left|].
    intros _. apply IH. intros y Hy. apply Hbody. right. exact Hy.
Qed.

Lemma preserves_mono {A} (P P' : Event -> Prop) (c : M A) :
  (forall e, P e -> P' e) -> preserves (evolves P) c -> preserves (evolves P') c.
Proof. intros HPP Hc w. eapply evolves_mono; eauto. Qed.

(** *** The calls, one by one *)

Lemma preserves_emit P e :
  P e -> replay [e] = id -> (forall files, readsFrom files [e]) ->
  preserves (evolves P) (emit e).
Proof.
  intros HP Hd Hr w. apply evolves_call; auto. rewrite Hd. reflexivity.
Qed.

Lemma preserves_callFixturize P s l : preserves (evolves P) (callFixturize s l).
Proof. intros w. unfold callFixturize. destruct (fixturize s l); apply evolves_refl. Qed.

Lemma preserves_callTranslateSnippet P s l :
  (forall t, P (EvTranslateSnippet l t)) ->
  preserves (evolves P) (callTranslateSnippet s l).
Proof.
  intros HP w. unfold callTranslateSnippet.
  destruct (translateSnippet s l (rosetta w)) as [[t r]|m]; cbn;
    [apply evolves_call; cbn; auto | apply evolves_refl].
Qed.

Lemma preserves_callTranslateSnippetsInMarkdown P md l st f d :
  P (EvTranslateMarkdown l d) ->
  preserves (evolves P) (callTranslateSnippetsInMarkdown md l st f d).
Proof.
  intros HP w. unfold callTranslateSnippetsInMarkdown.
  destruct (translateSnippetsInMarkdown md l st f d (rosetta w)) as [[md' r]|m]; cbn;
    [apply evolves_call; cbn; auto | apply evolves_refl].
Qed.

Lemma preserves_callLoadTabletFromFile P path :
  P (EvLoadTablet path) -> preserves (evolves P) (callLoadTabletFromFile path).
Proof.
  intros HP w. unfold callLoadTabletFromFile.
  destruct (loadTabletFromFile path (rosetta w)); cbn;
    [apply evolves_call; cbn; auto | apply evolves_refl].
Qed.

Lemma preserves_callAddAssembly P copy d :
  P (EvAddAssembly d copy) -> preserves (evolves P) (callAddAssembly copy d).
Proof.
  intros HP w. unfold callAddAssembly.
  destruct (heap w !! copy) as [a|]; cbn; [|apply evolves_refl].
  destruct (addAssembly a d (rosetta w)); cbn;
    [apply evolves_call; cbn; auto | apply evolves_refl].
Qed.

Lemma preserves_callPrintDiagnostics P :
  (forall text, P (EvPrintDiagnostics text)) -> preserves (evolves P) callPrintDiagnostics.
Proof. intros HP w. unfold callPrintDiagnostics, emit. cbn. apply evolves_call; cbn; auto. Qed.

Lemma preserves_getHasErrors P : preserves (evolves P) getHasErrors.
Proof. intros w. apply evolves_refl. Qed.

Lemma preserves_deref P copy : preserves (evolves P) (deref copy).
Proof. intros w. unfold deref. destruct (heap w !! copy); apply evolves_refl. Qed.

Lemma preserves_modify P copy f : preserves (evolves P) (modify copy f).
Proof.
  intros w. unfold modify. destruct (heap w !! copy); cbn; [|apply evolves_refl].
  exists []. cbn. rewrite app_nil_r. repeat split; constructor.
Qed.

Lemma preserves_readJson P path :
  (forall l a, P (EvReadJson path l a)) -> preserves (evolves P) (readJson path).
Proof.
  intros HP w. unfold readJson.
  destruct (disk w !! path) as [[a|]|] eqn:Hfile; cbn; try apply evolves_refl.
  apply evolves_call; cbn; auto.
Qed.

Lemma preserves_writeJson P path copy :
  (forall a, P (EvWriteJson path a)) -> preserves (evolves P) (writeJson path copy).
Proof.
  intros HP w. unfold writeJson.
  destruct (heap w !! copy) as [a|]; cbn; [|apply evolves_refl].
  exists [EvWriteJson path a]. cbn. auto.
Qed.

(** *** The walker and the loops *)

Lemma preserves_walk {A} (c : M A) nodes Q :
  walkSpec c nodes Q -> preserves (evolves isWalkerEvent) c.
Proof.
  intros Hc w. destruct (Hc w) as (Hd & _ & ev & Ht & Hev & _).
  destruct (walker_events_replay ev (disk w) Hev) as [Hre Hrd].
  exists ev. rewrite Hre. auto.
Qed.

Lemma preserves_transliterateType l d loose_ t :
  preserves (evolves isWalkerEvent) (transliterateType l d loose_ t).
Proof.
  destruct (walkSpec_any l d loose_ t) as (n & Q & Hs). eapply preserves_walk, Hs.
Qed.

End Evolution.

Ltac pres_bind := apply preserves_bind; [typeclasses eauto | | ].
Ltac pres_loop := apply preserves_forM_; [typeclasses eauto | ].

Ltac pres_step :=
  first
    [ apply preserves_ret; typeclasses eauto
    | apply preserves_throw; typeclasses eauto
    | apply preserves_deref
    | apply preserves_modify
    | apply preserves_getHasErrors
    | pres_bind; [|intros ?]
    | match goal with
      | |- preserves _ (match ?x with _ => _ end) => destruct x
      end ].

Section Phases.
Context `{RosettaEngine}.

Lemma isWalker_isCopy e : isWalkerEvent e -> isCopyEvent e.
Proof. destruct e; cbn; tauto. Qed.

Lemma isCopy_isPair ls e : isCopyEvent e -> isPairEvent ls e.
Proof. destruct e; cbn; tauto. Qed.

Lemma preserves_transliterateCopy options location path language_ :
  preserves (evolves isCopyEvent)
    (transliterateCopy options location (readJson (resolve path SPEC_FILE_NAME)) language_).
Proof.
  unfold transliterateCopy.
  pres_bind; [apply preserves_readJson; intros; cbn; eauto|]. intros result.
  repeat pres_step.
  - apply preserves_callTranslateSnippetsInMarkdown. exact I.
  - pres_loop. intros [i t] _.
    pres_bind; [|intros; apply preserves_modify].
    eapply preserves_mono; [apply isWalker_isCopy | apply preserves_transliterateType].
Qed.

Lemma preserves_transliteratePair options location path language_ ls :
  language_ ∈ ls ->
  preserves (evolves (isPairEvent ls))
    (transliteratePair options location (readJson (resolve path SPEC_FILE_NAME)) language_).
Proof.
  intros Hl. unfold transliteratePair.
  pres_bind.
  { eapply preserves_mono; [apply isCopy_isPair | apply preserves_transliterateCopy]. }
  intros result. pres_bind.
  { apply preserves_writeJson. intros a. cbn. eauto. }
  intros _. repeat pres_step.
  apply preserves_emit; cbn; auto.
Qed.

Lemma preserves_transliterateAll options ls assemblies :
  Forall rereads assemblies ->
  preserves (evolves (isPairEvent ls)) (transliterateAll options ls assemblies).
Proof.
  intros Hall. unfold transliterateAll.
  pres_loop. intros [location loader] Hin.
  rewrite Forall_forall in Hall. destruct (Hall _ Hin) as (path & Hp). cbn in Hp. subst loader.
  pres_loop. intros l Hl. apply preserves_transliteratePair, Hl.
Qed.

Lemma mapSet_rereads m d path :
  Forall rereads m ->
  Forall rereads (mapSet m d (readJson (resolve path SPEC_FILE_NAME))).
Proof.
  induction 1 as [|[k v] m Hkv Hm IH]; cbn.
  - repeat constructor. exists path. reflexivity.
  - destruct (String.eqb k d); constructor; auto. exists path. reflexivity.
Qed.

Lemma loadAssembliesInto_rereads directories : forall m w,
  Forall rereads m ->
  forall m', (loadAssembliesInto directories m w).2 = Ok m' -> Forall rereads m'.
Proof.
  induction directories as [|d ds IH]; intros m w Hm m' Hr; cbn in Hr.
  - injection Hr as <-. exact Hm.
  - unfold bind in Hr.
    destruct (readJson _ w) as [w1 [copy|e]]; [|discriminate].
    destruct (callAddAssembly copy d w1) as [w2 [[]|e]]; [|discriminate].
    eapply IH; [|exact Hr]. apply mapSet_rereads, Hm.
Qed.

Lemma preserves_loadAssembliesInto directories : forall m,
  preserves (evolves isLoadEvent) (loadAssembliesInto directories m).
Proof.
  induction directories as [|d ds IH]; intros m; cbn [loadAssembliesInto].
  - apply preserves_ret; typeclasses eauto.
  - pres_bind; [apply preserves_readJson; intros; cbn; eauto|]. intros copy.
    pres_bind; [apply preserves_callAddAssembly; exact I|]. intros _. apply IH.
Qed.

Lemma preserves_prepare directories options :
  preserves (evolves isLoadEvent) (prepare directories options).
Proof.
  unfold prepare. pres_bind; [|intros; apply preserves_loadAssembliesInto].
  repeat pres_step. apply preserves_callLoadTabletFromFile. exact I.
Qed.

Lemma prepare_rereads directories options w m :
  (prepare directories options w).2 = Ok m -> Forall rereads m.
Proof.
  unfold prepare, bind. intros Hr.
  destruct (match tablet options with
            | Some path => if truthy path then callLoadTabletFromFile path else ret tt
            | None => ret tt
            end w) as [w1 [[]|e]]; [|discriminate].
  eapply loadAssembliesInto_rereads; [constructor | exact Hr].
Qed.

Lemma preserves_processing directories ls options :
  preserves (evolves (isProcessingEvent ls)) (processing directories ls options).
Proof.
  intros w. unfold processing, bind.
  pose proof (preserves_prepare directories options w) as Hp.
  pose proof (prepare_rereads directories options w) as Hre.
  destruct (prepare directories options w) as [w1 [m|e]]; cbn in *.
  - eapply evolves_trans.
    + eapply evolves_mono; [|exact Hp]. intros e He. left. exact He.
    + eapply evolves_mono; [|apply preserves_transliterateAll, Hre; reflexivity].
      intros e He. right. exact He.
  - eapply evolves_mono; [|exact Hp]. intros e' He. left. exact He.
Qed.

End Phases.

(** ** Exceptions *)

Section Exceptions.
Context `{RosettaEngine}.

Lemma raises_ret {A} E (a : A) : raises E (ret a).
Proof. intros w e Hr. discriminate. Qed.

Lemma raises_throw {A} (E : Error -> Prop) e : E e -> raises E (@throw _ A e).
Proof. intros HE w e' Hr. injection Hr as <-. exact HE. Qed.

Lemma raises_bind {A B} E (c : M A) (k : A -> M B) :
  raises E c -> (forall a, raises E (k a)) -> raises E (bind c k).
Proof.
  intros Hc Hk w e. unfold bind. specialize (Hc w).
  destruct (c w) as [w1 [a|e1]]; cbn in *.
  - apply Hk.
  - intros Hr. injection Hr as <-. apply Hc. reflexivity.
Qed.

Lemma raises_forM_ {A} E (body : A -> M unit) xs :
  (forall x, raises E (body x)) -> raises E (forM_ body xs).
Proof.
  intros Hbody. induction xs as [|x xs IH]; cbn [forM_].
  - apply raises_ret.
  - apply raises_bind; auto.
Qed.

Ltac raises_call :=
  let w := fresh "w" in
  let e := fresh "e" in
  let Hr := fresh "Hr" in
  intros w e;
  repeat match goal with
         | |- context [match ?x with _ => _ end] => destruct x
         end;
  cbn; intros Hr; try discriminate; injection Hr as <-; discriminate.

Lemma raises_emit ev : raises notStrict (emit ev).
Proof. intros w e Hr. discriminate. Qed.

Lemma raises_callFixturize s l : raises notStrict (callFixturize s l).
Proof. unfold callFixturize. raises_call. Qed.

Lemma raises_callTranslateSnippet s l : raises notStrict (callTranslateSnippet s l).
Proof. unfold callTranslateSnippet. raises_call. Qed.

Lemma raises_callTranslateSnippetsInMarkdown md l st f d :
  raises notStrict (callTranslateSnippetsInMarkdown md l st f d).
Proof. unfold callTranslateSnippetsInMarkdown. raises_call. Qed.

Lemma raises_callLoadTabletFromFile path : raises notStrict (callLoadTabletFromFile path).
Proof. unfold callLoadTabletFromFile. raises_call. Qed.

Lemma raises_callAddAssembly copy d : raises notStrict (callAddAssembly copy d).
Proof. unfold callAddAssembly. raises_call. Qed.

Lemma raises_readJson path : raises notStrict (readJson path).
Proof. unfold readJson. raises_call. Qed.

Lemma raises_writeJson path copy : raises notStrict (writeJson path copy).
Proof. unfold writeJson. raises_call. Qed.

Lemma raises_deref copy : raises notStrict (deref copy).
Proof. unfold deref. raises_call. Qed.

Lemma raises_modify copy f : raises notStrict (modify copy f).
Proof. unfold modify. raises_call. Qed.

Lemma raises_walk l d loose_ t : raises notStrict (transliterateType l d loose_ t).
Proof.
  intros w e Hr.
  assert (Hcases : forall nodes (Q : Result Type_ -> Prop),
             walkSpec (transliterateType l d loose_ t) nodes Q ->
             (Q (Throw e) -> notStrict e) -> notStrict e).
  { intros nodes Q Hs HQ. destruct (Hs w) as (_ & _ & ev & _ & _ & [[_ Hq] | (m & Hm & _)]).
    - apply HQ. rewrite <- Hr. exact Hq.
    - rewrite Hr in Hm. injection Hm as ->. discriminate. }
  destruct (kind t) as [| | |tag] eqn:Hk.
  - eapply Hcases; [apply walkSpec_class, Hk|]. intros (a & Ha & _). discriminate.
  - eapply Hcases; [apply walkSpec_interface, Hk|]. intros (a & Ha & _). discriminate.
  - destruct (members t) as [ms|] eqn:Hms.
    + eapply Hcases; [apply (walkSpec_enum _ _ _ t ms Hk Hms)|].
      intros (a & Ha & _). discriminate.
    + eapply Hcases; [apply (walkSpec_enum_absent _ _ _ t Hk Hms)|].
      intros Ha. injection Ha as <-. discriminate.
  - eapply Hcases; [apply (walkSpec_other _ _ _ t tag Hk)|].
    intros Ha. injection Ha as <-. discriminate.
Qed.

Ltac raises_step :=
  first
    [ apply raises_ret
    | apply raises_emit
    | apply raises_deref
    | apply raises_modify
    | apply raises_readJson
    | apply raises_writeJson
    | apply raises_callAddAssembly
    | apply raises_callLoadTabletFromFile
    | apply raises_callTranslateSnippetsInMarkdown
    | apply raises_walk
    | apply raises_bind; [|intros ?]
    | apply raises_forM_; intros ?
    | match goal with
      | |- raises _ (match ?x with _ => _ end) => destruct x
      | |- raises _ (let '(_, _) := ?x in _) => destruct x
      end ].

Lemma raises_transliteratePair options location loader l :
  raises notStrict loader ->
  raises notStrict (transliteratePair options location loader l).
Proof.
  intros Hl. unfold transliteratePair, transliterateCopy.
  apply raises_bind; [|intros; repeat raises_step].
  apply raises_bind; [exact Hl|]. intros result. repeat raises_step.
Qed.

Lemma raises_loadAssembliesInto directories : forall m,
  raises notStrict (loadAssembliesInto directories m).
Proof.
  induction directories as [|d ds IH]; intros m; cbn [loadAssembliesInto];
    repeat raises_step. apply IH.
Qed.

Lemma raises_prepare directories options :
  raises notStrict (prepare directories options).
Proof.
  unfold prepare, loadAssemblies. apply raises_bind; [repeat raises_step|]. intros _.
  apply raises_loadAssembliesInto.
Qed.

Lemma raises_transliterateAll options ls assemblies :
  Forall rereads assemblies ->
  raises notStrict (transliterateAll options ls assemblies).
Proof.
  intros Hall. unfold transliterateAll.
  induction Hall as [|[location loader] m (path & Hp) _ IH]; cbn [forM_].
  - apply raises_ret.
  - apply raises_bind; [|intros; exact IH].
    apply raises_forM_. intros l. apply raises_transliteratePair.
    cbn in Hp. subst loader. apply raises_readJson.
Qed.

(** No exception raised before the diagnostics are printed is the one of the
    strict mode. *)
Lemma raises_processing directories ls options :
  raises notStrict (processing directories ls options).
Proof.
  intros w e. unfold processing, bind.
  pose proof (prepare_rereads directories options w) as Hre.
  pose proof (raises_prepare directories options w) as Hprep.
  destruct (prepare directories options w) as [w1 [m|e1]]; cbn in *.
  - apply raises_transliterateAll, Hre. reflexivity.
  - intros Hr. injection Hr as <-. apply Hprep. reflexivity.
Qed.

End Exceptions.

(** ** What a run writes *)

Lemma written_app e1 e2 : written (e1 ++ e2) = (written e1 ++ written e2)%list.
Proof. apply omap_app. Qed.

Lemma registrations_app e1 e2 :
  registrations (e1 ++ e2) = (registrations e1 ++ registrations e2)%list.
Proof. apply omap_app. Qed.

Lemma written_copy_events `{RosettaEngine} events : Forall isCopyEvent events -> written events = [].
Proof.
  induction 1 as [|e events He _ IH]; [reflexivity|].
  destruct e; cbn in *; try contradiction; exact IH.
Qed.

Lemma written_load_events `{RosettaEngine} events : Forall isLoadEvent events -> written events = [].
Proof.
  induction 1 as [|e events He _ IH]; [reflexivity|].
  destruct e; cbn in *; try contradiction; exact IH.
Qed.

Lemma replay_not_written events : forall files p,
  p ∉ written events -> replay events files !! p = files !! p.
Proof.
  induction events as [|e events IH]; intros files p Hp; [reflexivity|].
  destruct e; cbn in *; try (apply IH; exact Hp).
  rewrite IH by (intros Hin; apply Hp; right; exact Hin).
  apply lookup_insert_ne. intros ->. apply Hp. left.
Qed.

Lemma replay_written events : forall files p,
  p ∈ written events -> exists a, replay events files !! p = Some (JsonFile a).
Proof.
  induction events as [|e events IH]; intros files p Hp; [inversion Hp|].
  destruct e; cbn in *; try (apply IH; exact Hp).
  destruct (decide (p ∈ written events)) as [Hin|Hout]; [apply IH, Hin|].
  rewrite replay_not_written by exact Hout.
  apply elem_of_cons in Hp as [-> | Hin]; [|contradiction].
  eexists. apply lookup_insert_eq.
Qed.

Section Writes.
Context `{RosettaEngine}.

Lemma writes_ret {A} (a : A) : writesOnReturn (ret a) [].
Proof.
  intros w a' w' Hr. injection Hr as <- <-. exists []. rewrite app_nil_r. auto.
Qed.

Lemma writes_bind {A B} (c : M A) (k : A -> M B) p1 p2 :
  writesOnReturn c p1 -> (forall a, writesOnReturn (k a) p2) ->
  writesOnReturn (bind c k) (p1 ++ p2)%list.
Proof.
  intros Hc Hk w b w'. unfold bind. specialize (Hc w).
  destruct (c w) as [w1 [a|e]]; [|discriminate]. intros Hr.
  destruct (Hc a w1 eq_refl) as (e1 & Ht1 & Hw1).
  destruct (Hk a w1 b w' Hr) as (e2 & Ht2 & Hw2).
  exists (e1 ++ e2)%list. rewrite Ht2, Ht1, app_assoc, written_app, Hw1, Hw2. auto.
Qed.

Lemma writes_forM_ {A} (body : A -> M unit) (paths : A -> list string) xs :
  (forall x, x ∈ xs -> writesOnReturn (body x) (paths x)) ->
  writesOnReturn (forM_ body xs) (flat_map paths xs).
Proof.
  induction xs as [|x xs IH]; intros Hbody; cbn [forM_ flat_map].
  - apply writes_ret.
  - apply writes_bind; [apply Hbody; left|].
    intros _. apply IH. intros y Hy. apply Hbody. right. exact Hy.
Qed.

Lemma writes_nothing {A} P (c : M A) :
  (forall events, Forall P events -> written events = []) ->
  preserves (evolves P) c -> writesOnReturn c [].
Proof.
  intros HP Hc w a w' Hr. destruct (Hc w) as (ev & Ht & Hev & _).
  rewrite Hr in Ht. exists ev. auto.
Qed.

Lemma writes_writeJson path copy : writesOnReturn (writeJson path copy) [path].
Proof.
  intros w a w'. unfold writeJson. destruct (heap w !! copy) as [doc|]; [|discriminate].
  intros Hr. injection Hr as <- <-. exists [EvWriteJson path doc]. auto.
Qed.

Lemma writes_transliteratePair options location path l :
  writesOnReturn
    (transliteratePair options location (readJson (resolve path SPEC_FILE_NAME)) l)
    [outputPath location l].
Proof.
  unfold transliteratePair.
  change [outputPath location l] with ([] ++ [outputPath location l] ++ [] ++ [])%list.
  apply writes_bind.
  { eapply writes_nothing; [apply written_copy_events | apply preserves_transliterateCopy]. }
  intros result. apply writes_bind; [apply writes_writeJson|]. intros _.
  apply writes_bind.
  - eapply (writes_nothing isCopyEvent); [apply written_copy_events | apply preserves_deref].
  - intros a. intros w u w' Hr. injection Hr as <- <-. eexists [_]. auto.
Qed.

Lemma writes_transliterateAll options ls assemblies :
  Forall rereads assemblies ->
  writesOnReturn (transliterateAll options ls assemblies) (outputs ls assemblies).
Proof.
  intros Hall. unfold transliterateAll, outputs.
  apply writes_forM_. intros [location loader] Hin.
  rewrite Forall_forall in Hall. destruct (Hall _ Hin) as (path & Hp). cbn in Hp. subst loader.
  cbn [fst]. rewrite <- flat_map_singleton.
  apply writes_forM_. intros l _. apply writes_transliteratePair.
Qed.

Lemma mapSet_keys {V} (m : list (string * V)) d v k :
  k ∈ map fst (mapSet m d v) <-> k = d \/ k ∈ map fst m.
Proof.
  induction m as [|[k' v'] m IH]; cbn.
  - rewrite list_elem_of_singleton. split; [auto|]. intros [->|Hin]; [reflexivity|inversion Hin].
  - destruct (String.eqb k' d) eqn:Heq; cbn.
    + apply String.eqb_eq in Heq. subst k'.
      rewrite elem_of_cons. tauto.
    + rewrite !elem_of_cons, IH. tauto.
Qed.

Lemma loadAssembliesInto_keys directories : forall m w m',
  (loadAssembliesInto directories m w).2 = Ok m' ->
  forall d, d ∈ directories \/ d ∈ map fst m -> d ∈ map fst m'.
Proof.
  induction directories as [|d0 ds IH]; intros m w m' Hr d Hd; cbn in Hr.
  - injection Hr as <-. destruct Hd as [Hd|Hd]; [inversion Hd | exact Hd].
  - unfold bind in Hr.
    destruct (readJson _ w) as [w1 [copy|e]]; [|discriminate].
    destruct (callAddAssembly copy d0 w1) as [w2 [[]|e]]; [|discriminate].
    eapply IH; [exact Hr|]. rewrite mapSet_keys.
    destruct Hd as [Hd|Hd]; [|auto].
    apply elem_of_cons in Hd as [->|Hd]; auto.
Qed.

Lemma prepare_keys directories options w m :
  (prepare directories options w).2 = Ok m ->
  forall d, d ∈ directories -> d ∈ map fst m.
Proof.
  unfold prepare, bind. intros Hr d Hd.
  destruct (match tablet options with
            | Some path => if truthy path then callLoadTabletFromFile path else ret tt
            | None => ret tt
            end w) as [w1 [[]|e]]; [|discriminate].
  eapply loadAssembliesInto_keys; [exact Hr | auto].
Qed.

Lemma outputs_all ls (m : list (string * AssemblyLoader)) d l :
  d ∈ map fst m -> l ∈ ls -> outputPath d l ∈ outputs ls m.
Proof.
  intros Hd Hl. unfold outputs.
  apply list_elem_of_In, in_map_iff in Hd as ([d' ld] & <- & Hin).
  apply list_elem_of_In, in_flat_map. exists (d', ld).
  split; [exact Hin|]. apply in_map, list_elem_of_In, Hl.
Qed.

(** When the processing returns, every pair has had its file written. *)
Lemma processing_writes_all directories ls options w w' u :
  processing directories ls options w = (w', Ok u) ->
  exists events,
    trace w' = (trace w ++ events)%list /\
    forall d l, d ∈ directories -> l ∈ ls -> outputPath d l ∈ written events.
Proof.
  unfold processing, bind. intros Hr.
  pose proof (prepare_rereads directories options w) as Hre.
  pose proof (prepare_keys directories options w) as Hkeys.
  pose proof (preserves_prepare directories options w) as (e1 & Ht1 & Hload & _).
  destruct (prepare directories options w) as [w1 [m|e]]; [|discriminate]. cbn in *.
  destruct (writes_transliterateAll options ls m (Hre m eq_refl) w1 u w' Hr)
    as (e2 & Ht2 & Hw2).
  exists (e1 ++ e2)%list. split; [rewrite Ht2, Ht1, app_assoc; reflexivity|].
  intros d l Hd Hl. rewrite written_app, Hw2, (written_load_events e1 Hload). cbn.
  apply outputs_all; auto.
Qed.

End Writes.

(** ** Diagnostics and the strict mode *)

Section Diagnostics.
Context `{RosettaEngine}.

(** C8. While the (directory, language) pairs are processed nothing is
    printed, and the run ends in the strict-mode exception exactly when the
    processing has returned, [hasErrors] holds and [strict] is set. When the
    processing ends in an exception the run ends in the same one, in the same
    world, and that exception is not the strict-mode one. When it returns,
    every pair has had its file written and the file is on disk at the end;
    the diagnostics are then printed, once, as the last call of the run, and
    the files stay as the processing left them. *)
Theorem strict_failure_only_after_all_pairs
    (directories ls : list string) (options : TransliterateAssemblyOptions)
    (files : gmap string File) :
  let processed := processing directories ls options (initialWorld ls options files) in
  let out := transliterateAssembly directories ls options files in
  (forall text, EvPrintDiagnostics text ∉ trace processed.1) /\
  (out.2 = Throw strictModeError <->
   (exists u, processed.2 = Ok u) /\
   hasErrors (rosetta processed.1) = true /\ strict options = Some true) /\
  match processed.2 with
  | Throw e => out = (processed.1, Throw e) /\ e <> strictModeError
  | Ok _ =>
      (forall d l, d ∈ directories -> l ∈ ls ->
         outputPath d l ∈ written (trace processed.1) /\
         exists a, disk out.1 !! outputPath d l = Some (JsonFile a)) /\
      trace out.1
        = (trace processed.1
             ++ [EvPrintDiagnostics (printDiagnostics (rosetta processed.1))])%list /\
      disk out.1 = disk processed.1 /\
      out.2 = (if hasErrors (rosetta processed.1) && default false (strict options)
               then Throw strictModeError else Ok tt)
  end.
Proof.
  intros processed out.
  pose proof (preserves_processing directories ls options (initialWorld ls options files))
    as (ev & Ht & Hev & Hd & _).
  pose proof (raises_processing directories ls options (initialWorld ls options files))
    as Hraise.
  pose proof (processing_writes_all directories ls options (initialWorld ls options files))
    as Hall.
  fold processed in Ht, Hd, Hraise. cbn in Ht.
  assert (Hout : out = match processed.2 with
                       | Ok _ => reportDiagnostics options processed.1
                       | Throw e => (processed.1, Throw e)
                       end).
  { subst out processed. unfold transliterateAssembly, bind.
    destruct (processing directories ls options (initialWorld ls options files))
      as [w1 [u|e]]; reflexivity. }
  assert (Hreport : forall w1,
             reportDiagnostics options w1
             = (mkWorld _ (disk w1) (heap w1) (rosetta w1)
                  (trace w1 ++ [EvPrintDiagnostics (printDiagnostics (rosetta w1))]),
                if hasErrors (rosetta w1) && default false (strict options)
                then Throw strictModeError else Ok tt)).
  { intros w1. unfold reportDiagnostics, bind, callPrintDiagnostics, emit, getHasErrors.
    cbn. destruct (hasErrors (rosetta w1) && default false (strict options)); reflexivity. }
  rewrite Hout. clear Hout.
  split.
  { intros text Hin. rewrite Ht in Hin. rewrite Forall_forall in Hev.
    destruct (Hev _ Hin) as [He|He]; exact He. }
  destruct processed as [w1 [u|e]] eqn:Hp; cbn [fst snd] in *.
  - rewrite Hreport. cbn [fst snd disk trace]. split.
    { destruct (hasErrors (rosetta w1)), (strict options) as [[|]|]; cbn; split;
        try discriminate; try (intros (_ & Hh & Hs); discriminate); eauto. }
    destruct (Hall w1 u Hp) as (ev' & Ht' & Hw). cbn in Ht'.
    assert (ev' = ev) as -> by congruence.
    split; [|auto].
    intros d l Hdir Hl. rewrite Ht. split; [apply Hw; auto|].
    rewrite Hd. apply replay_written, Hw; auto.
  - split.
    { split; [|intros ((u & Hu) & _); discriminate].
      intros Hr. injection Hr as ->. destruct (Hraise strictModeError eq_refl). reflexivity. }
    split; [reflexivity|]. apply Hraise. reflexivity.
Qed.

End Diagnostics.

(** ** Registration of the assemblies *)

Lemma registrations_none events :
  Forall notRegistration events -> registrations events = [].
Proof.
  induction 1 as [|e events He _ IH]; [reflexivity|].
  destruct e; cbn in *; try contradiction; exact IH.
Qed.

Section Registration.
Context `{RosettaEngine}.

Lemma readJson_ok path a w :
  disk w !! path = Some (JsonFile a) ->
  readJson path w
  = (mkWorld _ (disk w) (heap w ++ [a]) (rosetta w)
       (trace w ++ [EvReadJson path (length (heap w)) a]),
     Ok (length (heap w))).
Proof. intros Hf. unfold readJson. rewrite Hf. reflexivity. Qed.

Lemma loadAssembliesInto_step d ds m w a r :
  disk w !! resolve d SPEC_FILE_NAME = Some (JsonFile a) ->
  addAssembly a d (rosetta w) = Returned r ->
  loadAssembliesInto (d :: ds) m w
  = loadAssembliesInto ds (mapSet m d (readJson (resolve d SPEC_FILE_NAME)))
      (mkWorld _ (disk w) (heap w ++ [a]) r
         (trace w ++ [EvReadJson (resolve d SPEC_FILE_NAME) (length (heap w)) a;
                      EvAddAssembly d (length (heap w))])).
Proof.
  intros Hfile Hadd. cbn [loadAssembliesInto]. unfold bind.
  rewrite (readJson_ok _ a w Hfile). unfold callAddAssembly. cbn.
  rewrite list_lookup_middle by reflexivity. rewrite Hadd, <- app_assoc. reflexivity.
Qed.

Lemma loadAssembliesInto_stop d ds m w :
  (forall a, disk w !! resolve d SPEC_FILE_NAME <> Some (JsonFile a)) ->
  exists e, loadAssembliesInto (d :: ds) m w = (w, Throw e).
Proof.
  intros Hfile. cbn [loadAssembliesInto]. unfold bind, readJson.
  destruct (disk w !! resolve d SPEC_FILE_NAME) as [[a|]|]; eauto.
  destruct (Hfile a). reflexivity.
Qed.

(** The engine throws on the assembly of the directory. *)
Lemma loadAssembliesInto_refused d ds m w a message :
  disk w !! resolve d SPEC_FILE_NAME = Some (JsonFile a) ->
  addAssembly a d (rosetta w) = Failed message ->
  loadAssembliesInto (d :: ds) m w
  = (mkWorld _ (disk w) (heap w ++ [a]) (rosetta w)
       (trace w ++ [EvReadJson (resolve d SPEC_FILE_NAME) (length (heap w)) a]),
     Throw (CollaboratorError message)).
Proof.
  intros Hfile Hadd. cbn [loadAssembliesInto]. unfold bind.
  rewrite (readJson_ok _ a w Hfile). unfold callAddAssembly. cbn.
  rewrite list_lookup_middle by reflexivity. rewrite Hadd. reflexivity.
Qed.

(** The loop of [loadAssemblies] registers the directories in the order of
    the list, one call per entry; it completes exactly when every entry can
    be read and is registered by the engine. *)
Lemma loadAssembliesInto_registrations directories : forall m w,
  exists events,
    trace (loadAssembliesInto directories m w).1 = (trace w ++ events)%list /\
    match (loadAssembliesInto directories m w).2 with
    | Ok _ => registrations events = directories
    | Throw _ => registrations events `prefix_of` directories
    end /\
    (registers (disk w) directories (rosetta w) = true <->
     exists m', (loadAssembliesInto directories m w).2 = Ok m').
Proof.
  induction directories as [|d ds IH]; intros m w.
  - exists []. cbn. rewrite app_nil_r. split; [reflexivity|]. split; [reflexivity|].
    split; eauto.
  - cbn [registers].
    destruct (disk w !! resolve d SPEC_FILE_NAME) as [[a|]|] eqn:Hfile.
    + destruct (addAssembly a d (rosetta w)) as [r|message] eqn:Hadd.
      * rewrite (loadAssembliesInto_step d ds m w a r Hfile Hadd).
        match goal with |- context [loadAssembliesInto ds ?m' ?w'] =>
          destruct (IH m' w') as (ev & Ht & Hreg & Htotal);
          destruct (loadAssembliesInto ds m' w') as [w2 res] end.
        cbn [fst snd trace disk rosetta] in *.
        eexists (EvReadJson _ _ a :: EvAddAssembly d _ :: ev).
        split; [rewrite Ht, <- !app_assoc; reflexivity|]. split; [|exact Htotal].
        change (registrations (_ :: _ :: ev)) with (d :: registrations ev).
        destruct res; [rewrite Hreg; reflexivity | apply prefix_cons, Hreg].
      * rewrite (loadAssembliesInto_refused d ds m w a message Hfile Hadd).
        eexists [_]. cbn [fst snd trace]. split; [reflexivity|].
        split; [apply prefix_nil|]. split; [discriminate|].
        intros (m' & Hm'). discriminate.
    + destruct (loadAssembliesInto_stop d ds m w) as (e & ->); [congruence|].
      exists []. cbn. rewrite app_nil_r.
      split; [reflexivity|]. split; [apply prefix_nil|].
      split; [discriminate|]. intros (m' & Hm'). discriminate.
    + destruct (loadAssembliesInto_stop d ds m w) as (e & ->); [congruence|].
      exists []. cbn. rewrite app_nil_r.
      split; [reflexivity|]. split; [apply prefix_nil|].
      split; [discriminate|]. intros (m' & Hm'). discriminate.
Qed.

(** The first statement of a run: the tablet loads, or the run is over. *)
Lemma tablet_step ls options files :
  match rosettaAfterTablet ls options with
  | Returned r =>
      loadTablet options (initialWorld ls options files)
      = (mkWorld _ files [] r (map EvLoadTablet (tabletPaths options)), Ok tt)
  | Failed message =>
      loadTablet options (initialWorld ls options files)
      = (initialWorld ls options files, Throw (CollaboratorError message))
  end.
Proof.
  unfold rosettaAfterTablet, tabletPaths, loadTablet.
  destruct (tablet options) as [path|]; [destruct (truthy path)|]; try reflexivity.
  unfold callLoadTabletFromFile. cbn [rosetta initialWorld].
  destruct (loadTabletFromFile path _) as [r|message]; reflexivity.
Qed.

Lemma prepare_after_tablet directories options w :
  prepare directories options w
  = match loadTablet options w with
    | (w1, Ok _) => loadAssembliesInto directories [] w1
    | (w1, Throw e) => (w1, Throw e)
    end.
Proof.
  unfold prepare, loadTablet, loadAssemblies, bind.
  destruct (match tablet options with
            | Some path => if truthy path then callLoadTabletFromFile path else ret tt
            | None => ret tt
            end w) as [w1 [[]|e]]; reflexivity.
Qed.

Lemma tablet_registrations paths : registrations (map EvLoadTablet paths) = [].
Proof. induction paths as [|p paths IH]; [reflexivity | exact IH]. Qed.

(** The loading of a run registers the directories in the order of the
    list; it completes exactly when the tablet loads and every directory can
    be read and is registered by the engine. *)
Lemma prepare_registrations directories ls options files :
  exists events,
    trace (prepare directories options (initialWorld ls options files)).1 = events /\
    match (prepare directories options (initialWorld ls options files)).2 with
    | Ok _ => registrations events = directories
    | Throw _ => registrations events `prefix_of` directories
    end /\
    (loadingSucceeds files directories ls options = true <->
     exists m, (prepare directories options (initialWorld ls options files)).2 = Ok m).
Proof.
  rewrite prepare_after_tablet. unfold loadingSucceeds.
  pose proof (tablet_step ls options files) as Hstep.
  destruct (rosettaAfterTablet ls options) as [r|message]; rewrite Hstep.
  - match goal with |- context [loadAssembliesInto _ _ ?w1] =>
      destruct (loadAssembliesInto_registrations directories [] w1)
        as (ev & Ht & Hreg & Htot) end.
    cbn [disk rosetta trace] in *.
    eexists. split; [reflexivity|]. rewrite Ht, registrations_app, tablet_registrations.
    split; [exact Hreg | exact Htot].
  - eexists. split; [reflexivity|]. cbn. split; [apply prefix_nil|].
    split; [discriminate|]. intros (m & Hm). discriminate.
Qed.

Lemma isPair_notRegistration ls e : isPairEvent ls e -> notRegistration e.
Proof. destruct e; cbn; tauto. Qed.

Lemma preserves_reportDiagnostics P options :
  (forall text, P (EvPrintDiagnostics text)) ->
  preserves (evolves P) (reportDiagnostics options).
Proof.
  intros HP. unfold reportDiagnostics.
  pres_bind; [apply preserves_callPrintDiagnostics, HP|]. intros _.
  repeat pres_step.
Qed.

(** C7 (as amended). The calls of [addAssembly] are all made while the
    directories are loaded, before any iteration over a (directory,
    language) pair: what follows the loading registers nothing, however many
    languages there are. When the loading completes, the registered
    directories are the entries of the list of directories, in order, one
    call per entry: a directory listed once is registered once, a directory
    listed twice is registered twice. The loading completes exactly when
    the tablet, if one is asked for, loads, and every listed directory has
    an assembly that can be read and on which [addAssembly] does not throw;
    when it does not complete, the directories registered are an initial
    part of the list and the run ends in the exception of the loading. *)
Theorem registration_once_per_listed_directory
    (directories ls : list string) (options : TransliterateAssemblyOptions)
    (files : gmap string File) :
  let loaded := prepare directories options (initialWorld ls options files) in
  let out := transliterateAssembly directories ls options files in
  (exists rest, trace out.1 = (trace loaded.1 ++ rest)%list /\ registrations rest = []) /\
  Forall isLoadEvent (trace loaded.1) /\
  match loaded.2 with
  | Ok _ => registrations (trace loaded.1) = directories
  | Throw e => registrations (trace loaded.1) `prefix_of` directories /\
               out = (loaded.1, Throw e)
  end /\
  (loadingSucceeds files directories ls options = true <-> exists m, loaded.2 = Ok m).
Proof.
  intros loaded out.
  pose proof (prepare_registrations directories ls options files)
    as (ev & Ht & Hreg & Htot).
  pose proof (preserves_prepare directories options (initialWorld ls options files))
    as (ev' & Ht' & Hload & _).
  pose proof (prepare_rereads directories options (initialWorld ls options files)) as Hre.
  assert (Hout : out = match loaded.2 with
                       | Ok m => (transliterateAll options ls m ;; reportDiagnostics options)
                                   loaded.1
                       | Throw e => (loaded.1, Throw e)
                       end).
  { subst out loaded. unfold transliterateAssembly, processing, bind.
    destruct (prepare directories options (initialWorld ls options files)) as [w1 [m|e]];
      reflexivity. }
  fold loaded in Ht, Hreg, Htot, Ht', Hre. cbn in Ht, Ht'.
  assert (ev' = ev) as -> by congruence.
  rewrite Hout. clear Hout.
  destruct loaded as [w1 [m|e]] eqn:Hl; cbn [fst snd] in *.
  - split; [|split; [rewrite Ht; exact Hload|split; [rewrite Ht; exact Hreg | exact Htot]]].
    assert (Hrest : preserves (evolves notRegistration)
                      (transliterateAll options ls m ;; reportDiagnostics options)).
    { pres_bind.
      - eapply preserves_mono; [apply isPair_notRegistration|].
        apply preserves_transliterateAll, Hre. reflexivity.
      - intros _. apply preserves_reportDiagnostics. intros; exact I. }
    destruct (Hrest w1) as (rest & Hrt & Hnr & _).
    exists rest. split; [exact Hrt | apply registrations_none, Hnr].
  - split; [exists []; rewrite app_nil_r; auto|].
    split; [rewrite Ht; exact Hload|]. split; [|exact Htot].
    split; [rewrite Ht; exact Hreg | reflexivity].
Qed.

End Registration.

(** ** Paths *)

Lemma append_cons c (a b : string) : String c a ++ b = String c (a ++ b).
Proof. reflexivity. Qed.

Lemma append_empty (b : string) : "" ++ b = b.
Proof. reflexivity. Qed.

Lemma append_assoc (a b c : string) : (a ++ b) ++ c = a ++ b ++ c.
Proof.
  induction a as [|x a IH]; [rewrite !append_empty; reflexivity|].
  rewrite !append_cons, IH. reflexivity.
Qed.

Lemma hasSlash_app a b : hasSlash (a ++ b) = hasSlash a || hasSlash b.
Proof.
  induction a as [|c a IH]; [reflexivity|].
  rewrite append_cons. cbn [hasSlash]. rewrite IH, orb_assoc. reflexivity.
Qed.

Lemma basename_append p file :
  hasSlash file = false -> basename (p ++ "/" ++ file) = file.
Proof.
  intros Hf. induction p as [|c p IH].
  - rewrite append_empty, append_cons, append_empty. cbn [basename].
    rewrite Hf. reflexivity.
  - rewrite append_cons. cbn [basename].
    rewrite hasSlash_app, append_cons. cbn [hasSlash].
    rewrite Ascii.eqb_refl, orb_true_r. exact IH.
Qed.

Lemma segments_simple file : hasSlash file = false -> segments file = [file].
Proof.
  induction file as [|c file IH]; [reflexivity|]. cbn [hasSlash segments].
  intros Hf. apply orb_false_iff in Hf as [Hc Hrest].
  rewrite Hc, (IH Hrest). reflexivity.
Qed.

Lemma isAbsolute_simple file : hasSlash file = false -> isAbsolute file = false.
Proof.
  destruct file as [|c file]; [reflexivity|]. cbn [hasSlash isAbsolute].
  intros Hf. apply orb_false_iff in Hf as [Hc _]. exact Hc.
Qed.

Lemma simpleName_parts file :
  simpleName file = true ->
  hasSlash file = false /\ String.eqb file "" = false /\
  String.eqb file "." = false /\ String.eqb file ".." = false.
Proof.
  unfold simpleName. rewrite !andb_true_iff, !negb_true_iff. tauto.
Qed.

Lemma normalize_snoc segs file :
  simpleName file = true -> normalize (segs ++ [file]) = (normalize segs ++ [file])%list.
Proof.
  intros Hs. apply simpleName_parts in Hs as (_ & He & Hd & Hdd).
  unfold normalize. rewrite fold_left_app. cbn [fold_left]. unfold normalizeStep at 1.
  rewrite He, Hd, Hdd. reflexivity.
Qed.

Lemma join_snoc sep xs x :
  xs <> [] -> join sep (xs ++ [x]) = join sep xs ++ sep ++ x.
Proof.
  induction xs as [|y xs IH]; [congruence|]. intros _.
  destruct xs as [|z xs]; [reflexivity|].
  change (join sep ((y :: z :: xs) ++ [x])) with (y ++ sep ++ join sep ((z :: xs) ++ [x])).
  rewrite IH by discriminate.
  change (join sep (y :: z :: xs)) with (y ++ sep ++ join sep (z :: xs)).
  rewrite !append_assoc. reflexivity.
Qed.

Section Paths.
Context `{RosettaEngine}.

(** A file name resolves to the resolved directory, a slash and the
    name. *)
Lemma resolve_simple d file :
  simpleName file = true -> resolve d file = directoryPrefix d ++ "/" ++ file.
Proof.
  intros Hs. pose proof (simpleName_parts file Hs) as (Hslash & _).
  unfold resolve, directoryPrefix.
  rewrite (isAbsolute_simple file Hslash).
  assert (Hsnoc : forall parts,
             "/" ++ join "/" (normalize (flat_map segments (parts ++ [file])))
             = match normalize (flat_map segments parts) with
               | [] => ""
               | segs => "/" ++ join "/" segs
               end ++ "/" ++ file).
  { intros parts. rewrite flat_map_app. cbn [flat_map]. rewrite app_nil_r.
    rewrite (segments_simple file Hslash), normalize_snoc by exact Hs.
    destruct (normalize (flat_map segments parts)) as [|seg segs] eqn:Hn.
    - reflexivity.
    - rewrite join_snoc by discriminate. rewrite !append_assoc. reflexivity. }
  destruct (isAbsolute d).
  - apply (Hsnoc [d]).
  - apply (Hsnoc [cwd; d]).
Qed.

Lemma simpleName_spec : simpleName SPEC_FILE_NAME = true.
Proof. reflexivity. Qed.

Lemma simpleName_output l :
  singleSegment l = true -> simpleName (SPEC_FILE_NAME ++ "." ++ l) = true.
Proof.
  unfold singleSegment, simpleName, SPEC_FILE_NAME. intros Hl.
  apply negb_true_iff in Hl. rewrite !hasSlash_app, Hl.
  rewrite !append_cons, append_empty. reflexivity.
Qed.

(** The path of an assembly, and the path of an output for a language that
    is one segment. *)
Lemma assemblyPath_prefix d :
  resolve d SPEC_FILE_NAME = directoryPrefix d ++ "/" ++ SPEC_FILE_NAME.
Proof. apply resolve_simple, simpleName_spec. Qed.

Lemma outputPath_prefix d l :
  singleSegment l = true ->
  outputPath d l = directoryPrefix d ++ "/" ++ SPEC_FILE_NAME ++ "." ++ l.
Proof. intros Hl. apply resolve_simple, simpleName_output, Hl. Qed.

Lemma outputPath_not_original d l d' :
  singleSegment l = true -> outputPath d l <> resolve d' SPEC_FILE_NAME.
Proof.
  intros Hl Heq. rewrite (outputPath_prefix d l Hl), assemblyPath_prefix in Heq.
  unfold singleSegment in Hl. apply negb_true_iff in Hl.
  apply (f_equal basename) in Heq.
  rewrite !basename_append in Heq.
  - discriminate.
  - reflexivity.
  - unfold SPEC_FILE_NAME. rewrite !hasSlash_app, Hl. reflexivity.
Qed.

(** The writes of a run go to output files, so they leave the assembly of
    every directory as it is, and what a run reads it reads from there. *)
Lemma run_keeps_originals ls :
  forallb singleSegment ls = true ->
  forall events, Forall (isRunEvent ls) events ->
  forall files,
    (forall d, replay events files !! resolve d SPEC_FILE_NAME
               = files !! resolve d SPEC_FILE_NAME) /\
    (readsFrom files events ->
     forall path copy a, EvReadJson path copy a ∈ events ->
                         files !! path = Some (JsonFile a)).
Proof.
  intros Hls. induction 1 as [|e events He Hev IH]; intros files.
  - split; [reflexivity|]. intros _ path copy a Hin. inversion Hin.
  - assert (Hother :
               replay (e :: events) files = replay events files ->
               (readsFrom files (e :: events) -> readsFrom files events) ->
               (forall path copy a, e <> EvReadJson path copy a) ->
               (forall d, replay (e :: events) files !! resolve d SPEC_FILE_NAME
                          = files !! resolve d SPEC_FILE_NAME) /\
               (readsFrom files (e :: events) ->
                forall path copy a, EvReadJson path copy a ∈ e :: events ->
                                    files !! path = Some (JsonFile a))) by
      (intros Hre Hrd Hne; rewrite Hre; destruct (IH files) as [IH1 IH2];
       split; [exact IH1|]; intros Hr path copy a Hin;
       apply elem_of_cons in Hin as [Heq|Hin];
       [destruct (Hne path copy a); symmetry; exact Heq | eapply IH2; eauto]).
    destruct e as [p|p c doc|dir c|l dir|node|l tr|p doc|msg|text];
      try (apply Hother; [reflexivity | cbn; tauto | discriminate]).
    + (* a read *)
      destruct (IH files) as [IH1 IH2]. split; [exact IH1|].
      cbn. intros [Hfile Hr] path copy a Hin.
      apply elem_of_cons in Hin as [Heq|Hin]; [congruence | eapply IH2; eauto].
    + (* a write *)
      assert (Hout : exists d l, l ∈ ls /\ p = outputPath d l).
      { destruct He as [[He|He]|(text & He)]; [contradiction | exact He | discriminate]. }
      destruct Hout as (d & l & Hl & ->).
      assert (Hseg : singleSegment l = true).
      { rewrite forallb_forall in Hls. apply Hls, list_elem_of_In, Hl. }
      destruct (IH (<[outputPath d l := JsonFile doc]> files)) as [IH1 IH2].
      assert (Hkeep : forall d', <[outputPath d l := JsonFile doc]> files
                                   !! resolve d' SPEC_FILE_NAME
                                 = files !! resolve d' SPEC_FILE_NAME).
      { intros d'. apply lookup_insert_ne, outputPath_not_original, Hseg. }
      split.
      * intros d'. cbn. rewrite IH1. apply Hkeep.
      * cbn. intros Hr path copy a Hin.
        apply elem_of_cons in Hin as [Heq|Hin]; [discriminate|].
        assert (Hpath : exists d', path = resolve d' SPEC_FILE_NAME).
        { rewrite Forall_forall in Hev. specialize (Hev _ Hin).
          destruct Hev as [[He'|He']|(text & He')];
            [exact He' | exact He' | discriminate]. }
        destruct Hpath as (d' & ->). rewrite <- Hkeep. eapply IH2; eauto.
Qed.

End Paths.

(** ** The copies a loader returns *)

Section Copies.
Context `{RosettaEngine}.

#[export] Instance keepsBelow_preorder n : PreOrder (keepsBelow n).
Proof.
  split; [intros w copy _; reflexivity|].
  intros w1 w2 w3 H12 H23 copy Hc. rewrite (H23 copy Hc). apply H12, Hc.
Qed.

Lemma keeps_same_heap n (w w' : World) : heap w' = heap w -> keepsBelow n w w'.
Proof. intros Hh copy _. rewrite Hh. reflexivity. Qed.

Lemma keeps_deref n copy : preserves (keepsBelow n) (deref copy).
Proof.
  intros w. unfold deref. destruct (heap w !! copy); apply keeps_same_heap; reflexivity.
Qed.

Lemma keeps_modify n (copy : loc) f : n <= copy -> preserves (keepsBelow n) (modify copy f).
Proof.
  intros Hn w. unfold modify. destruct (heap w !! copy); [|reflexivity].
  intros c Hc. cbn. apply list_lookup_insert_ne. lia.
Qed.

Lemma keeps_writeJson n path copy : preserves (keepsBelow n) (writeJson path copy).
Proof.
  intros w. unfold writeJson. destruct (heap w !! copy); apply keeps_same_heap; reflexivity.
Qed.

Lemma keeps_emit n e : preserves (keepsBelow n) (emit e).
Proof. intros w. apply keeps_same_heap. reflexivity. Qed.

Lemma keeps_markdown n md l st f d :
  preserves (keepsBelow n) (callTranslateSnippetsInMarkdown md l st f d).
Proof.
  intros w. unfold callTranslateSnippetsInMarkdown.
  destruct (translateSnippetsInMarkdown md l st f d (rosetta w)) as [[md' r]|m];
    apply keeps_same_heap; reflexivity.
Qed.

Lemma keeps_walk n l d loose_ t : preserves (keepsBelow n) (transliterateType l d loose_ t).
Proof.
  intros w. destruct (walkSpec_any l d loose_ t) as (nodes & Q & Hs).
  apply keeps_same_heap. apply (Hs w).
Qed.

Ltac keeps_step :=
  first
    [ apply preserves_ret; typeclasses eauto
    | apply keeps_deref
    | apply keeps_writeJson
    | apply keeps_emit
    | apply keeps_markdown
    | apply keeps_walk
    | apply keeps_modify; lia
    | pres_bind; [|intros ?]
    | pres_loop; intros [? ?] _
    | match goal with
      | |- preserves _ (match ?x with _ => _ end) => destruct x
      end ].

Lemma bind_assoc {A B C} (c : M A) (k1 : A -> M B) (k2 : B -> M C) w :
  bind (bind c k1) k2 w = bind c (fun a => bind (k1 a) k2) w.
Proof. unfold bind. destruct (c w) as [w1 [a|e]]; reflexivity. Qed.

Lemma keeps_after_load {A} path (k : loc -> M A) w :
  (forall copy, length (heap w) <= copy ->
                preserves (keepsBelow (length (heap w))) (k copy)) ->
  keepsBelow (length (heap w)) w (bind (readJson path) k w).1.
Proof.
  intros Hk. unfold bind, readJson.
  destruct (disk w !! path) as [[a|]|]; try reflexivity.
  etransitivity; [|apply Hk; reflexivity].
  intros copy Hc. cbn. apply lookup_app_l, Hc.
Qed.

(** An iteration leaves every copy that exists when it starts as it is. *)
Lemma transliteratePair_keeps_copies options location path l w copy :
  copy < length (heap w) ->
  heap (transliteratePair options location (readJson path) l w).1 !! copy
  = heap w !! copy.
Proof.
  intros Hc. unfold transliteratePair, transliterateCopy.
  rewrite bind_assoc.
  apply (keeps_after_load path); [|exact Hc].
  intros result Hr. repeat keeps_step.
Qed.

End Copies.

Section Loader.
Context `{RosettaEngine}.

Lemma preserves_run directories ls options :
  preserves (evolves (isRunEvent ls))
    (processing directories ls options ;; reportDiagnostics options).
Proof.
  pres_bind.
  - eapply preserves_mono; [|apply preserves_processing]. intros e He. left. exact He.
  - intros _. apply preserves_reportDiagnostics. intros text. right. eauto.
Qed.

(** Two calls of a loader, the first copy modified in between. *)
Lemma loader_twice path a (f : Assembly -> Assembly) w :
  disk w !! path = Some (JsonFile a) ->
  let twice :=
    (c1 <- readJson path ;; modify c1 f ;; c2 <- readJson path ;; ret (c1, c2)) w in
  twice.2 = Ok (length (heap w), S (length (heap w))) /\
  heap twice.1 = (heap w ++ [f a; a])%list /\
  disk twice.1 = disk w.
Proof.
  intros Hfile twice.
  assert (Heq : twice
                = (mkWorld _ (disk w) (heap w ++ [f a; a]) (rosetta w)
                     (trace w ++ [EvReadJson path (length (heap w)) a;
                                  EvReadJson path (S (length (heap w))) a]),
                   Ok (length (heap w), S (length (heap w))))).
  { subst twice. unfold bind. rewrite (readJson_ok _ a w Hfile).
    unfold modify. cbn [heap disk rosetta trace].
    rewrite list_lookup_middle by reflexivity.
    unfold readJson. cbn [heap disk rosetta trace]. rewrite Hfile. unfold ret.
    rewrite length_insert, length_app, Nat.add_1_r.
    rewrite <- (Nat.add_0_r (length (heap w))) at 1.
    rewrite insert_app_r, <- !app_assoc. reflexivity. }
  rewrite Heq. auto.
Qed.

End Loader.

(** ** Types of no supported kind *)

Section Unsupported.
Context `{RosettaEngine}.

Lemma forM_throws {A} (body : A -> M unit) xs x :
  x ∈ xs -> (forall w, throws (body x w).2) -> forall w, throws (forM_ body xs w).2.
Proof.
  intros Hin Hx. induction xs as [|y xs IH]; intros w; [inversion Hin|].
  cbn [forM_]. unfold bind.
  apply elem_of_cons in Hin as [<-|Hin].
  - specialize (Hx w). destruct (body x w) as [w1 [u|e]]; cbn in *.
    + destruct Hx as (e & He). discriminate.
    + eexists; reflexivity.
  - destruct (body y w) as [w1 [u|e]]; cbn; [apply IH, Hin | eexists; reflexivity].
Qed.

Lemma bind_throws {A B} (c : M A) (k : A -> M B) w :
  throws (c w).2 -> throws (bind c k w).2 /\ (bind c k w).1 = (c w).1.
Proof.
  intros (e & He). unfold bind. destruct (c w) as [w1 [a|e1]]; cbn in *; [discriminate|].
  split; [eexists|]; reflexivity.
Qed.

Lemma walk_other_throws l d loose_ t tag w :
  kind t = OtherKind tag -> throws (transliterateType l d loose_ t w).2.
Proof.
  intros Hk.
  destruct (walkSpec_other l d loose_ t tag Hk w)
    as (_ & _ & ev & _ & _ & [[_ <-] | (m & -> & _)]); eexists; reflexivity.
Qed.

Lemma typeValues_elem a t :
  t ∈ map snd (default [] (types a)) -> exists i, (i, t) ∈ typeValues a.
Proof.
  intros Hin. apply list_elem_of_In, in_map_iff in Hin as ([fqn t'] & <- & Hin).
  apply list_elem_of_In, list_elem_of_lookup in Hin as (i & Hi).
  exists i. unfold typeValues.
  apply (elem_of_lookup_imap_2 (fun i entry => (i, entry.2)) _ _ _ Hi).
Qed.

(** The part of an iteration that comes before [writeJson] ends in an
    exception when a type of the assembly is of no supported kind. *)
Lemma transliterateCopy_throws options location l w a t tag :
  disk w !! resolve location SPEC_FILE_NAME = Some (JsonFile a) ->
  t ∈ map snd (default [] (types a)) -> kind t = OtherKind tag ->
  throws (transliterateCopy options location
            (readJson (resolve location SPEC_FILE_NAME)) l w).2.
Proof.
  intros Hfile Hin Hk.
  destruct (typeValues_elem a t Hin) as (i & Hi).
  assert (Hloop : forall a' w',
             types a' = types a ->
             throws ((forM_ (fun '(i, type) =>
                        t <- transliterateType l location (default false (loose options)) type ;;
                        modify (length (heap w)) (setType i t))
                      (typeValues a') ;; ret (length (heap w))) w').2).
  { intros a' w' Ha'. apply bind_throws.
    apply (forM_throws _ _ (i, t)).
    - unfold typeValues in *. rewrite Ha'. exact Hi.
    - intros w0. apply bind_throws, (walk_other_throws _ _ _ _ tag), Hk. }
  unfold transliterateCopy. unfold bind at 1. rewrite (readJson_ok _ a w Hfile).
  unfold bind at 1, deref. cbn [heap]. rewrite list_lookup_middle by reflexivity.
  destruct (readme a) as [r|].
  - destruct (truthy (markdown r)).
    + unfold bind at 1 2, callTranslateSnippetsInMarkdown. cbn [rosetta].
      destruct (translateSnippetsInMarkdown _ _ _ _ _ _) as [[md r']|m].
      * unfold modify. cbn [heap]. rewrite list_lookup_middle by reflexivity.
        unfold bind at 1. cbn [heap].
        rewrite list_lookup_insert_eq by (rewrite length_app; cbn; lia).
        apply Hloop. reflexivity.
      * unfold bind. eexists. reflexivity.
    + unfold bind at 1. cbn. unfold bind at 1. cbn [heap].
      rewrite list_lookup_middle by reflexivity. apply Hloop. reflexivity.
  - unfold bind at 1. cbn. unfold bind at 1. cbn [heap].
    rewrite list_lookup_middle by reflexivity. apply Hloop. reflexivity.
Qed.

Lemma replay_no_writes events files :
  written events = [] -> replay events files = files.
Proof.
  intros Hw. apply map_eq. intros p. apply replay_not_written.
  rewrite Hw. apply not_elem_of_nil.
Qed.

(** C2 (as amended). The walk of a type of no supported kind calls the
    translation callback on the type's own Docs node and on no other, then
    throws the unsupported-kind exception (or the callback's collaborator
    threw first): it never returns. The iteration over a (directory,
    language) pair whose assembly has such a type ends in an exception, has
    written nothing and leaves every file as it was. *)
Theorem unsupported_kind_aborts_before_write
    (options : TransliterateAssemblyOptions) (location l : string)
    (w : World) (a : Assembly) (t : Type_) (tag : string) :
  disk w !! resolve location SPEC_FILE_NAME = Some (JsonFile a) ->
  t ∈ map snd (default [] (types a)) -> kind t = OtherKind tag ->
  let walk := transliterateType l location (default false (loose options)) t in
  let out := transliteratePair options location
               (readJson (resolve location SPEC_FILE_NAME)) l w in
  (forall w0, exists events,
     trace (walk w0).1 = (trace w0 ++ events)%list /\
     ((docsCalls events = [docs t] /\ (walk w0).2 = Throw (unsupportedKind tag)) \/
      (exists message, (walk w0).2 = Throw (CollaboratorError message) /\
                       docsCalls events `prefix_of` [docs t]))) /\
  throws out.2 /\
  disk out.1 = disk w /\
  exists events, trace out.1 = (trace w ++ events)%list /\ written events = [].
Proof.
  intros Hfile Hin Hk walk out. split.
  { intros w0.
    destruct (walkSpec_other l location (default false (loose options)) t tag Hk w0)
      as (_ & _ & ev & Ht & _ & [[Hn Hr] | Hthrow]); exists ev; split; auto. }
  pose proof (transliterateCopy_throws options location l w a t tag Hfile Hin Hk) as Hcopy.
  destruct (preserves_transliterateCopy options location location l w)
    as (ev & Ht & Hev & Hd & _).
  subst out. unfold transliteratePair.
  destruct (bind_throws _ (fun result =>
              writeJson (outputPath location l) result ;;
              a <- deref result ;;
              emit (EvDebug ("Done transliterating " ++ name a ++ "@" ++ version a
                               ++ " to " ++ l))) w Hcopy) as [Hthrows ->].
  split; [exact Hthrows|].
  pose proof (written_copy_events ev Hev) as Hw.
  split; [rewrite Hd; apply replay_no_writes, Hw|].
  exists ev. auto.
Qed.

End Unsupported.

(** ** The text of the disclaimer *)

Lemma join_four sep a b c d :
  join sep [a; b; c; d] = a ++ sep ++ b ++ sep ++ c ++ sep ++ d.
Proof. reflexivity. Qed.

Lemma append_cancel_l (p a b : string) : p ++ a = p ++ b -> a = b.
Proof.
  induction p as [|c p IH]; [auto|].
  rewrite !append_cons. intros Heq. injection Heq as Heq. auto.
Qed.

Lemma length_append (a b : string) :
  String.length (a ++ b) = String.length a + String.length b.
Proof. induction a as [|c a IH]; [reflexivity|]. rewrite append_cons. cbn. rewrite IH. reflexivity. Qed.

Lemma append_cancel_r (s : string) : forall a b : string, a ++ s = b ++ s -> a = b.
Proof.
  induction a as [|c a IH]; intros [|c' b] Heq.
  - reflexivity.
  - apply (f_equal String.length) in Heq.
    rewrite append_empty, append_cons in Heq. cbn in Heq. rewrite length_append in Heq. lia.
  - apply (f_equal String.length) in Heq.
    rewrite append_empty, append_cons in Heq. cbn in Heq. rewrite length_append in Heq. lia.
  - rewrite !append_cons in Heq. injection Heq as -> Heq. f_equal. apply IH, Heq.
Qed.

(** C4 (as amended). The disclaimer is, in this order: the comment token, a
    space and the first sentence; a line feed; the comment token and
    [ See https://github.com/aws/jsii/issues/826 for more information.]; two
    line feeds; the translated source. The comment token is [#] for python
    and ruby and [//] for any other language; the first sentence is the
    incomplete-type-information one unless the translation compiled, and
    nothing else depends on [didCompile]. *)
Theorem prefixDisclaimer_text (L S : string) (compiled : bool) :
  prefixDisclaimer (mkTranslation L S compiled)
  = (if String.eqb L "python" || String.eqb L "ruby" then "#" else "//")
    ++ " "
    ++ (if compiled
        then "This example was automatically transliterated."
        else "This example was automatically transliterated with incomplete type information. It may not work as-is.")
    ++ LF
    ++ (if String.eqb L "python" || String.eqb L "ruby" then "#" else "//")
    ++ " See https://github.com/aws/jsii/issues/826 for more information."
    ++ LF ++ LF ++ S.
Proof.
  unfold prefixDisclaimer, commentToken, disclaimerText. cbn [language source didCompile].
  rewrite join_four.
  destruct (String.eqb L "python"), (String.eqb L "ruby"), (String.eqb L "csharp"),
    (String.eqb L "java"), (String.eqb L "go"), compiled; reflexivity.
Qed.

(** C4, the claim as worded fails: the text between [See ] and the full stop
    is not a bare URL, it goes on with [ for more information]. *)
Lemma disclaimer_reference_has_more_words :
  prefixDisclaimer (mkTranslation "java" "x" false)
  = claimedDisclaimer "https://github.com/aws/jsii/issues/826 for more information" "x" /\
  forall reference,
    hasSpace reference = false ->
    prefixDisclaimer (mkTranslation "java" "x" false) <> claimedDisclaimer reference "x".
Proof.
  split; [reflexivity|]. intros reference Hspace Heq.
  change (prefixDisclaimer (mkTranslation "java" "x" false))
    with (claimedDisclaimer "https://github.com/aws/jsii/issues/826 for more information" "x")
    in Heq.
  unfold claimedDisclaimer in Heq.
  do 3 apply append_cancel_l in Heq.
  apply append_cancel_r in Heq. subst reference. discriminate.
Qed.

(** ** The claims on concrete inputs *)

(** C2, the claim as worded fails: the walk of a type of no supported kind
    has translated the type's own Docs node when it throws. *)
Lemma unsupported_kind_translates_type_docs :
  let out := @transliterateType sampleEngine "python" "/a" false sampleOther sampleWorld in
  out.2 = Throw (unsupportedKind "struct") /\
  trace out.1
  = [EvDocs (docs sampleOther);
     EvTranslateSnippet "python" (Some (mkTranslation "python" "translated other" true))].
Proof. split; reflexivity. Qed.

Lemma unsupported_kind_aborts_before_write_witness :
  let out := @transliteratePair sampleEngine noOptions "/x"
               (@readJson sampleEngine (@resolve sampleEngine "/x" SPEC_FILE_NAME)) "python"
               (@mkWorld sampleEngine
                  {["/x/.jsii" := JsonFile (sampleAssembly [("lib.S", sampleOther)])]}
                  [] [] []) in
  throws out.2 /\
  disk out.1 = {["/x/.jsii" := JsonFile (sampleAssembly [("lib.S", sampleOther)])]} /\
  out.2 = Throw (unsupportedKind "struct").
Proof.
  cbn zeta.
  destruct (@unsupported_kind_aborts_before_write sampleEngine noOptions "/x" "python"
              (@mkWorld sampleEngine
                 {["/x/.jsii" := JsonFile (sampleAssembly [("lib.S", sampleOther)])]}
                 [] [] [])
              (sampleAssembly [("lib.S", sampleOther)]) sampleOther "struct")
    as (_ & Hthrows & Hdisk & _).
  - reflexivity.
  - cbn. apply list_elem_of_singleton. reflexivity.
  - reflexivity.
  - split; [exact Hthrows | split; [exact Hdisk | reflexivity]].
Defined.

(** C3, the claim as worded fails: the callback is applied to the enum's own
    Docs node as well, before those of the members. *)
Lemma enum_walk_visits_type_docs :
  let out := @transliterateType sampleEngine "python" "/a" false sampleEnum sampleWorld in
  docsCalls (trace out.1) = [sampleDocs "enum"; sampleDocs "a"; None] /\
  docsCalls (trace out.1) <> map member_docs (default [] (members sampleEnum)).
Proof. split; [reflexivity | discriminate]. Qed.

Lemma enum_walk_visits_type_and_members_witness :
  exists events,
    trace (@transliterateType sampleEngine "python" "/a" false sampleEnum sampleWorld).1
    = (trace sampleWorld ++ events)%list.
Proof.
  destruct (@enum_walk_visits_type_and_members sampleEngine "python" "/a" false sampleEnum
              [mkEnumMember "A" (sampleDocs "a"); mkEnumMember "B" None] sampleWorld
              eq_refl eq_refl) as (events & Ht & _).
  exists events. exact Ht.
Defined.

Lemma class_walk_composes_interface_witness :
  exists events,
    trace (@transliterateType sampleEngine "python" "/b" false sampleClass sampleWorld).1
    = (trace sampleWorld ++ events)%list.
Proof.
  destruct (@class_walk_composes_interface sampleEngine "python" "/b" false sampleClass
              sampleWorld eq_refl) as (events & Ht & _).
  exists events. exact Ht.
Defined.

Lemma untranslated_example_unchanged_witness :
  (@transliterateDocs sampleEngine "python" "/a" false (sampleDocs "skip") sampleWorld).2
  = Ok (sampleDocs "skip").
Proof.
  apply (@untranslated_example_unchanged sampleEngine "python" "/a" false
           (mkDocs (Some "about") (Some "skip")) "skip" "skip" sampleWorld
           eq_refl eq_refl eq_refl).
Defined.

(** C7, the claim as worded fails: a directory listed twice is registered
    twice, and iterated over once. *)
Lemma directory_listed_twice_registered_twice :
  let out := @transliterateAssembly sampleEngine ["/a"; "/a"] ["python"]
               noOptions sampleFiles in
  registrations (trace out.1) = ["/a"; "/a"] /\
  written (trace out.1) = ["/a/.jsii.python"] /\
  out.2 = Ok tt.
Proof. vm_compute. auto. Qed.

Lemma strict_failure_only_after_all_pairs_witness :
  let out := @transliterateAssembly sampleEngine ["/c"] ["python"]
               strictOptions brokenFiles in
  out.2 = Throw strictModeError /\
  exists a, disk out.1 !! "/c/.jsii.python" = Some (JsonFile a).
Proof.
  cbn zeta.
  pose proof (@strict_failure_only_after_all_pairs sampleEngine ["/c"] ["python"]
                strictOptions brokenFiles) as (_ & Hiff & Hm).
  split.
  - apply Hiff. split; [exists tt; reflexivity | split; reflexivity].
  - change ((@processing sampleEngine ["/c"] ["python"] strictOptions
               (@initialWorld sampleEngine ["python"] strictOptions brokenFiles)).2)
      with (@Ok unit tt) in Hm.
    destruct Hm as (Hall & _).
    apply (Hall "/c" "python"); [apply list_elem_of_singleton | apply list_elem_of_singleton];
      reflexivity.
Defined.

Lemma registration_once_per_listed_directory_witness :
  registrations
    (trace (@prepare sampleEngine ["/a"; "/b"] noOptions
              (@initialWorld sampleEngine ["python"; "java"] noOptions sampleFiles)).1)
  = ["/a"; "/b"].
Proof.
  exact (proj1 (proj2 (proj2 (@registration_once_per_listed_directory sampleEngine
                                ["/a"; "/b"] ["python"; "java"] noOptions sampleFiles)))).
Defined.

Lemma type_docs_translated_first_witness :
  @transliterateType sampleEngine "python" "/a" false sampleOther sampleWorld
  = (@transliterateDocs sampleEngine "python" "/a" false (docs sampleOther) ;;
     throw (unsupportedKind "struct")) sampleWorld.
Proof.
  apply (@type_docs_translated_first sampleEngine "python" "/a" false sampleOther
           sampleWorld).
  reflexivity.
Defined.

Lemma absent_members_throw_witness :
  (exists events,
     trace (@transliterateType sampleEngine "python" "/a" false
              (mkType EnumKind None None None None None) sampleWorld).1
     = (trace sampleWorld ++ events)%list) /\
  @transliterateType sampleEngine "python" "/a" false
    (orEmpty (mkType InterfaceKind None None None None None)) sampleWorld
  = ((@transliterateType sampleEngine "python" "/a" false
        (mkType InterfaceKind None None None None None) sampleWorld).1,
     mapResult orEmpty
       (@transliterateType sampleEngine "python" "/a" false
          (mkType InterfaceKind None None None None None) sampleWorld).2).
Proof.
  split.
  - destruct (proj1 (@absent_members_throw_absent_others_empty sampleEngine "python" "/a"
                       false (mkType EnumKind None None None None None)
                       (mkMethod "m" None None) sampleWorld) eq_refl eq_refl)
      as (events & Ht & _).
    exists events. exact Ht.
  - apply (proj1 (proj2 (@absent_members_throw_absent_others_empty sampleEngine "python"
                           "/a" false (mkType InterfaceKind None None None None None)
                           (mkMethod "m" None None) sampleWorld))).
    left. reflexivity.
Defined.

(** * Further properties *)

(** ** What a walk changes *)

Section Shape.
Context `{RosettaEngine}.

Lemma returnsOnly_ret {A} (a : A) (P : A -> Prop) : P a -> returnsOnly (ret a) P.
Proof. intros HP w w' a' Hr. injection Hr as <- <-. exact HP. Qed.

Lemma returnsOnly_bind {A B} (c : M A) (k : A -> M B) (P : A -> Prop) (Q : B -> Prop) :
  returnsOnly c P -> (forall a, P a -> returnsOnly (k a) Q) -> returnsOnly (bind c k) Q.
Proof.
  intros Hc Hk w w' b. unfold bind. specialize (Hc w).
  destruct (c w) as [w1 [a|e]]; [|discriminate].
  intros Hr. eapply Hk; [eapply Hc; reflexivity | exact Hr].
Qed.

Lemma returnsOnly_mapM {A} (body : A -> M A) (R : A -> A -> Prop) :
  (forall x, returnsOnly (body x) (R x)) ->
  forall xs, returnsOnly (mapM body xs) (Forall2 R xs).
Proof.
  intros Hbody. induction xs as [|x xs IH]; cbn [mapM].
  - apply returnsOnly_ret. constructor.
  - eapply returnsOnly_bind; [apply Hbody|]. intros x' Hx'.
    eapply returnsOnly_bind; [apply IH|]. intros xs' Hxs'.
    apply returnsOnly_ret. constructor; assumption.
Qed.

Lemma Forall2_erase {A} (erase : A -> A) xs xs' :
  Forall2 (fun x x' => erase x' = erase x) xs xs' -> map erase xs' = map erase xs.
Proof. induction 1; cbn; congruence. Qed.

Lemma returnsOnly_mapM_opt {A} (body : A -> M A) (erase : A -> A) xs :
  (forall x, returnsOnly (body x) (fun x' => erase x' = erase x)) ->
  returnsOnly (mapM_opt body xs)
    (fun xs' => option_map (map erase) xs' = option_map (map erase) xs).
Proof.
  intros Hbody. destruct xs as [l|]; cbn [mapM_opt].
  - eapply returnsOnly_bind; [apply (returnsOnly_mapM body _ Hbody)|].
    intros l' Hl'. apply returnsOnly_ret. cbn. f_equal. apply Forall2_erase, Hl'.
  - apply returnsOnly_ret. reflexivity.
Qed.

Variables (language_ workingDirectory : string) (loose_ : bool).

Local Abbreviation tDocs := (transliterateDocs language_ workingDirectory loose_).
Local Abbreviation tType := (transliterateType language_ workingDirectory loose_).

Lemma returnsOnly_transliterateDocs node :
  returnsOnly (tDocs node) (fun node' => eraseNode node' = eraseNode node).
Proof.
  intros w w' node' Hr.
  destruct (walkSpec_transliterateDocs language_ workingDirectory loose_ node w)
    as (_ & _ & ev & _ & _ & [[_ (n & Hn & Hsame)] | (m & Hm & _)]);
    rewrite Hr in *; cbn in *; [|discriminate].
  injection Hn as <-.
  destruct node as [d|], node' as [d'|]; cbn in *; try contradiction; congruence.
Qed.

Lemma returnsOnly_parameter p :
  returnsOnly (transliterateParameter language_ workingDirectory loose_ p)
    (fun p' => eraseParameter p' = eraseParameter p).
Proof.
  eapply returnsOnly_bind; [apply returnsOnly_transliterateDocs|]. intros d Hd.
  apply returnsOnly_ret. unfold eraseParameter. cbn. congruence.
Qed.

Lemma returnsOnly_property p :
  returnsOnly (transliterateProperty language_ workingDirectory loose_ p)
    (fun p' => eraseProperty p' = eraseProperty p).
Proof.
  eapply returnsOnly_bind; [apply returnsOnly_transliterateDocs|]. intros d Hd.
  apply returnsOnly_ret. unfold eraseProperty. cbn. congruence.
Qed.

Lemma returnsOnly_member m :
  returnsOnly (transliterateMember language_ workingDirectory loose_ m)
    (fun m' => eraseMember m' = eraseMember m).
Proof.
  eapply returnsOnly_bind; [apply returnsOnly_transliterateDocs|]. intros d Hd.
  apply returnsOnly_ret. unfold eraseMember. cbn. congruence.
Qed.

Lemma returnsOnly_method m :
  returnsOnly (transliterateMethod language_ workingDirectory loose_ m)
    (fun m' => eraseMethod m' = eraseMethod m).
Proof.
  eapply returnsOnly_bind; [apply returnsOnly_transliterateDocs|]. intros d Hd.
  eapply returnsOnly_bind; [apply (returnsOnly_mapM_opt _ eraseParameter), returnsOnly_parameter|].
  intros ps Hps. apply returnsOnly_ret. unfold eraseMethod. cbn. congruence.
Qed.

Lemma returnsOnly_caseInterface t :
  returnsOnly (caseInterface language_ workingDirectory loose_ t)
    (fun t' => withoutExamples t' = withoutExamples t).
Proof.
  eapply returnsOnly_bind; [apply (returnsOnly_mapM_opt _ eraseMethod), returnsOnly_method|].
  intros ms Hms.
  eapply returnsOnly_bind; [apply (returnsOnly_mapM_opt _ eraseProperty), returnsOnly_property|].
  intros ps Hps. apply returnsOnly_ret. unfold withoutExamples. cbn. congruence.
Qed.

Lemma returnsOnly_caseClass t :
  returnsOnly (caseClass language_ workingDirectory loose_ t)
    (fun t' => withoutExamples t' = withoutExamples t).
Proof.
  unfold caseClass.
  eapply returnsOnly_bind with
    (P := fun i => option_map (fun init => mkInitializer (eraseNode (initializer_docs init))
                                             (initializer_parameters init)) i
                   = option_map (fun init => mkInitializer (eraseNode (initializer_docs init))
                                               (initializer_parameters init))
                       (initializer t)).
  - destruct (initializer t) as [init|].
    + eapply returnsOnly_bind; [apply returnsOnly_transliterateDocs|]. intros d Hd.
      apply returnsOnly_ret. cbn. congruence.
    + eapply returnsOnly_bind; [apply returnsOnly_transliterateDocs|]. intros d Hd.
      apply returnsOnly_ret. reflexivity.
  - intros i Hi. intros w w' t' Hr.
    rewrite (returnsOnly_caseInterface _ w w' t' Hr).
    unfold withoutExamples. cbn. congruence.
Qed.

Lemma returnsOnly_caseEnum t :
  returnsOnly (caseEnum language_ workingDirectory loose_ t)
    (fun t' => withoutExamples t' = withoutExamples t).
Proof.
  unfold caseEnum. destruct (members t) as [ms|] eqn:Hms.
  - eapply returnsOnly_bind; [apply (returnsOnly_mapM _ _ returnsOnly_member)|].
    intros ms' Hms'. apply returnsOnly_ret. unfold withoutExamples. cbn.
    rewrite Hms. cbn. f_equal. f_equal. apply (Forall2_erase eraseMember), Hms'.
  - intros w w' t' Hr. discriminate.
Qed.

Lemma returnsOnly_transliterateType t :
  returnsOnly (tType t) (fun t' => withoutExamples t' = withoutExamples t).
Proof.
  unfold transliterateType.
  eapply returnsOnly_bind; [apply returnsOnly_transliterateDocs|]. intros d Hd. cbn.
  intros w w' t' Hr.
  assert (Hcase : withoutExamples t'
                  = withoutExamples (mkType (kind t) d (initializer t) (methods t)
                                       (properties t) (members t))).
  { destruct (kind t) as [| | |tag] eqn:Hk.
    - eapply returnsOnly_caseClass, Hr.
    - eapply returnsOnly_caseInterface, Hr.
    - eapply returnsOnly_caseEnum, Hr.
    - discriminate. }
  rewrite Hcase. unfold withoutExamples. cbn. congruence.
Qed.

End Shape.

(** ** Types without examples *)

Section Skips.
Context `{RosettaEngine}.

Lemma recorded_nil (w : World) : recorded w [] = w.
Proof. unfold recorded. rewrite app_nil_r. destruct w; reflexivity. Qed.

Lemma recorded_app (w : World) e1 e2 :
  recorded (recorded w e1) e2 = recorded w (e1 ++ e2).
Proof. unfold recorded. cbn. rewrite app_assoc. reflexivity. Qed.

Lemma skips_ret {A} (a : A) : skips (ret a) [] a.
Proof. intros w. cbn [map]. rewrite recorded_nil. reflexivity. Qed.

Lemma skips_bind {A B} (c : M A) (k : A -> M B) n1 n2 a b :
  skips c n1 a -> skips (k a) n2 b -> skips (bind c k) (n1 ++ n2) b.
Proof.
  intros Hc Hk w. unfold bind. rewrite (Hc w), (Hk _), recorded_app, map_app. reflexivity.
Qed.

Lemma skips_mapM {A} (body : A -> M A) (nodes : A -> list (option Docs)) xs :
  (forall x, x ∈ xs -> skips (body x) (nodes x) x) ->
  skips (mapM body xs) (flat_map nodes xs) xs.
Proof.
  induction xs as [|x xs IH]; intros Hbody; cbn [mapM flat_map].
  - apply skips_ret.
  - eapply skips_bind; [apply Hbody; left|].
    rewrite <- (app_nil_r (flat_map nodes xs)).
    eapply skips_bind; [apply IH; intros y Hy; apply Hbody; right; exact Hy|].
    apply skips_ret.
Qed.

Lemma skips_mapM_opt {A} (body : A -> M A) (nodes : A -> list (option Docs)) xs :
  (forall x, x ∈ default [] xs -> skips (body x) (nodes x) x) ->
  skips (mapM_opt body xs) (flat_map nodes (default [] xs)) xs.
Proof.
  intros Hbody. destruct xs as [l|]; cbn [mapM_opt default from_option id flat_map].
  - rewrite <- (app_nil_r (flat_map nodes l)).
    eapply skips_bind; [apply skips_mapM, Hbody | apply skips_ret].
  - apply skips_ret.
Qed.

Variables (language_ workingDirectory : string) (loose_ : bool).

Local Abbreviation tDocs := (transliterateDocs language_ workingDirectory loose_).
Local Abbreviation tType := (transliterateType language_ workingDirectory loose_).

Lemma skips_transliterateDocs node :
  hasExample node = false -> skips (tDocs node) [node] node.
Proof.
  intros Hno w. unfold transliterateDocs, bind, emit, recorded. cbn.
  destruct node as [d|]; [|reflexivity]. cbn in Hno.
  destruct (example d) as [text|]; [|reflexivity].
  rewrite Hno. reflexivity.
Qed.

Lemma no_examples_app (n1 n2 : list (option Docs)) :
  forallb (fun n => negb (hasExample n)) (n1 ++ n2) = true ->
  forallb (fun n => negb (hasExample n)) n1 = true /\
  forallb (fun n => negb (hasExample n)) n2 = true.
Proof. rewrite forallb_app. apply andb_true_iff. Qed.

Lemma no_examples_elem (nodes : list (option Docs)) n :
  forallb (fun n => negb (hasExample n)) nodes = true -> n ∈ nodes ->
  hasExample n = false.
Proof.
  intros Hall Hin. rewrite forallb_forall in Hall.
  apply negb_true_iff, Hall, list_elem_of_In, Hin.
Qed.

Lemma no_examples_flat_map {A} (nodes : A -> list (option Docs)) xs x :
  forallb (fun n => negb (hasExample n)) (flat_map nodes xs) = true -> x ∈ xs ->
  forallb (fun n => negb (hasExample n)) (nodes x) = true.
Proof.
  intros Hall Hin. apply forallb_forall. intros n Hn.
  rewrite forallb_forall in Hall. apply Hall, in_flat_map.
  exists x. split; [apply list_elem_of_In, Hin | exact Hn].
Qed.

Lemma skips_parameter p :
  hasExample (parameter_docs p) = false ->
  skips (transliterateParameter language_ workingDirectory loose_ p) [parameter_docs p] p.
Proof.
  intros Hno. change [parameter_docs p] with ([parameter_docs p] ++ [])%list.
  eapply skips_bind; [apply skips_transliterateDocs, Hno|].
  destruct p. apply skips_ret.
Qed.

Lemma skips_property p :
  hasExample (property_docs p) = false ->
  skips (transliterateProperty language_ workingDirectory loose_ p) [property_docs p] p.
Proof.
  intros Hno. change [property_docs p] with ([property_docs p] ++ [])%list.
  eapply skips_bind; [apply skips_transliterateDocs, Hno|].
  destruct p. apply skips_ret.
Qed.

Lemma skips_member m :
  hasExample (member_docs m) = false ->
  skips (transliterateMember language_ workingDirectory loose_ m) [member_docs m] m.
Proof.
  intros Hno. change [member_docs m] with ([member_docs m] ++ [])%list.
  eapply skips_bind; [apply skips_transliterateDocs, Hno|].
  destruct m. apply skips_ret.
Qed.

Lemma skips_method m :
  forallb (fun n => negb (hasExample n)) (methodNodes m) = true ->
  skips (transliterateMethod language_ workingDirectory loose_ m) (methodNodes m) m.
Proof.
  unfold methodNodes. intros Hno.
  change (method_docs m :: ?l) with ([method_docs m] ++ l)%list in *.
  apply no_examples_app in Hno as [Hd Hps].
  unfold transliterateMethod.
  eapply skips_bind; [apply skips_transliterateDocs; cbn in Hd; destruct (hasExample _); [discriminate|reflexivity]|].
  rewrite <- (app_nil_r (map _ _)), <- flat_map_singleton.
  eapply skips_bind.
  - apply skips_mapM_opt. intros p Hp. apply skips_parameter.
    eapply no_examples_elem; [exact Hps|].
    apply list_elem_of_In, in_map, list_elem_of_In, Hp.
  - destruct m. apply skips_ret.
Qed.

Lemma skips_caseInterface t :
  forallb (fun n => negb (hasExample n)) (interfaceNodes t) = true ->
  skips (caseInterface language_ workingDirectory loose_ t) (interfaceNodes t) t.
Proof.
  unfold interfaceNodes. intros Hno. apply no_examples_app in Hno as [Hms Hps].
  unfold caseInterface.
  eapply skips_bind.
  { apply skips_mapM_opt. intros m Hm. apply skips_method.
    eapply no_examples_flat_map; eauto. }
  rewrite <- (app_nil_r (map _ _)), <- flat_map_singleton.
  eapply skips_bind.
  - apply skips_mapM_opt. intros p Hp. apply skips_property.
    eapply no_examples_elem; [exact Hps|].
    apply list_elem_of_In, in_map, list_elem_of_In, Hp.
  - destruct t. apply skips_ret.
Qed.

Lemma skips_caseClass t :
  forallb (fun n => negb (hasExample n)) (initializerNode t :: interfaceNodes t) = true ->
  skips (caseClass language_ workingDirectory loose_ t)
    (initializerNode t :: interfaceNodes t) t.
Proof.
  change (initializerNode t :: ?l) with ([initializerNode t] ++ l)%list.
  intros Hno. apply no_examples_app in Hno as [Hi Hint].
  assert (Hinit : hasExample (initializerNode t) = false).
  { cbn in Hi. destruct (hasExample (initializerNode t)); [discriminate | reflexivity]. }
  unfold caseClass.
  eapply skips_bind with (a := initializer t).
  - unfold initializerNode in *. destruct (initializer t) as [init|].
    + change [initializer_docs init] with ([initializer_docs init] ++ [])%list.
      eapply skips_bind; [apply skips_transliterateDocs, Hinit|].
      destruct init. apply skips_ret.
    + change [None] with ([@None Docs] ++ [])%list.
      eapply skips_bind; [apply skips_transliterateDocs; reflexivity | apply skips_ret].
  - destruct t as [k d i ms ps mem]. exact (skips_caseInterface _ Hint).
Qed.

Lemma skips_caseEnum t ms :
  members t = Some ms ->
  forallb (fun n => negb (hasExample n)) (map member_docs ms) = true ->
  skips (caseEnum language_ workingDirectory loose_ t) (map member_docs ms) t.
Proof.
  intros Hms Hno. unfold caseEnum. rewrite Hms.
  rewrite <- (app_nil_r (map _ _)), <- flat_map_singleton.
  eapply skips_bind with (a := ms).
  - apply skips_mapM. intros m Hm. apply skips_member.
    eapply no_examples_elem; [exact Hno|].
    apply list_elem_of_In, in_map, list_elem_of_In, Hm.
  - destruct t as [k d i mt ps mem]. cbn in Hms. subst mem. apply skips_ret.
Qed.

Lemma skips_transliterateType t :
  walkable t = true ->
  forallb (fun n => negb (hasExample n)) (typeNodes t) = true ->
  skips (tType t) (typeNodes t) t.
Proof.
  intros Hwalk Hno.
  assert (Hdocs : hasExample (docs t) = false).
  { eapply no_examples_elem; [exact Hno|]. unfold typeNodes. destruct (kind t); left. }
  assert (Heta : mkType (kind t) (docs t) (initializer t) (methods t) (properties t)
                   (members t) = t) by (destruct t; reflexivity).
  unfold walkable in Hwalk. unfold typeNodes in *. unfold transliterateType.
  change (docs t :: ?l) with ([docs t] ++ l)%list in *.
  destruct (kind t) as [| | |tag] eqn:Hk; try discriminate;
    apply no_examples_app in Hno as [_ Hno];
    (eapply skips_bind; [apply skips_transliterateDocs, Hdocs|]);
    cbn [kind]; rewrite Heta.
  - apply skips_caseClass, Hno.
  - apply skips_caseInterface, Hno.
  - destruct (members t) as [ms|] eqn:Hms; [|discriminate].
    apply (skips_caseEnum t ms Hms), Hno.
Qed.

End Skips.

(** ** What an iteration writes *)

Lemma map_lookup {A B} (f : A -> B) (l : list A) i :
  map f l !! i = option_map f (l !! i).
Proof. revert i. induction l as [|x l IH]; intros [|i]; cbn; auto. Qed.

Lemma map_insert {A B} (f : A -> B) (l : list A) i x :
  map f (<[i := x]> l) = <[i := f x]> (map f l).
Proof. revert i. induction l as [|y l IH]; intros [|i]; cbn; auto. f_equal. apply IH. Qed.

Section Iteration.
Context `{RosettaEngine}.

Lemma bind_returns {A B} (c : M A) (k : A -> M B) w w' b :
  bind c k w = (w', Ok b) ->
  exists w1 a, c w = (w1, Ok a) /\ k a w1 = (w', Ok b).
Proof.
  unfold bind. destruct (c w) as [w1 [a|e]]; [|discriminate]. eauto.
Qed.

Lemma forM_inv {A} (body : A -> M unit) xs (I : World -> Prop) :
  (forall x w w1, x ∈ xs -> I w -> body x w = (w1, Ok tt) -> I w1) ->
  forall w w' u, I w -> forM_ body xs w = (w', Ok u) -> I w'.
Proof.
  induction xs as [|x xs IH]; intros Hbody w w' u HI Hr; cbn [forM_] in Hr.
  - injection Hr as <- _. exact HI.
  - apply bind_returns in Hr as (w1 & [] & Hx & Hrest).
    eapply IH; [|eapply Hbody; [left | exact HI | exact Hx] | exact Hrest].
    intros y w0 w2 Hy. apply Hbody. right. exact Hy.
Qed.

Lemma typeValues_lookup a i t :
  (i, t) ∈ typeValues a ->
  exists ts fqn, types a = Some ts /\ ts !! i = Some (fqn, t).
Proof.
  unfold typeValues. intros Hin.
  apply elem_of_lookup_imap in Hin as (j & [fqn t0] & Heq & Hj). cbn in Heq.
  injection Heq as -> ->.
  destruct (types a) as [ts|]; [eauto | discriminate].
Qed.

Lemma copyIs_step l location loose_ copy a files n i t w w1 :
  copy < n -> (i, t) ∈ typeValues a -> copyIs copy a files n w ->
  (t' <- transliterateType l location loose_ t ;; modify copy (setType i t')) w
  = (w1, Ok tt) ->
  copyIs copy a files n w1.
Proof.
  intros Hn Hin (Hd & Hlen & cur & Hcur & Hname & Hver & Hreadme & Htypes) Hr.
  apply bind_returns in Hr as (w0 & t' & Hwalk & Hmod).
  pose proof (returnsOnly_transliterateType _ _ _ _ _ _ _ Hwalk) as Hshape.
  destruct (walkSpec_any l location loose_ t) as (nodes & Q & Hs).
  destruct (Hs w) as (Hd0 & Hh0 & _). rewrite Hwalk in Hd0, Hh0. cbn in Hd0, Hh0.
  unfold modify in Hmod. rewrite Hh0, Hcur in Hmod. injection Hmod as <-.
  destruct (typeValues_lookup a i t Hin) as (ts1 & fqn & Hts1 & Hi).
  rewrite Hts1 in Htypes. cbn in Htypes.
  destruct (types cur) as [ts|] eqn:Hts; [|discriminate]. cbn in Htypes.
  injection Htypes as Htypes.
  assert (Hentry : map (fun entry => (entry.1, withoutExamples entry.2)) ts1 !! i
                   = Some (fqn, withoutExamples t))
    by (rewrite map_lookup, Hi; reflexivity).
  assert (Hcuri : exists tc, ts !! i = Some (fqn, tc)).
  { rewrite <- Htypes, map_lookup in Hentry.
    destruct (ts !! i) as [[fqn' tc]|]; [|discriminate].
    cbn in Hentry. injection Hentry as -> _. eauto. }
  destruct Hcuri as (tc & Htc).
  split; [cbn; congruence|]. split; [cbn; rewrite length_insert; congruence|].
  exists (setType i t' cur). cbn [heap].
  split; [apply list_lookup_insert_eq; apply lookup_lt_Some in Hcur; lia|].
  unfold setType. cbn [name version readme types]. rewrite Hts, Htc, Hts1.
  repeat split; auto. cbn. f_equal.
  rewrite map_insert. cbn [fst snd]. rewrite Hshape, Htypes.
  apply list_insert_id, Hentry.
Qed.

(** When the part of an iteration that comes before [writeJson] returns:
    the reference is the new one, the files are as they were, and the copy
    is the document of the file but for the translations. *)
Lemma transliterateCopy_returns options location path l w w' result :
  transliterateCopy options location (readJson path) l w = (w', Ok result) ->
  exists a0 cur,
    disk w !! path = Some (JsonFile a0) /\ result = length (heap w) /\
    heap w' !! result = Some cur /\ disk w' = disk w /\
    withoutTranslations cur = withoutTranslations a0 /\
    readmeTranslated l location (rosetta w) a0 (readme cur).
Proof.
  unfold transliterateCopy. intros Hr.
  apply bind_returns in Hr as (w1 & copy & Hload & Hr).
  unfold readJson in Hload.
  destruct (disk w !! path) as [[a0|]|] eqn:Hfile; try discriminate.
  injection Hload as <- <-.
  apply bind_returns in Hr as (w2 & a & Hderef & Hr).
  unfold deref in Hderef. cbn [heap] in Hderef.
  rewrite list_lookup_middle in Hderef by reflexivity. injection Hderef as <- <-.
  apply bind_returns in Hr as (w3 & [] & Hmd & Hr).
  apply bind_returns in Hr as (w4 & a1 & Hderef & Hr).
  apply bind_returns in Hr as (w5 & [] & Hloop & Hret).
  injection Hret as <- <-.
  set (n := length (heap w)) in *.
  assert (H3 : copyIs n a1 (disk w) (S n) w3 /\ heap w3 !! n = Some a1 /\
               name a1 = name a0 /\ version a1 = version a0 /\ types a1 = types a0 /\
               (readme a1 = None <-> readme a0 = None) /\
               readmeTranslated l location (rosetta w) a0 (readme a1)).
  { assert (Hsame : forall wx ax,
               heap wx !! n = Some ax -> disk wx = disk w -> length (heap wx) = S n ->
               deref n wx = (w4, Ok a1) ->
               copyIs n a1 (disk w) (S n) wx /\ heap wx !! n = Some a1 /\ ax = a1).
    { intros wx ax Hax Hdx Hlx Hdr. unfold deref, loc in Hdr. rewrite Hax in Hdr.
      injection Hdr as <- <-. repeat split; auto. exists ax. auto. }
    assert (Hlen : length (heap w ++ [a0]) = S n)
      by (rewrite length_app; cbn; unfold n; lia).
    unfold readmeTranslated. destruct (readme a0) as [r|] eqn:Hreadme.
    - destruct (truthy (markdown r)) eqn:Htruthy.
      + apply bind_returns in Hmd as (wm & md & Hcall & Hmod).
        unfold callTranslateSnippetsInMarkdown in Hcall. cbn [rosetta] in Hcall.
        destruct (translateSnippetsInMarkdown _ _ _ _ _ _) as [[md' r']|m];
          [|discriminate].
        injection Hcall as <- <-.
        unfold modify in Hmod. cbn [heap] in Hmod.
        rewrite list_lookup_middle in Hmod by reflexivity. injection Hmod as <-.
        pose proof (fun Ha Hd Hl => Hsame _ (setMarkdown md' a0) Ha Hd Hl Hderef) as Hx.
        cbn [heap disk] in Hx. destruct Hx as (Hc & Hh & <-).
        * apply list_lookup_insert_eq. rewrite Hlen. unfold n. lia.
        * reflexivity.
        * rewrite length_insert. exact Hlen.
        * split; [exact Hc|]. split; [exact Hh|]. cbn.
          repeat split; eauto; intros; discriminate.
      + injection Hmd as <-.
        pose proof (fun Ha Hd Hl => Hsame _ a0 Ha Hd Hl Hderef) as Hx.
        cbn [heap disk] in Hx. destruct Hx as (Hc & Hh & <-).
        * apply list_lookup_middle. reflexivity.
        * reflexivity.
        * exact Hlen.
        * split; [exact Hc|]. split; [exact Hh|]. rewrite Hreadme.
          repeat split; auto.
    - injection Hmd as <-.
      pose proof (fun Ha Hd Hl => Hsame _ a0 Ha Hd Hl Hderef) as Hx.
      cbn [heap disk] in Hx. destruct Hx as (Hc & Hh & <-).
      + apply list_lookup_middle. reflexivity.
      + reflexivity.
      + exact Hlen.
      + split; [exact Hc|]. split; [exact Hh|]. rewrite Hreadme.
        repeat split; auto. }
  destruct H3 as (Hc3 & Hh3 & Hname & Hver & Htypes & Hnone & Hkeep).
  assert (Hw4 : w4 = w3).
  { unfold deref, loc in Hderef. rewrite Hh3 in Hderef. injection Hderef as <-.
    reflexivity. }
  subst w4.
  assert (Hc5 : copyIs n a1 (disk w) (S n) w5).
  { eapply (forM_inv _ _ (copyIs n a1 (disk w) (S n))); [|exact Hc3 | exact Hloop].
    intros [i t] wa wb Hin HI Hbody.
    eapply copyIs_step; [|exact Hin | exact HI | exact Hbody]. lia. }
  destruct Hc5 as (Hd5 & _ & cur & Hcur & Hn5 & Hv5 & Hr5 & Ht5).
  exists a0, cur. repeat split; auto.
  - unfold withoutTranslations. rewrite Hn5, Hv5, Hr5, Ht5, Hname, Hver, Htypes.
    f_equal. destruct (readme a1), (readme a0); try reflexivity.
    + discriminate (proj2 Hnone eq_refl).
    + discriminate (proj1 Hnone eq_refl).
  - rewrite Hr5. exact Hkeep.
Qed.

(** How one iteration ends: with the output file of the pair written, or
    with no file changed. *)
Lemma transliteratePair_outcome options location l (w : World) :
  match (transliteratePair options location
           (readJson (resolve location SPEC_FILE_NAME)) l w).2 with
  | Ok _ =>
      exists a0 a,
        disk w !! resolve location SPEC_FILE_NAME = Some (JsonFile a0) /\
        disk (transliteratePair options location
                (readJson (resolve location SPEC_FILE_NAME)) l w).1
        = <[outputPath location l := JsonFile a]> (disk w) /\
        withoutTranslations a = withoutTranslations a0 /\
        readmeTranslated l location (rosetta w) a0 (readme a) /\
        exists events,
          trace (transliteratePair options location
                   (readJson (resolve location SPEC_FILE_NAME)) l w).1
          = (trace w ++ events)%list /\
          written events = [outputPath location l]
  | Throw _ =>
      disk (transliteratePair options location
              (readJson (resolve location SPEC_FILE_NAME)) l w).1 = disk w /\
      exists events,
        trace (transliteratePair options location
                 (readJson (resolve location SPEC_FILE_NAME)) l w).1
        = (trace w ++ events)%list /\
        written events = []
  end.
Proof.
  unfold transliteratePair, bind.
  pose proof (preserves_transliterateCopy options location location l w)
    as (ev & Ht & Hev & Hd & _).
  pose proof (transliterateCopy_returns options location
                (resolve location SPEC_FILE_NAME) l w) as Hret.
  apply written_copy_events in Hev.
  destruct (transliterateCopy _ _ _ _ w) as [w1 [result|e]]; cbn [fst snd] in *.
  - destruct (Hret _ _ eq_refl) as (a0 & cur & Hfile & -> & Hcur & Hdisk & Hsame & Hmd).
    unfold writeJson, deref, emit, loc in *. rewrite Hcur. cbn [heap]. rewrite Hcur.
    cbn [fst snd disk trace].
    exists a0, cur. rewrite Hdisk. repeat split; auto.
    eexists. rewrite Ht, <- !app_assoc. split; [reflexivity|].
    rewrite written_app, Hev. reflexivity.
  - split; [rewrite Hd; apply replay_no_writes, Hev | eauto].
Qed.

(** X5. One iteration over a (directory, language) pair writes one file or
    none. When it returns, the only file that has changed is the output
    file of the pair, which holds the assembly of the directory but for the
    translations (the text of the readme and the examples the walk
    reaches). Its readme is what the engine hands back for the text of the
    readme, asked once, in strict mode whatever [options.strict] says, at
    the start of the iteration; a readme that is absent or has no text
    stays as it is. When the iteration throws, no file has changed and
    nothing was written. *)
Theorem iteration_writes_one_file_or_none options location l (w : World) :
  let path := resolve location SPEC_FILE_NAME in
  let out := transliteratePair options location (readJson path) l w in
  match out.2 with
  | Ok _ =>
      exists a0 a,
        disk w !! path = Some (JsonFile a0) /\
        disk out.1 = <[outputPath location l := JsonFile a]> (disk w) /\
        withoutTranslations a = withoutTranslations a0 /\
        readmeTranslated l location (rosetta w) a0 (readme a) /\
        exists events,
          trace out.1 = (trace w ++ events)%list /\
          written events = [outputPath location l]
  | Throw _ =>
      disk out.1 = disk w /\
      exists events, trace out.1 = (trace w ++ events)%list /\ written events = []
  end.
Proof. exact (transliteratePair_outcome options location l w). Qed.

End Iteration.

(** ** The map of loaders *)

Lemma addKey_elem keys d k : k ∈ addKey keys d <-> k = d \/ k ∈ keys.
Proof.
  induction keys as [|k' keys IH]; cbn.
  - rewrite list_elem_of_singleton. split; [auto|].
    intros [->|Hin]; [reflexivity | inversion Hin].
  - destruct (String.eqb k' d) eqn:Heq.
    + apply String.eqb_eq in Heq. subst k'. rewrite elem_of_cons. tauto.
    + rewrite !elem_of_cons, IH. tauto.
Qed.

Lemma fold_addKey_elem ds : forall keys k,
  k ∈ fold_left addKey ds keys <-> k ∈ ds \/ k ∈ keys.
Proof.
  induction ds as [|d ds IH]; intros keys k; cbn [fold_left].
  - split; [auto|]. intros [Hin|Hin]; [inversion Hin | exact Hin].
  - rewrite IH, addKey_elem, elem_of_cons. tauto.
Qed.

Lemma mapKeys_elem ds k : k ∈ mapKeys ds <-> k ∈ ds.
Proof.
  unfold mapKeys. rewrite fold_addKey_elem. split; [|auto].
  intros [Hin|Hin]; [exact Hin | inversion Hin].
Qed.

Lemma mapSet_addKey {V} (m : list (string * V)) d v :
  map fst (mapSet m d v) = addKey (map fst m) d.
Proof.
  induction m as [|[k v'] m IH]; cbn; [reflexivity|].
  destruct (String.eqb k d); cbn; [reflexivity|]. rewrite IH. reflexivity.
Qed.

Section Loaders.
Context `{RosettaEngine}.

Lemma mapSet_loaderOf m d :
  m = map loaderOf (map fst m) ->
  mapSet m d (loaderOf d).2 = map loaderOf (addKey (map fst m) d).
Proof.
  induction m as [|[k v] m IH]; cbn; [reflexivity|]. intros Hm.
  injection Hm as Hv Hm.
  destruct (String.eqb k d) eqn:Heq; cbn.
  - apply String.eqb_eq in Heq. subst k. rewrite <- Hm. reflexivity.
  - subst v. f_equal. apply IH, Hm.
Qed.

Lemma loadAssembliesInto_returns directories : forall m w m',
  m = map loaderOf (map fst m) ->
  (loadAssembliesInto directories m w).2 = Ok m' ->
  m' = map loaderOf (fold_left addKey directories (map fst m)).
Proof.
  induction directories as [|d ds IH]; intros m w m' Hm Hr; cbn in Hr.
  - injection Hr as <-. exact Hm.
  - unfold bind in Hr.
    destruct (readJson _ w) as [w1 [copy|e]]; [|discriminate].
    destruct (callAddAssembly copy d w1) as [w2 [[]|e]]; [|discriminate].
    cbn [fold_left]. rewrite <- mapSet_addKey with (v := (loaderOf d).2).
    eapply IH; [|exact Hr].
    rewrite mapSet_addKey. apply mapSet_loaderOf, Hm.
Qed.

(** The map the loading phase hands to the loops: one loader per listed
    directory, at the place of the directory's first occurrence, each
    reading the assembly file of its own directory. *)
Lemma prepare_returns directories options w m :
  (prepare directories options w).2 = Ok m ->
  m = map loaderOf (mapKeys directories).
Proof.
  unfold prepare, bind. intros Hr.
  destruct (match tablet options with
            | Some path => if truthy path then callLoadTabletFromFile path else ret tt
            | None => ret tt
            end w) as [w1 [[]|e]]; [|discriminate].
  eapply (loadAssembliesInto_returns directories []); [reflexivity | exact Hr].
Qed.

Lemma outputs_planned directories ls :
  outputs ls (map loaderOf (mapKeys directories)) = planned directories ls.
Proof.
  unfold outputs, planned. induction (mapKeys directories) as [|d ds IH]; cbn; [reflexivity|].
  rewrite IH. reflexivity.
Qed.

End Loaders.

(** ** The order of the writes *)

Section Plan.
Context `{RosettaEngine}.

Lemma within_ret {A} (a : A) : writesWithin (ret a) [].
Proof. intros w. exists []. cbn. rewrite app_nil_r. auto. Qed.

Lemma within_bind {A B} (c : M A) (k : A -> M B) p1 p2 :
  writesWithin c p1 -> (forall a, writesWithin (k a) p2) ->
  writesWithin (bind c k) (p1 ++ p2).
Proof.
  intros Hc Hk w. unfold bind.
  destruct (Hc w) as (e1 & Ht1 & Hp1 & Hr1).
  destruct (c w) as [w1 [a|e]]; cbn [fst snd] in *.
  - destruct (Hk a w1) as (e2 & Ht2 & Hp2 & Hr2).
    exists (e1 ++ e2)%list. rewrite Ht2, Ht1, app_assoc, written_app.
    rewrite Hr1 by eauto. split; [reflexivity|].
    split; [apply prefix_app, Hp2|]. intros Hok. rewrite Hr2 by exact Hok. reflexivity.
  - exists e1. split; [exact Ht1|]. split; [apply prefix_app_r, Hp1|].
    intros (b & Hb). discriminate.
Qed.

Lemma within_forM_ {A} (body : A -> M unit) (paths : A -> list string) xs :
  (forall x, x ∈ xs -> writesWithin (body x) (paths x)) ->
  writesWithin (forM_ body xs) (flat_map paths xs).
Proof.
  induction xs as [|x xs IH]; intros Hbody; cbn [forM_ flat_map].
  - apply within_ret.
  - apply within_bind; [apply Hbody; left|]. intros _. apply IH.
    intros y Hy. apply Hbody. right. exact Hy.
Qed.

Lemma within_nothing {A} P (c : M A) :
  (forall events, Forall P events -> written events = []) ->
  preserves (evolves P) c -> writesWithin c [].
Proof.
  intros HP Hc w. destruct (Hc w) as (events & Ht & Hev & _).
  exists events. rewrite (HP _ Hev). auto.
Qed.

Lemma within_writeJson path copy : writesWithin (writeJson path copy) [path].
Proof.
  intros w. unfold writeJson. destruct (heap w !! copy) as [a|]; cbn.
  - exists [EvWriteJson path a]. auto.
  - exists []. rewrite app_nil_r. split; [reflexivity|].
    split; [apply prefix_nil|]. intros (u & Hu). discriminate.
Qed.

Lemma within_deref copy : writesWithin (deref copy) [].
Proof.
  intros w. exists []. rewrite app_nil_r. unfold deref.
  destruct (heap w !! copy); auto.
Qed.

Lemma within_debug message : writesWithin (emit (EvDebug message)) [].
Proof. intros w. exists [EvDebug message]. auto. Qed.

Lemma within_transliteratePair options location path l :
  writesWithin
    (transliteratePair options location (readJson (resolve path SPEC_FILE_NAME)) l)
    [outputPath location l].
Proof.
  unfold transliteratePair.
  change [outputPath location l] with ([] ++ [outputPath location l] ++ [] ++ [])%list.
  apply within_bind.
  { eapply within_nothing; [apply written_copy_events | apply preserves_transliterateCopy]. }
  intros result. apply within_bind; [apply within_writeJson|]. intros _.
  apply within_bind; [apply within_deref|]. intros a. apply within_debug.
Qed.

Lemma within_transliterateAll options ls directories :
  writesWithin (transliterateAll options ls (map loaderOf directories))
    (outputs ls (map loaderOf directories)).
Proof.
  unfold transliterateAll, outputs. apply within_forM_.
  intros [location loader] Hin.
  apply list_elem_of_In, in_map_iff in Hin as (d & Heq & _).
  injection Heq as <- <-. cbn [fst].
  rewrite <- flat_map_singleton.
  apply within_forM_. intros l _. apply within_transliteratePair.
Qed.

Lemma within_processing directories ls options :
  writesWithin (processing directories ls options) (planned directories ls).
Proof.
  unfold processing. intros w. unfold bind.
  pose proof (prepare_returns directories options w) as Hm.
  pose proof (preserves_prepare directories options w) as (e1 & Ht1 & Hload & _).
  apply written_load_events in Hload.
  destruct (prepare directories options w) as [w1 [m|e]]; cbn [fst snd] in *.
  - rewrite (Hm m eq_refl).
    destruct (within_transliterateAll options ls (mapKeys directories) w1)
      as (e2 & Ht2 & Hp2 & Hr2).
    rewrite outputs_planned in Hp2, Hr2.
    exists (e1 ++ e2)%list. rewrite Ht2, Ht1, app_assoc, written_app, Hload. auto.
  - exists e1. rewrite Hload. split; [exact Ht1|]. split; [apply prefix_nil|].
    intros (u & Hu). discriminate.
Qed.

Lemma within_reportDiagnostics options : writesWithin (reportDiagnostics options) [].
Proof.
  eapply within_nothing with (P := fun e => exists text, e = EvPrintDiagnostics text).
  - induction 1 as [|e events (text & ->) _ IH]; [reflexivity | exact IH].
  - apply preserves_reportDiagnostics. eauto.
Qed.

End Plan.

Section Runs.
Context `{RosettaEngine}.

(** X8. The files of a run are written in the order of the two loops: for
    each directory of the list, at the place of its first occurrence, one
    file per entry of the list of languages, in order. Whatever way the run
    ends, the files written so far are an initial part of that list; they
    are the whole list when the run returns or ends in the exception of the
    strict mode. *)
Theorem writes_follow_the_plan (directories ls : list string)
    (options : TransliterateAssemblyOptions) (files : gmap string File) :
  let run := transliterateAssembly directories ls options files in
  written (trace run.1) `prefix_of` planned directories ls /\
  (run.2 = Ok tt \/ run.2 = Throw strictModeError ->
   written (trace run.1) = planned directories ls).
Proof.
  intros run. subst run. unfold transliterateAssembly, bind.
  destruct (within_processing directories ls options (initialWorld ls options files))
    as (e1 & Ht1 & Hp1 & Hr1).
  pose proof (raises_processing directories ls options (initialWorld ls options files))
    as Hraise.
  destruct (processing directories ls options (initialWorld ls options files))
    as [w1 [[]|e]]; cbn [fst snd] in *.
  - destruct (within_reportDiagnostics options w1) as (e2 & Ht2 & Hp2 & _).
    apply prefix_nil_inv in Hp2.
    rewrite Ht2, Ht1. cbn [initialWorld trace app].
    rewrite written_app, Hp2, app_nil_r, Hr1 by eauto. auto.
  - rewrite Ht1. cbn [initialWorld trace app]. split; [exact Hp1|].
    intros [Hok|Hs]; [discriminate|]. injection Hs as ->.
    destruct (Hraise _ eq_refl). reflexivity.
Qed.

(** *** What the files hold *)

#[export] Instance keepsTransliterations_preorder files directories ls :
  PreOrder (keepsTransliterations files directories ls).
Proof.
  split; [intros w; exact id|]. intros w1 w2 w3 H12 H23 Hw. apply H23, H12, Hw.
Qed.

Lemma quiet_keeps {A} files directories ls (c : M A) :
  quiet c -> preserves (keepsTransliterations files directories ls) c.
Proof.
  intros Hq w (Ho & Hw & Hn). destruct (Hq w) as (Hd & Ht).
  unfold transliterations. rewrite Hd, Ht. auto.
Qed.

Lemma quiet_evolves {A} P (c : M A) :
  (forall events, Forall P events -> written events = []) ->
  preserves (evolves P) c -> quiet c.
Proof.
  intros HP Hc w. destruct (Hc w) as (ev & Ht & Hev & Hd & _).
  rewrite Hd, Ht, written_app, (HP _ Hev), app_nil_r.
  split; [apply replay_no_writes, HP, Hev | reflexivity].
Qed.

Lemma transliteratePair_keeps files directories ls options d l :
  d ∈ directories -> l ∈ ls -> singleSegment l = true ->
  preserves (keepsTransliterations files directories ls)
    (transliteratePair options d (readJson (resolve d SPEC_FILE_NAME)) l).
Proof.
  intros Hd Hl Hseg w (Ho & Hw & Hn).
  pose proof (transliteratePair_outcome options d l w) as Hout.
  destruct (transliteratePair _ _ _ _ w) as [w1 [[]|e]]; cbn [fst snd] in *.
  - destruct Hout as (a0 & a & Hfile & Hdisk & Hsame & _ & events & Ht & Hev).
    assert (Hnew : exists d0 l0 a1 a2,
               d0 ∈ directories /\ l0 ∈ ls /\ outputPath d l = outputPath d0 l0 /\
               files !! resolve d0 SPEC_FILE_NAME = Some (JsonFile a1) /\
               disk w1 !! outputPath d l = Some (JsonFile a2) /\
               withoutTranslations a2 = withoutTranslations a1).
    { exists d, l, a0, a. rewrite Hdisk, lookup_insert_eq, <- Ho. auto 10. }
    split; [|split].
    + intros d'. rewrite Hdisk, lookup_insert_ne by (apply outputPath_not_original, Hseg).
      apply Ho.
    + intros path Hin. rewrite Ht, written_app, Hev in Hin.
      destruct (decide (path = outputPath d l)) as [->|Hne]; [exact Hnew|].
      apply elem_of_app in Hin as [Hin|Hin].
      * destruct (Hw path Hin) as (d0 & l0 & a1 & a2 & H1 & H2 & H3 & H4 & H5 & H6).
        exists d0, l0, a1, a2. rewrite Hdisk, lookup_insert_ne by auto. auto 10.
      * apply list_elem_of_singleton in Hin. contradiction.
    + intros path Hnot. rewrite Ht, written_app, Hev in Hnot.
      rewrite Hdisk, lookup_insert_ne.
      * apply Hn. intros Hin. apply Hnot, elem_of_app. auto.
      * intros <-. apply Hnot, elem_of_app. right. left.
  - destruct Hout as (Hdisk & events & Ht & Hev).
    unfold transliterations. rewrite Hdisk, Ht, written_app, Hev, app_nil_r. auto.
Qed.

Lemma transliterateAll_keeps files directories ls options keys :
  (forall d, d ∈ keys -> d ∈ directories) ->
  forallb singleSegment ls = true ->
  preserves (keepsTransliterations files directories ls)
    (transliterateAll options ls (map loaderOf keys)).
Proof.
  intros Hkeys Hls. unfold transliterateAll.
  pres_loop. intros [location loader] Hin.
  apply list_elem_of_In, in_map_iff in Hin as (d & Heq & Hd).
  injection Heq as <- <-.
  pres_loop. intros l Hl. apply transliteratePair_keeps; auto.
  - apply Hkeys, list_elem_of_In, Hd.
  - rewrite forallb_forall in Hls. apply Hls, list_elem_of_In, Hl.
Qed.

Lemma run_keeps files directories ls options :
  forallb singleSegment ls = true ->
  preserves (keepsTransliterations files directories ls)
    (processing directories ls options ;; reportDiagnostics options).
Proof.
  intros Hls. pres_bind.
  - intros w. unfold processing, bind.
    pose proof (prepare_returns directories options w) as Hm.
    pose proof (quiet_keeps files directories ls _
                  (quiet_evolves _ _ written_load_events
                     (preserves_prepare directories options)) w) as Hp.
    destruct (prepare directories options w) as [w1 [m|e]]; cbn [fst snd] in *;
      [|exact Hp].
    rewrite (Hm m eq_refl). etransitivity; [exact Hp|].
    apply transliterateAll_keeps; [|exact Hls]. intros d. apply mapKeys_elem.
  - intros _. apply quiet_keeps.
    eapply quiet_evolves with (P := fun e => exists text, e = EvPrintDiagnostics text).
    + induction 1 as [|e events (text & ->) _ IH]; [reflexivity | exact IH].
    + apply preserves_reportDiagnostics. eauto.
Qed.

(** X9. What a run leaves in the files, however it ends. A path that was
    written holds the output for a listed directory and a requested
    language, and that output is the assembly of the directory as it was
    before the run, but for the translations: the text of the readme and
    the examples the walk reaches. A path that was not written holds what it
    held. The languages are single path segments, as the target languages
    are. *)
Theorem written_files_are_transliterated_copies (directories ls : list string)
    (options : TransliterateAssemblyOptions) (files : gmap string File) (path : string) :
  forallb singleSegment ls = true ->
  let run := transliterateAssembly directories ls options files in
  (path ∈ written (trace run.1) ->
   exists d l a0 a,
     d ∈ directories /\ l ∈ ls /\ path = outputPath d l /\
     files !! resolve d SPEC_FILE_NAME = Some (JsonFile a0) /\
     disk run.1 !! path = Some (JsonFile a) /\
     withoutTranslations a = withoutTranslations a0) /\
  (path ∉ written (trace run.1) -> disk run.1 !! path = files !! path).
Proof.
  intros Hls run.
  assert (Hrun : transliterations files directories ls run.1).
  { apply (run_keeps files directories ls options Hls (initialWorld ls options files)).
    split; [reflexivity|]. split; [|reflexivity].
    intros p Hin. inversion Hin. }
  destruct Hrun as (_ & Hw & Hn). split; [apply Hw | apply Hn].
Qed.

End Runs.

(** ** The tablet and the loading of the assemblies *)

Lemma isPair_notTablet `{RosettaEngine} ls e : isPairEvent ls e -> notTablet e.
Proof. destruct e; cbn; tauto. Qed.

Lemma tablet_events paths :
  registrations (map EvLoadTablet paths) = [] /\
  written (map EvLoadTablet paths) = [] /\
  docsCalls (map EvLoadTablet paths) = [].
Proof. induction paths as [|p paths IH]; [auto | exact IH]. Qed.

Section Loading.
Context `{RosettaEngine}.

Lemma run_after_tablet directories ls options files :
  transliterateAssembly directories ls options files
  = match loadTablet options (initialWorld ls options files) with
    | (w, Ok _) => afterTablet directories ls options w
    | (w, Throw e) => (w, Throw e)
    end.
Proof.
  unfold transliterateAssembly, processing, prepare, afterTablet, loadTablet, bind.
  destruct (match tablet options with
            | Some path => if truthy path then callLoadTabletFromFile path else ret tt
            | None => ret tt
            end (initialWorld ls options files)) as [w [[]|e]]; reflexivity.
Qed.

Lemma preserves_loading P directories :
  (forall path copy a, P (EvReadJson path copy a)) ->
  (forall d copy, P (EvAddAssembly d copy)) ->
  forall m, preserves (evolves P) (loadAssembliesInto directories m).
Proof.
  intros Hread Hadd.
  induction directories as [|d ds IH]; intros m; cbn [loadAssembliesInto].
  - apply preserves_ret; typeclasses eauto.
  - pres_bind; [apply preserves_readJson; intros; apply Hread|]. intros copy.
    pres_bind; [apply preserves_callAddAssembly; apply Hadd|]. intros _. apply IH.
Qed.

Lemma afterTablet_notTablet directories ls options :
  preserves (evolves notTablet) (afterTablet directories ls options).
Proof.
  unfold afterTablet.
  pres_bind; [|intros _; apply preserves_reportDiagnostics; intros; exact I].
  intros w. unfold bind, loadAssemblies.
  pose proof (loadAssembliesInto_rereads directories [] w (List.Forall_nil _)) as Hre.
  pose proof (preserves_loading notTablet directories
                (fun _ _ _ => I) (fun _ _ => I) [] w) as Hp.
  destruct (loadAssembliesInto directories [] w) as [w1 [m|e]]; cbn [fst snd] in *;
    [|exact Hp].
  etransitivity; [exact Hp|].
  eapply preserves_mono; [apply isPair_notTablet|].
  apply preserves_transliterateAll, Hre. reflexivity.
Qed.

(** X7. The tablet named by [options.tablet], when one is given and its
    path is not empty, is loaded once, before anything else is done: it is
    the first call of the run and no later call loads a tablet. When it
    fails to load, the run ends in that failure with no file read, no
    assembly registered and nothing written. With no tablet, or an empty
    path, no tablet is loaded at all. *)
Theorem tablet_is_loaded_first (directories ls : list string)
    (options : TransliterateAssemblyOptions) (files : gmap string File) :
  let run := transliterateAssembly directories ls options files in
  if tabletLoads ls options then
    exists events,
      trace run.1 = (map EvLoadTablet (tabletPaths options) ++ events)%list /\
      Forall notTablet events
  else
    exists message,
      run = (initialWorld ls options files, Throw (CollaboratorError message)).
Proof.
  intros run. subst run. rewrite run_after_tablet.
  unfold tabletLoads, tabletPaths, loadTablet.
  destruct (tablet options) as [path|]; [destruct (truthy path)|]; cbn [forallb map app].
  - unfold callLoadTabletFromFile. cbn [rosetta initialWorld].
    destruct (loadTabletFromFile path _) as [r|message]; cbn [andb].
    + match goal with |- context [afterTablet _ _ _ ?w] =>
        destruct (afterTablet_notTablet directories ls options w)
          as (events & Ht & Hev & _) end.
      exists events. split; [exact Ht | exact Hev].
    + eauto.
  - destruct (afterTablet_notTablet directories ls options (initialWorld ls options files))
      as (events & Ht & Hev & _).
    exists events. split; [exact Ht | exact Hev].
  - destruct (afterTablet_notTablet directories ls options (initialWorld ls options files))
      as (events & Ht & Hev & _).
    exists events. split; [exact Ht | exact Hev].
Qed.

Lemma loading_stops d post pre : forall m w,
  registers (disk w) pre (rosetta w) = true -> ~ readable (disk w) d ->
  exists w' events,
    loadAssembliesInto (pre ++ d :: post) m w
    = (w', Throw (readError (disk w) (resolve d SPEC_FILE_NAME))) /\
    disk w' = disk w /\ trace w' = (trace w ++ events)%list /\
    registrations events = pre /\ written events = [] /\ docsCalls events = [].
Proof.
  induction pre as [|p pre IH]; intros m w Hpre Hd.
  - exists w, []. rewrite app_nil_r. cbn [app loadAssembliesInto].
    unfold bind, readJson, readError.
    destruct (disk w !! resolve d SPEC_FILE_NAME) as [[a|text]|] eqn:Hfile; auto 10.
    destruct Hd. exists a. exact Hfile.
  - cbn [registers] in Hpre.
    destruct (disk w !! resolve p SPEC_FILE_NAME) as [[a|text]|] eqn:Ha; try discriminate.
    destruct (addAssembly a p (rosetta w)) as [r|message] eqn:Hadd; [|discriminate].
    cbn [app]. rewrite (loadAssembliesInto_step p _ m w a r Ha Hadd).
    match goal with |- context [loadAssembliesInto _ ?m1 ?w1] =>
      destruct (IH m1 w1 Hpre Hd) as (w' & events & -> & Hdisk & Ht & Hreg & Hw & Hdocs) end.
    cbn [disk trace] in *.
    exists w', (EvReadJson (resolve p SPEC_FILE_NAME) (length (heap w)) a
                  :: EvAddAssembly p (length (heap w)) :: events).
    rewrite Ht, <- !app_assoc.
    repeat split; auto.
    change (registrations (_ :: _ :: events)) with (p :: registrations events).
    rewrite Hreg. reflexivity.
Qed.

(** X6. A directory of the list with no assembly that can be read stops the
    run where it stands in the list, when the loading gets that far (the
    tablet, if one is asked for, loads, and every directory listed before
    has an assembly that can be read and that the engine registers): the
    run ends in the exception of that read (the file is missing, or is no
    JSON), after registering the directories listed before it and none
    listed after it. No iteration is started: no file is written or changed
    and no documentation is translated, also for the directories that were
    read. *)
Theorem unreadable_directory_stops_the_run (pre post ls : list string) (d : string)
    (options : TransliterateAssemblyOptions) (files : gmap string File) :
  loadingSucceeds files pre ls options = true ->
  ~ readable files d ->
  let run := transliterateAssembly (pre ++ d :: post) ls options files in
  run.2 = Throw (readError files (resolve d SPEC_FILE_NAME)) /\
  disk run.1 = files /\
  registrations (trace run.1) = pre /\
  written (trace run.1) = [] /\
  docsCalls (trace run.1) = [].
Proof.
  intros Hload Hd run. subst run. rewrite run_after_tablet.
  unfold loadingSucceeds in Hload.
  pose proof (tablet_step ls options files) as Hstep.
  destruct (rosettaAfterTablet ls options) as [r|message]; [|discriminate].
  rewrite Hstep.
  unfold afterTablet, loadAssemblies, bind.
  match goal with |- context [loadAssembliesInto _ _ ?w0] =>
    destruct (loading_stops d post pre [] w0 Hload Hd)
      as (w' & events & -> & Hdisk & Ht & Hreg & Hw & Hdocs) end.
  cbn [fst snd disk trace] in *.
  destruct (tablet_events (tabletPaths options)) as (Hr0 & Hw0 & Hd0).
  rewrite Ht, registrations_app, written_app, docsCalls_app, Hr0, Hw0, Hd0, Hreg, Hw, Hdocs.
  auto.
Qed.

End Loading.

(** ** No output is written twice *)

Section Once.
Context `{RosettaEngine}.

(** Two outputs at one path are for one language and one directory, which
    may be spelled in two ways. *)
Lemma outputPath_inj d l d' l' :
  singleSegment l = true -> singleSegment l' = true ->
  outputPath d l = outputPath d' l' ->
  resolve d SPEC_FILE_NAME = resolve d' SPEC_FILE_NAME /\ l = l'.
Proof.
  intros Hl Hl' Heq.
  rewrite (outputPath_prefix d l Hl), (outputPath_prefix d' l' Hl') in Heq.
  unfold singleSegment in Hl, Hl'. apply negb_true_iff in Hl, Hl'.
  assert (Hll : l = l').
  { apply (f_equal basename) in Heq.
    rewrite !basename_append in Heq
      by (unfold SPEC_FILE_NAME; rewrite !hasSlash_app, ?Hl, ?Hl'; reflexivity).
    eapply append_cancel_l, append_cancel_l, Heq. }
  subst l'. split; [|reflexivity].
  apply append_cancel_r in Heq. rewrite !assemblyPath_prefix, Heq. reflexivity.
Qed.

Lemma outputs_NoDup ls keys :
  NoDup ls -> forallb singleSegment ls = true ->
  NoDup (map (fun d => resolve d SPEC_FILE_NAME) keys) ->
  NoDup (flat_map (fun d => map (outputPath d) ls) keys).
Proof.
  intros Hls Hseg. rewrite forallb_forall in Hseg.
  assert (Hsingle : forall l, l ∈ ls -> singleSegment l = true)
    by (intros l Hl; apply Hseg, list_elem_of_In, Hl).
  assert (Hmap : forall d, NoDup (map (outputPath d) ls)).
  { intros d. clear Hseg. induction Hls as [|l ls Hl Hls IH]; cbn; constructor.
    - intros Hin. apply list_elem_of_In, in_map_iff in Hin as (l' & Heq & Hl').
      apply list_elem_of_In in Hl'.
      apply outputPath_inj in Heq as [_ ->];
        [contradiction | apply Hsingle; right; exact Hl' | apply Hsingle; left].
    - apply IH. intros l' Hl'. apply Hsingle. right. exact Hl'. }
  induction keys as [|d keys IH]; cbn [flat_map map]; intros Hkeys.
  - constructor.
  - apply NoDup_cons in Hkeys as [Hd Hkeys].
    apply NoDup_app. split; [apply Hmap|]. split; [|apply IH, Hkeys].
    intros p Hp Hin.
    apply list_elem_of_In, in_map_iff in Hp as (l & <- & Hl).
    apply list_elem_of_In, in_flat_map in Hin as (d' & Hd' & Hin).
    apply in_map_iff in Hin as (l' & Heq & Hl').
    apply outputPath_inj in Heq as [Heq _];
      [|apply Hsingle, list_elem_of_In, Hl' | apply Hsingle, list_elem_of_In, Hl].
    apply Hd. rewrite <- Heq.
    apply list_elem_of_In, (in_map (fun d => resolve d SPEC_FILE_NAME)), Hd'.
Qed.

(** X10. No output file is written twice in a run, however the run ends:
    with no language listed twice and no directory listed under two
    spellings (two entries that [path.resolve] takes to one place), each
    file is written at most once, also when a directory is listed more than
    once under one spelling. The languages are single path segments, as the
    target languages are. *)
Theorem each_output_is_written_once (directories ls : list string)
    (options : TransliterateAssemblyOptions) (files : gmap string File) :
  NoDup ls -> forallb singleSegment ls = true ->
  NoDup (map (fun d => resolve d SPEC_FILE_NAME) (mapKeys directories)) ->
  NoDup (written (trace (transliterateAssembly directories ls options files).1)).
Proof.
  intros Hls Hseg Hdirs.
  unfold transliterateAssembly, bind.
  destruct (within_processing directories ls options (initialWorld ls options files))
    as (e1 & Ht1 & [k1 Hp1] & _).
  pose proof (outputs_NoDup ls (mapKeys directories) Hls Hseg Hdirs) as Hplan.
  fold (planned directories ls) in Hplan.
  rewrite Hp1 in Hplan. apply NoDup_app in Hplan as (Hnd & _).
  destruct (processing directories ls options (initialWorld ls options files))
    as [w1 [[]|e]]; cbn [fst snd] in *.
  - destruct (within_reportDiagnostics options w1) as (e2 & Ht2 & Hp2 & _).
    apply prefix_nil_inv in Hp2.
    rewrite Ht2, Ht1. cbn [initialWorld trace app].
    rewrite written_app, Hp2, app_nil_r. exact Hnd.
  - rewrite Ht1. exact Hnd.
Qed.

End Once.

(** ** The calls of a walk that returns *)

Lemma followsNodes_app l n1 : forall n2 e1 e2,
  followsNodes l n1 e1 -> followsNodes l n2 e2 ->
  followsNodes l (n1 ++ n2) (e1 ++ e2).
Proof.
  induction n1 as [|node n1 IH]; intros n2 e1 e2 H1 H2; cbn [followsNodes app] in *.
  - subst e1. exact H2.
  - destruct (hasExample node).
    + destruct H1 as (tr & e' & -> & H1). exists tr, (e' ++ e2)%list. split; [reflexivity|].
      apply IH; assumption.
    + destruct H1 as (e' & -> & H1). exists (e' ++ e2)%list. split; [reflexivity|].
      apply IH; assumption.
Qed.

Section Calls.
Context `{RosettaEngine}.
Variables (language_ workingDirectory : string) (loose_ : bool).

Local Abbreviation tDocs := (transliterateDocs language_ workingDirectory loose_).
Local Abbreviation tType := (transliterateType language_ workingDirectory loose_).

Lemma walks_ret {A} (a : A) : walksOnReturn language_ (ret a) [].
Proof.
  intros w w' a' Hr. injection Hr as <- _. exists []. rewrite app_nil_r. split; reflexivity.
Qed.

Lemma walks_throw {A} e nodes : walksOnReturn language_ (@throw _ A e) nodes.
Proof. intros w w' a Hr. discriminate. Qed.

Lemma walks_bind {A B} (c : M A) (k : A -> M B) n1 n2 :
  walksOnReturn language_ c n1 -> (forall a, walksOnReturn language_ (k a) n2) ->
  walksOnReturn language_ (bind c k) (n1 ++ n2).
Proof.
  intros Hc Hk w w' b Hr.
  apply bind_returns in Hr as (w1 & a & Hcw & Hkw).
  destruct (Hc _ _ _ Hcw) as (e1 & Ht1 & H1).
  destruct (Hk a _ _ _ Hkw) as (e2 & Ht2 & H2).
  exists (e1 ++ e2)%list. rewrite Ht2, Ht1, app_assoc. split; [reflexivity|].
  apply followsNodes_app; assumption.
Qed.

Lemma walks_mapM {A} (body : A -> M A) (nodes : A -> list (option Docs)) xs :
  (forall x, walksOnReturn language_ (body x) (nodes x)) ->
  walksOnReturn language_ (mapM body xs) (flat_map nodes xs).
Proof.
  intros Hbody. induction xs as [|x xs IH]; cbn [mapM flat_map].
  - apply walks_ret.
  - apply walks_bind; [apply Hbody|]. intros x'.
    rewrite <- (app_nil_r (flat_map nodes xs)).
    apply walks_bind; [exact IH|]. intros xs'. apply walks_ret.
Qed.

Lemma walks_mapM_opt {A} (body : A -> M A) (nodes : A -> list (option Docs)) xs :
  (forall x, walksOnReturn language_ (body x) (nodes x)) ->
  walksOnReturn language_ (mapM_opt body xs) (flat_map nodes (default [] xs)).
Proof.
  intros Hbody. destruct xs as [l|]; cbn [mapM_opt default from_option id flat_map].
  - rewrite <- (app_nil_r (flat_map nodes l)).
    apply walks_bind; [apply walks_mapM, Hbody|]. intros l'. apply walks_ret.
  - apply walks_ret.
Qed.

Lemma walks_transliterateDocs node : walksOnReturn language_ (tDocs node) [node].
Proof.
  intros w w' a Hr. unfold transliterateDocs in Hr.
  apply bind_returns in Hr as (w1 & [] & Hemit & Hr).
  injection Hemit as <-. cbn [followsNodes]. unfold hasExample.
  destruct node as [d|]; [destruct (example d) as [text|]; [destruct (truthy text)|]|].
  - apply bind_returns in Hr as (w2 & snippet & Hfix & Hr).
    unfold callFixturize in Hfix. destruct (fixturize _ _); [|discriminate].
    injection Hfix as <- <-.
    apply bind_returns in Hr as (w3 & translation & Hcall & Hr).
    unfold callTranslateSnippet in Hcall.
    destruct (translateSnippet _ _ _) as [[tr r]|m]; [|discriminate].
    injection Hcall as <- <-.
    assert (Hw' : w' = mkWorld _ (disk w) (heap w) r
                         (trace w ++ [EvDocs (Some d); EvTranslateSnippet language_ tr]))
      by (cbn [disk heap trace] in Hr; rewrite <- app_assoc in Hr;
          destruct tr; injection Hr as <- _; reflexivity).
    subst w'. eexists. split; [reflexivity|]. eauto.
  - injection Hr as <- _. eexists. split; [reflexivity|]. eauto.
  - injection Hr as <- _. eexists. split; [reflexivity|]. eauto.
  - injection Hr as <- _. eexists. split; [reflexivity|]. eauto.
Qed.

Lemma walks_step {A} node (build : option Docs -> A) :
  walksOnReturn language_ (d <- tDocs node ;; ret (build d)) [node].
Proof.
  change [node] with ([node] ++ [])%list.
  apply walks_bind; [apply walks_transliterateDocs|]. intros d. apply walks_ret.
Qed.

Lemma walks_method m :
  walksOnReturn language_ (transliterateMethod language_ workingDirectory loose_ m)
    (methodNodes m).
Proof.
  unfold transliterateMethod, methodNodes.
  change (method_docs m :: ?l) with ([method_docs m] ++ l)%list.
  apply walks_bind; [apply walks_transliterateDocs|]. intros d.
  rewrite <- (app_nil_r (map _ _)), <- flat_map_singleton.
  apply walks_bind; [|intros; apply walks_ret].
  apply walks_mapM_opt. intros p. apply walks_step.
Qed.

Lemma walks_caseInterface t :
  walksOnReturn language_ (caseInterface language_ workingDirectory loose_ t)
    (interfaceNodes t).
Proof.
  unfold caseInterface, interfaceNodes.
  apply walks_bind; [apply walks_mapM_opt, walks_method|]. intros ms.
  rewrite <- (app_nil_r (map _ _)), <- flat_map_singleton.
  apply walks_bind; [|intros; apply walks_ret].
  apply walks_mapM_opt. intros p. apply walks_step.
Qed.

Lemma walks_caseClass t :
  walksOnReturn language_ (caseClass language_ workingDirectory loose_ t)
    (initializerNode t :: interfaceNodes t).
Proof.
  unfold caseClass.
  change (initializerNode t :: ?l) with ([initializerNode t] ++ l)%list.
  apply walks_bind.
  - unfold initializerNode. destruct (initializer t) as [init|]; apply walks_step.
  - intros i. apply (walks_caseInterface (mkType _ _ _ _ _ _)).
Qed.

Lemma walks_caseEnum t :
  walksOnReturn language_ (caseEnum language_ workingDirectory loose_ t)
    (map member_docs (default [] (members t))).
Proof.
  unfold caseEnum. destruct (members t) as [ms|]; [|apply walks_throw].
  cbn [default from_option id].
  rewrite <- (app_nil_r (map _ _)), <- flat_map_singleton.
  apply walks_bind; [|intros; apply walks_ret].
  apply walks_mapM. intros m. apply walks_step.
Qed.

Lemma walks_transliterateType t : walksOnReturn language_ (tType t) (typeNodes t).
Proof.
  unfold transliterateType, typeNodes. cbn [kind].
  destruct (kind t) as [| | |tag];
    change (docs t :: ?l) with ([docs t] ++ l)%list;
    (apply walks_bind; [apply walks_transliterateDocs|]); intros d.
  - apply (walks_caseClass (mkType _ _ _ _ _ _)).
  - apply (walks_caseInterface (mkType _ _ _ _ _ _)).
  - apply (walks_caseEnum (mkType _ _ _ _ _ _)).
  - apply walks_throw.
Qed.

End Calls.

Lemma followsNodes_calls l nodes : forall events,
  followsNodes l nodes events ->
  docsCalls events = nodes /\
  snippetCalls events = map (fun _ => l) (filter (fun n => hasExample n = true) nodes).
Proof.
  induction nodes as [|node nodes IH]; intros events Hf; cbn [followsNodes] in Hf.
  - subst events. split; reflexivity.
  - rewrite filter_cons. destruct (hasExample node) eqn:Hex.
    + destruct Hf as (tr & e' & -> & Hf). destruct (IH _ Hf) as (Hd & Hs).
      rewrite decide_True by reflexivity. cbn [map].
      split; [rewrite <- Hd | rewrite <- Hs]; reflexivity.
    + destruct Hf as (e' & -> & Hf). destruct (IH _ Hf) as (Hd & Hs).
      rewrite decide_False by discriminate.
      split; [rewrite <- Hd | rewrite <- Hs]; reflexivity.
Qed.

(** ** The walk of one type *)

Section Walks.
Context `{RosettaEngine}.
Variables (language_ workingDirectory : string) (loose_ : bool).

Local Abbreviation tType := (transliterateType language_ workingDirectory loose_).

(** X1. For an interface, the calls of the translation callback are
    exactly: the type's own Docs node, then every method with its
    parameters, then every property, in order; absent collections add
    nothing. Nothing is done for an initializer or for members: when the
    walk returns, the type has its kind, its initializer and its members as
    they were. When a collaborator throws from inside the callback, the
    calls made are an initial part of that list. *)
Theorem interface_walk_visits_methods_then_properties (t : Type_) (w : World) :
  kind t = InterfaceKind ->
  exists events,
    trace (tType t w).1 = (trace w ++ events)%list /\
    ((docsCalls events = docs t :: interfaceNodes t /\
      exists t', (tType t w).2 = Ok t' /\ kind t' = kind t /\
                 initializer t' = initializer t /\ members t' = members t) \/
     (exists message, (tType t w).2 = Throw (CollaboratorError message) /\
                      docsCalls events `prefix_of` (docs t :: interfaceNodes t))).
Proof.
  intros Hk.
  destruct (walkSpec_interface language_ workingDirectory loose_ t Hk w)
    as (_ & _ & events & Ht & _ & [[Hn (t' & Hr & Hk' & Hi & Hm)] | Hthrow]);
    exists events; split; auto. left; eauto 10.
Qed.

(** X2. A walk that returns hands back the type it was given but for the
    examples of the nodes it visits: the kind, the names, the summaries,
    the number and order of methods, parameters, properties and members are
    the same, an absent node or collection stays absent, and the parameters
    of the initializer come back whole, examples included. *)
Theorem walk_changes_only_examples (t t' : Type_) (w w' : World) :
  tType t w = (w', Ok t') ->
  withoutExamples t' = withoutExamples t.
Proof. apply returnsOnly_transliterateType. Qed.

(** X3. The walk of a type none of whose nodes has an example to translate
    (each example is absent or empty) only makes its calls of the callback:
    it returns the type as it was given, asks nothing of [fixturize] or of
    [translateSnippet], leaves the [Rosetta] instance, the files and the
    copies as they are, and throws nothing. *)
Theorem walk_without_examples_is_silent (t : Type_) (w : World) :
  walkable t = true ->
  forallb (fun n => negb (hasExample n)) (typeNodes t) = true ->
  tType t w = (recorded w (map EvDocs (typeNodes t)), Ok t).
Proof. intros Hwalk Hno. apply skips_transliterateType; assumption. Qed.

(** X4. In a walk that returns, [translateSnippet] is called once for each
    node that has an example to translate (present and not empty), right
    after the callback is called on that node, and for the target language;
    it is called for no other node. The nodes are those of the type's kind,
    in the order of the walk. *)
Theorem walk_asks_one_translation_per_example (t t' : Type_) (w w' : World) :
  tType t w = (w', Ok t') ->
  exists events,
    trace w' = (trace w ++ events)%list /\
    followsNodes language_ (typeNodes t) events /\
    docsCalls events = typeNodes t /\
    snippetCalls events
    = map (fun _ => language_) (filter (fun n => hasExample n = true) (typeNodes t)).
Proof.
  intros Hr.
  destruct (walks_transliterateType language_ workingDirectory loose_ t w w' t' Hr)
    as (events & Ht & Hf).
  exists events. split; [exact Ht|]. split; [exact Hf|].
  apply followsNodes_calls with (l := language_), Hf.
Qed.

End Walks.

(** ** What a run reads *)

Lemma readPaths_app e1 e2 : readPaths (e1 ++ e2) = (readPaths e1 ++ readPaths e2)%list.
Proof. apply omap_app. Qed.

Lemma readPaths_none events : Forall notRead events -> readPaths events = [].
Proof.
  induction 1 as [|e events He _ IH]; [reflexivity|].
  destruct e; cbn in *; try contradiction; exact IH.
Qed.

Lemma isWalker_notRead e : isWalkerEvent e -> notRead e.
Proof. destruct e; cbn; tauto. Qed.

Section Reads.
Context `{RosettaEngine}.

Lemma reads_ret {A} (a : A) : readsWithin (ret a) [].
Proof. intros w. exists []. cbn. rewrite app_nil_r. auto. Qed.

Lemma reads_bind {A B} (c : M A) (k : A -> M B) p1 p2 :
  readsWithin c p1 -> (forall a, readsWithin (k a) p2) ->
  readsWithin (bind c k) (p1 ++ p2).
Proof.
  intros Hc Hk w. unfold bind.
  destruct (Hc w) as (e1 & Ht1 & Hp1 & Hr1).
  destruct (c w) as [w1 [a|e]]; cbn [fst snd] in *.
  - destruct (Hk a w1) as (e2 & Ht2 & Hp2 & Hr2).
    exists (e1 ++ e2)%list. rewrite Ht2, Ht1, app_assoc, readPaths_app.
    rewrite Hr1 by eauto. split; [reflexivity|].
    split; [apply prefix_app, Hp2|]. intros Hok. rewrite Hr2 by exact Hok. reflexivity.
  - exists e1. split; [exact Ht1|]. split; [apply prefix_app_r, Hp1|].
    intros (b & Hb). discriminate.
Qed.

Lemma reads_forM_ {A} (body : A -> M unit) (paths : A -> list string) xs :
  (forall x, x ∈ xs -> readsWithin (body x) (paths x)) ->
  readsWithin (forM_ body xs) (flat_map paths xs).
Proof.
  induction xs as [|x xs IH]; intros Hbody; cbn [forM_ flat_map].
  - apply reads_ret.
  - apply reads_bind; [apply Hbody; left|]. intros _. apply IH.
    intros y Hy. apply Hbody. right. exact Hy.
Qed.

Lemma reads_nothing {A} (c : M A) :
  preserves (evolves notRead) c -> readsWithin c [].
Proof.
  intros Hc w. destruct (Hc w) as (events & Ht & Hev & _).
  exists events. rewrite (readPaths_none _ Hev). auto.
Qed.

Lemma reads_readJson path : readsWithin (readJson path) [path].
Proof.
  intros w. unfold readJson. destruct (disk w !! path) as [[a|text]|]; cbn.
  - eexists [_]. auto.
  - exists []. rewrite app_nil_r. split; [reflexivity|].
    split; [apply prefix_nil|]. intros (u & Hu). discriminate.
  - exists []. rewrite app_nil_r. split; [reflexivity|].
    split; [apply prefix_nil|]. intros (u & Hu). discriminate.
Qed.

Lemma reads_transliteratePair options location path l :
  readsWithin (transliteratePair options location (readJson path) l) [path].
Proof.
  unfold transliteratePair, transliterateCopy.
  change [path] with (([path] ++ []) ++ [])%list.
  apply reads_bind.
  - apply reads_bind; [apply reads_readJson|]. intros result.
    apply reads_nothing. repeat pres_step.
    + apply preserves_callTranslateSnippetsInMarkdown. exact I.
    + pres_loop. intros [i t] _.
      pres_bind; [|intros; apply preserves_modify].
      eapply preserves_mono; [apply isWalker_notRead | apply preserves_transliterateType].
  - intros result. apply reads_nothing.
    pres_bind; [apply preserves_writeJson; intros; exact I|]. intros _.
    repeat pres_step. apply preserves_emit; cbn; auto.
Qed.

Lemma reads_transliterateAll options ls directories :
  readsWithin (transliterateAll options ls (map loaderOf directories))
    (flat_map (fun d => map (fun _ => resolve d SPEC_FILE_NAME) ls) directories).
Proof.
  unfold transliterateAll.
  induction directories as [|d ds IH]; cbn [map forM_ flat_map]; [apply reads_ret|].
  apply reads_bind; [|intros _; exact IH]. cbn [loaderOf].
  rewrite <- flat_map_singleton.
  apply reads_forM_. intros l _. apply reads_transliteratePair.
Qed.

Lemma reads_loadAssembliesInto directories : forall m,
  readsWithin (loadAssembliesInto directories m)
    (map (fun d => resolve d SPEC_FILE_NAME) directories).
Proof.
  induction directories as [|d ds IH]; intros m; cbn [loadAssembliesInto map].
  - apply reads_ret.
  - change (resolve d SPEC_FILE_NAME :: ?l)
      with ([resolve d SPEC_FILE_NAME] ++ [] ++ l)%list.
    apply reads_bind; [apply reads_readJson|]. intros copy.
    apply reads_bind; [|intros _; apply IH].
    apply reads_nothing, preserves_callAddAssembly. exact I.
Qed.

Lemma reads_processing directories ls options :
  readsWithin (processing directories ls options) (plannedReads directories ls).
Proof.
  unfold processing, plannedReads. intros w. unfold bind.
  pose proof (prepare_returns directories options w) as Hm.
  assert (Hprep : readsWithin (prepare directories options)
                    (map (fun d => resolve d SPEC_FILE_NAME) directories)).
  { unfold prepare.
    change (map ?f directories) with ([] ++ map f directories)%list.
    apply reads_bind; [|intros _; apply reads_loadAssembliesInto].
    apply reads_nothing. repeat pres_step.
    apply preserves_callLoadTabletFromFile. exact I. }
  destruct (Hprep w) as (e1 & Ht1 & Hp1 & Hr1).
  destruct (prepare directories options w) as [w1 [m|e]]; cbn [fst snd] in *.
  - rewrite (Hm m eq_refl).
    destruct (reads_transliterateAll options ls (mapKeys directories) w1)
      as (e2 & Ht2 & Hp2 & Hr2).
    exists (e1 ++ e2)%list. rewrite Ht2, Ht1, app_assoc, readPaths_app.
    rewrite Hr1 by eauto. split; [reflexivity|].
    split; [apply prefix_app, Hp2|]. intros Hok. rewrite Hr2 by exact Hok. reflexivity.
  - exists e1. split; [exact Ht1|]. split; [apply prefix_app_r, Hp1|].
    intros (u & Hu). discriminate.
Qed.

(** The reads of a run follow the two loops. *)
Lemma every_iteration_reads (directories ls : list string)
    (options : TransliterateAssemblyOptions) (files : gmap string File) :
  let run := transliterateAssembly directories ls options files in
  readPaths (trace run.1) `prefix_of` plannedReads directories ls /\
  (run.2 = Ok tt \/ run.2 = Throw strictModeError ->
   readPaths (trace run.1) = plannedReads directories ls).
Proof.
  intros run. subst run. unfold transliterateAssembly, bind.
  destruct (reads_processing directories ls options (initialWorld ls options files))
    as (e1 & Ht1 & Hp1 & Hr1).
  pose proof (raises_processing directories ls options (initialWorld ls options files))
    as Hraise.
  destruct (processing directories ls options (initialWorld ls options files))
    as [w1 [[]|e]]; cbn [fst snd] in *.
  - assert (Hrep : readsWithin (reportDiagnostics options) []).
    { apply reads_nothing, preserves_reportDiagnostics. intros; exact I. }
    destruct (Hrep w1) as (e2 & Ht2 & Hp2 & _).
    apply prefix_nil_inv in Hp2.
    rewrite Ht2, Ht1. cbn [initialWorld trace app].
    rewrite readPaths_app, Hp2, app_nil_r, Hr1 by eauto. auto.
  - rewrite Ht1. cbn [initialWorld trace app]. split; [exact Hp1|].
    intros [Hok|Hs]; [discriminate|]. injection Hs as ->.
    destruct (Hraise _ eq_refl). reflexivity.
Qed.

(** X11. Every iteration reads its assembly again. The reads of a run are,
    in order: the assembly file of each entry of the list of directories
    while the assemblies are loaded (a directory listed twice is read
    twice), then, for each distinct directory, the same assembly file once
    per entry of the list of languages. Whatever way the run ends, the
    files read so far are an initial part of that list; they are the whole
    list when the run returns or ends in the exception of the strict mode.
    No other file is read. *)
Theorem every_iteration_reads_its_assembly_again (directories ls : list string)
    (options : TransliterateAssemblyOptions) (files : gmap string File) :
  let run := transliterateAssembly directories ls options files in
  readPaths (trace run.1) `prefix_of` plannedReads directories ls /\
  (run.2 = Ok tt \/ run.2 = Throw strictModeError ->
   readPaths (trace run.1) = plannedReads directories ls).
Proof. apply every_iteration_reads. Qed.

End Reads.

(** ** The loaders *)

Section Loaders.
Context `{RosettaEngine}.

(** An iteration is the call of its loader, then what is done with the
    reference it returns. *)
Lemma transliteratePair_after_load options location (loader : AssemblyLoader) l w :
  transliteratePair options location loader l w
  = match loader w with
    | (w1, Ok result) => transliteratePair options location (ret result) l w1
    | (w1, Throw e) => (w1, Throw e)
    end.
Proof.
  unfold transliteratePair, transliterateCopy, bind, ret.
  destruct (loader w) as [w1 [result|e]]; reflexivity.
Qed.

Lemma loaded_copy_is_not_read_again options location result l :
  preserves (evolves notRead) (transliteratePair options location (ret result) l).
Proof.
  unfold transliteratePair, transliterateCopy.
  pres_bind.
  - repeat pres_step.
    + apply preserves_callTranslateSnippetsInMarkdown. exact I.
    + pres_loop. intros [i t] _.
      pres_bind; [|intros; apply preserves_modify].
      eapply preserves_mono; [apply isWalker_notRead | apply preserves_transliterateType].
  - intros copy. pres_bind; [apply preserves_writeJson; intros; exact I|]. intros _.
    repeat pres_step. apply preserves_emit; cbn; auto.
Qed.

(** An iteration starts with the call of its loader, which is its only
    read. *)
Lemma transliteratePair_reads_first options d l w a :
  disk w !! resolve d SPEC_FILE_NAME = Some (JsonFile a) ->
  exists rest,
    trace (transliteratePair options d (readJson (resolve d SPEC_FILE_NAME)) l w).1
    = (trace w ++ EvReadJson (resolve d SPEC_FILE_NAME) (length (heap w)) a :: rest)%list /\
    readPaths rest = [].
Proof.
  intros Hfile. rewrite transliteratePair_after_load, (readJson_ok _ a w Hfile).
  match goal with |- context [transliteratePair _ _ _ _ ?w1] =>
    destruct (loaded_copy_is_not_read_again options d (length (heap w)) l w1)
      as (rest & Ht & Hev & _) end.
  exists rest. rewrite Ht. cbn [trace]. rewrite <- app_assoc.
  split; [reflexivity | apply readPaths_none, Hev].
Qed.

(** C1. In a run whose languages are single path segments: the assembly
    file of every directory is at the end what it was at the start; every
    call of a loader returned the document of the file as it was at the
    start, whatever was done to the copies returned before; and the loaders
    are called as the loops have it, once while the assemblies are loaded
    and then once for every (directory, language) pair. For every loader
    that [loadAssemblies] has put in its map, and whatever the world it is
    called in: two calls of the loader return two different references,
    neither of which existed before, and a change made through the first
    leaves the second copy as the file has it and the file as it is; the
    iteration of a pair begins with the call of the loader, which returns a
    new reference to the document of the file, reads nothing else, and
    leaves every copy that exists when it starts as it is. *)
Theorem loader_returns_independent_copies
    (directories ls : list string) (options : TransliterateAssemblyOptions)
    (files : gmap string File) :
  forallb singleSegment ls = true ->
  let loaded := prepare directories options (initialWorld ls options files) in
  let out := transliterateAssembly directories ls options files in
  (forall d, disk out.1 !! resolve d SPEC_FILE_NAME = files !! resolve d SPEC_FILE_NAME) /\
  (forall path copy a,
     EvReadJson path copy a ∈ trace out.1 -> files !! path = Some (JsonFile a)) /\
  (readPaths (trace out.1) `prefix_of` plannedReads directories ls /\
   (out.2 = Ok tt \/ out.2 = Throw strictModeError ->
    readPaths (trace out.1) = plannedReads directories ls)) /\
  (forall assemblies d (loader : AssemblyLoader),
     loaded.2 = Ok assemblies -> (d, loader) ∈ assemblies ->
     forall (w : World) (a : Assembly),
       disk w !! resolve d SPEC_FILE_NAME = Some (JsonFile a) ->
       (forall f : Assembly -> Assembly,
          let twice := (c1 <- loader ;; modify c1 f ;; c2 <- loader ;; ret (c1, c2)) w in
          twice.2 = Ok (length (heap w), S (length (heap w))) /\
          heap twice.1 = (heap w ++ [f a; a])%list /\
          disk twice.1 = disk w) /\
       (forall l,
          let iteration := transliteratePair options d loader l w in
          (exists rest,
             trace iteration.1
             = (trace w ++ EvReadJson (resolve d SPEC_FILE_NAME) (length (heap w)) a
                           :: rest)%list /\
             readPaths rest = []) /\
          (forall copy, copy < length (heap w) ->
                        heap iteration.1 !! copy = heap w !! copy))).
Proof.
  intros Hls loaded out.
  destruct (preserves_run directories ls options (initialWorld ls options files))
    as (ev & Ht & Hev & Hd & Hr).
  change ((processing directories ls options ;; reportDiagnostics options)
            (initialWorld ls options files)) with out in Ht, Hd.
  cbn in Ht, Hd, Hr.
  destruct (run_keeps_originals ls Hls ev Hev files) as [Hkeep Hreads].
  split; [intros d; rewrite Hd; apply Hkeep|].
  split; [intros path copy a Hin; rewrite Ht in Hin; eapply Hreads; eauto|].
  split; [apply every_iteration_reads|].
  intros assemblies d loader Hloaded Hin w a Hfile.
  apply prepare_returns in Hloaded. subst assemblies.
  apply list_elem_of_In, in_map_iff in Hin as (d0 & Heq & _).
  injection Heq as <- <-.
  split.
  - intros f. apply loader_twice, Hfile.
  - intros l iteration. split.
    + apply transliteratePair_reads_first, Hfile.
    + intros copy Hc. apply transliteratePair_keeps_copies, Hc.
Qed.

End Loaders.

(** ** More concrete inputs *)

Lemma interface_walk_visits_methods_then_properties_witness :
  exists events,
    trace (@transliterateType sampleEngine "python" "/a" false sampleInterface sampleWorld).1
    = (trace sampleWorld ++ events)%list.
Proof.
  destruct (@interface_walk_visits_methods_then_properties sampleEngine "python" "/a" false
              sampleInterface sampleWorld eq_refl) as (events & Ht & _).
  exists events. exact Ht.
Defined.

Lemma walk_changes_only_examples_witness :
  exists t',
    (@transliterateType sampleEngine "python" "/a" false sampleInterface sampleWorld).2
    = Ok t' /\
    withoutExamples t' = withoutExamples sampleInterface.
Proof.
  eexists. split; [vm_compute; reflexivity|].
  eapply (@walk_changes_only_examples sampleEngine "python" "/a" false sampleInterface _
            sampleWorld _).
  vm_compute. reflexivity.
Defined.

Lemma walk_without_examples_is_silent_witness :
  let t := mkType InterfaceKind (Some (mkDocs (Some "about") (Some "")))
             None (Some [mkMethod "m" None None]) None None in
  @transliterateType sampleEngine "python" "/a" false t sampleWorld
  = (recorded sampleWorld (map EvDocs (typeNodes t)), Ok t).
Proof.
  intros t.
  apply (@walk_without_examples_is_silent sampleEngine "python" "/a" false t sampleWorld);
    reflexivity.
Defined.

Lemma walk_asks_one_translation_per_example_witness :
  exists events,
    trace (@transliterateType sampleEngine "python" "/a" false sampleInterface sampleWorld).1
    = (trace sampleWorld ++ events)%list /\
    snippetCalls events = ["python"; "python"; "python"].
Proof.
  destruct (@walk_asks_one_translation_per_example sampleEngine "python" "/a" false
              sampleInterface _ sampleWorld _ eq_refl) as (events & Ht & _ & _ & Hs).
  exists events. split; [exact Ht | exact Hs].
Defined.

Lemma unreadable_directory_stops_the_run_witness :
  (@transliterateAssembly sampleEngine ["/a"; "/missing"; "/b"] ["python"] noOptions
     sampleFiles).2
  = Throw (IOError "/missing/.jsii").
Proof.
  refine (proj1 (@unreadable_directory_stops_the_run sampleEngine ["/a"] ["/b"] ["python"]
                   "/missing" noOptions sampleFiles eq_refl _)).
  intros (a & Ha). vm_compute in Ha. discriminate.
Defined.

Lemma written_files_are_transliterated_copies_witness :
  forallb singleSegment ["python"; "java"] = true /\
  exists d l a0 a,
    d ∈ ["/a"; "/b"] /\ l ∈ ["python"; "java"] /\ "/b/.jsii.java" = @outputPath sampleEngine d l /\
    sampleFiles !! @resolve sampleEngine d SPEC_FILE_NAME = Some (JsonFile a0) /\
    disk (@transliterateAssembly sampleEngine ["/a"; "/b"] ["python"; "java"] noOptions
            sampleFiles).1 !! "/b/.jsii.java"
    = Some (JsonFile a) /\
    withoutTranslations a = withoutTranslations a0.
Proof.
  split; [reflexivity|].
  apply (proj1 (@written_files_are_transliterated_copies sampleEngine ["/a"; "/b"]
                  ["python"; "java"] noOptions sampleFiles "/b/.jsii.java" eq_refl)).
  apply list_elem_of_In. vm_compute. auto.
Defined.

Lemma each_output_is_written_once_witness :
  NoDup (written (trace (@transliterateAssembly sampleEngine ["/a"; "/b"; "/a"]
                           ["python"; "java"] noOptions sampleFiles).1)).
Proof.
  apply (@each_output_is_written_once sampleEngine ["/a"; "/b"; "/a"] ["python"; "java"]
           noOptions sampleFiles).
  - apply NoDup_cons_2; [|apply NoDup_singleton].
    intros Hin. apply list_elem_of_singleton in Hin. discriminate.
  - reflexivity.
  - vm_compute. apply NoDup_cons_2; [|apply NoDup_singleton].
    intros Hin. apply list_elem_of_singleton in Hin. discriminate.
Defined.

Lemma loader_returns_independent_copies_witness :
  forallb singleSegment ["python"; "java"] = true /\
  readPaths (trace (@transliterateAssembly sampleEngine ["/a"; "/b"; "/a/"]
                      ["python"; "java"] noOptions sampleFiles).1)
  = ["/a/.jsii"; "/b/.jsii"; "/a/.jsii";
     "/a/.jsii"; "/a/.jsii"; "/b/.jsii"; "/b/.jsii"; "/a/.jsii"; "/a/.jsii"].
Proof.
  split; [reflexivity|].
  apply (proj2 (proj1 (proj2 (proj2 (@loader_returns_independent_copies sampleEngine
                                       ["/a"; "/b"; "/a/"] ["python"; "java"] noOptions
                                       sampleFiles eq_refl))))).
  left. reflexivity.
Defined.

(** A directory listed under two spellings is two keys of the map: it is
    registered and iterated over under each, and [path.resolve] takes both
    to one place, so its output is written twice. *)
Lemma directory_spelled_twice_written_twice :
  let out := @transliterateAssembly sampleEngine ["/b"; "/b/"] ["python"]
               noOptions sampleFiles in
  registrations (trace out.1) = ["/b"; "/b/"] /\
  written (trace out.1) = ["/b/.jsii.python"; "/b/.jsii.python"] /\
  out.2 = Ok tt.
Proof. vm_compute. auto. Qed.
